(** * AU_UAV_ROS: the danger grid (danger_grid.h, map_fixed.h, map_tools.h)

    A shallow embedding of the collision-risk field engine and the proofs of
    its specification; then the rest of the three headers, the earlier
    version of danger_grid.h and the course generator
    (generate_courses_500m_field.cpp), with the properties that the code
    shows.

    Conventions of the embedding.
    - A C++ [double] is a real number ([R]): arithmetic is exact, [sqrt],
      [asin], [acos], [atan], [sin] and [cos] are the functions of the
      Standard Library; [fmod] and [atan2] are written out from them.
    - [rand()] is a function of the number of the call.
    - A C++ [int] is an integer ([Z]) and is assumed not to overflow; only
      in [map_tools::get_euclidean_dist_between], which squares differences
      of coordinates, the overflow is written out, with [None].
    - Where a property depends on a quotient of two [double]s being exact,
      it assumes that the quotient is [representable].
    - A C++ [unsigned int] ([natural]) is an integer in [0, 2^32); the
      wrap-around of [x - 1] and [x + 1] is written out with [wrap32].
    - An unchecked [vector] access out of range has no defined behaviour in
      C++; the embedding returns [None] there, as it does where an [assert]
      fails.
    - map.h, estimate.h, Position.h and Plane_fixed.h are not among the
      sources: the two accessors of the map that only map.h declares, and
      the three records, follow the specification. *)

From Stdlib Require Import ZArith Reals Lra Lia.
From stdpp Require Import base decidable option list strings.

Open Scope R_scope.

(** ** Decidable comparisons on doubles *)

#[global] Instance Rlt_decision (a b : R) : Decision (a < b) := Rlt_dec a b.
#[global] Instance Rle_decision (a b : R) : Decision (a <= b) := Rle_dec a b.
#[global] Instance Rgt_decision (a b : R) : Decision (a > b) := Rgt_dec a b.
#[global] Instance Rge_decision (a b : R) : Decision (a >= b) := Rge_dec a b.
#[global] Instance Req_decision : EqDecision R := Req_dec_T.

(** ** Constants *)

(** [#define EPSILON 0.000001] (map_fixed.h) *)
Definition EPSILON : R := 1 / 1000000.

(** [static const unsigned int look_ahead = 20;] *)
Definition look_ahead : Z := 20.

(** [static const unsigned int look_behind = 2;] *)
Definition look_behind : Z := 2.

(** [static const double field_weight = 0.7;] *)
Definition field_weight : R := 7 / 10.

(** [const double PI = 2*acos(0.0);] *)
Definition PI_const : R := 2 * acos 0.

(** [const double RADtoDEGREES = 180/PI;] *)
Definition RADtoDEGREES : R := 180 / PI_const.

(** ** Estimates, positions and planes *)

(** Modelled from the spec: [struct estimate] of estimate.h, which is not
    among the sources; "[{x: int, y: int, risk: float}]", built by
    [estimate( x, y, danger )]. *)
Record estimate : Type := Estimate { ex : Z; ey : Z; edanger : R }.

(** The time-stamp divider [estimate(0,0,-1)]. *)
Definition marker : estimate := Estimate 0 0 (-1).

(** Modelled from the spec: the part of [Position] (Position.h, not among
    the sources) that the danger grid reads, the grid coordinates [getX()]
    and [getY()]. *)
Record Position : Type := mkPosition { getX : Z; getY : Z }.

(** Modelled from the spec: the part of [Plane] (Plane_fixed.h, not among
    the sources) that the danger grid reads; "identifier, current position,
    intermediate destination (optional), final destination, current
    bearing", and the bearing to the destination. *)
Record Plane : Type := mkPlane {
  getId : Z;
  getLocation : Position;
  getDestination : Position;
  getFinalDestination : Position;
  getBearing : R;
  getBearingToDest : R
}.

(** [v[i]] on a [vector] with an [int] index. *)
Definition vec_at {A : Type} (v : list A) (i : Z) : option A :=
  if decide (0 <= i)%Z then v !! Z.to_nat i else None.

(** ** The trajectory projector *)

(** [neighoboringAngles(angle, first, second)]: the two out parameters keep
    their old values when no branch fires. *)
Definition neighoboringAngles (angle first second : R) : R * R :=
  if decide (angle > 0) then
    if decide (angle < 45) then (0, 45)
    else if decide (angle < 90) then (45, 90)
    else if decide (angle < 135) then (90, 135)
    else if decide (angle <= 180) then (135, 180)
    else (first, second)
  else
    if decide (angle > -45) then (0, -45)
    else if decide (angle > -90) then (-45, -90)
    else if decide (angle > -135) then (-90, -135)
    else if decide (angle >= -180) then (-135, -180)
    else (first, second).

(** The ceiling of [placeDanger]: [double dangerCeiling=.4;] *)
Definition dangerCeiling : R := 4 / 10.

(** [if(d>=dangerCeiling) d=dangerCeiling;] *)
Definition clamp (d : R) : R :=
  if decide (d >= dangerCeiling) then dangerCeiling else d.

(** [placeDanger(angle, e, closest, other, x, y, danger)] *)
Definition placeDanger (angle : R) (e : list estimate) (closest other : R)
    (x y : Z) (danger : R) : list estimate :=
  let remainingDanger := 1 - danger in
  let danger := clamp danger in
  let remainingDanger := clamp remainingDanger in
  if decide (angle > 0) then
    if decide (closest = 0) then
      e ++ [Estimate x (y - 1) danger; Estimate (x + 1) (y - 1) remainingDanger]
    else if decide (closest = 45 /\ other = 0) then
      e ++ [Estimate (x + 1) (y - 1) danger; Estimate x (y - 1) remainingDanger]
    else if decide (closest = 45) then
      e ++ [Estimate (x + 1) (y - 1) danger; Estimate (x + 1) y remainingDanger]
    else if decide (closest = 90 /\ other = 45) then
      e ++ [Estimate (x + 1) y danger; Estimate (x + 1) (y - 1) remainingDanger]
    else if decide (closest = 90) then
      e ++ [Estimate (x + 1) y danger; Estimate (x + 1) (y + 1) remainingDanger]
    else if decide (closest = 135 /\ other = 90) then
      e ++ [Estimate (x + 1) (y + 1) danger; Estimate (x + 1) y remainingDanger]
    else if decide (closest = 135) then
      e ++ [Estimate (x + 1) (y + 1) danger; Estimate x (y + 1) remainingDanger]
    else
      e ++ [Estimate x (y + 1) danger; Estimate (x + 1) (y + 1) remainingDanger]
  else
    if decide (closest = 0) then
      e ++ [Estimate x (y - 1) danger; Estimate (x - 1) (y - 1) remainingDanger]
    else if decide (closest = -45 /\ other = 0) then
      e ++ [Estimate (x - 1) (y - 1) danger; Estimate x (y - 1) remainingDanger]
    else if decide (closest = -45) then
      e ++ [Estimate (x - 1) (y - 1) danger; Estimate (x - 1) y remainingDanger]
    else if decide (closest = -90 /\ other = -45) then
      e ++ [Estimate (x - 1) y danger; Estimate (x - 1) (y - 1) remainingDanger]
    else if decide (closest = -90) then
      e ++ [Estimate (x - 1) y danger; Estimate (x - 1) (y + 1) remainingDanger]
    else if decide (closest = -135 /\ other = -90) then
      e ++ [Estimate (x - 1) (y + 1) danger; Estimate (x - 1) y remainingDanger]
    else if decide (closest = -135) then
      e ++ [Estimate (x - 1) (y + 1) danger; Estimate x (y + 1) remainingDanger]
    else
      e ++ [Estimate x (y + 1) danger; Estimate (x - 1) (y + 1) remainingDanger].

(** "find the angle to the waypoint": the bearing block that
    [calculate_future_pos] and [dangerRecurse] both contain. *)
Definition angle_to (x1 y1 x2 y2 : Z) : R :=
  let xDistance := Rabs (IZR x2 - IZR x1) in
  let yDistance := Rabs (IZR y2 - IZR y1) in
  let distance := sqrt (xDistance * xDistance + yDistance * yDistance) in
  let angle := 180 - RADtoDEGREES * asin (xDistance / distance) in
  let angle :=
    if decide (y2 < y1)%Z then RADtoDEGREES * asin (xDistance / distance)
    else angle in
  if decide (x2 - x1 < 0)%Z then (-1) * angle else angle.

(** "find closest straight line": the pair (closestAngle, otherAngle). *)
Definition closest_other (angle n0 n1 : R) : R * R :=
  if decide (Rabs (angle - n0) >= Rabs (angle - n1)) then (n1, n0)
  else (n0, n1).

(** "find displacement percentage" *)
Definition displacement (angle closestAngle otherAngle : R) : R :=
  if decide (Rabs angle > Rabs closestAngle /\ closestAngle <> 0) then
    closestAngle / angle
  else if decide (closestAngle <> 0) then angle / closestAngle
  else 1 - angle / otherAngle.

(** The choice between the two recursive calls,
    [if(theFuture[i].danger>.3) dangerRecurse(theFuture[i], ...);
     else dangerRecurse(theFuture[j], ...);]: the estimate to go on from. *)
Definition choose_branch (theFuture : list estimate) (i j : Z)
    : option estimate :=
  branch ← vec_at theFuture i;
  if decide (edanger branch > 3 / 10) then Some branch
  else vec_at theFuture j.

(** [dangerRecurse(e, destination, theFuture, time)].  The vector
    [theFuture] and the counter [time] are passed by reference: the
    embedding threads them through and returns their final values.  The
    recursion is on [fuel]; [dangerRecurse_budget] below is always enough. *)
Fixpoint dangerRecurse (fuel : nat) (e : estimate) (destination : Z * Z)
    (theFuture : list estimate) (time : Z) : option (list estimate * Z) :=
  match fuel with
  | O => None
  | S fuel =>
    let x1 := ex e in
    let y1 := ey e in
    let x2 := fst destination in
    let y2 := snd destination in
    let dest := (x2, y2) in
    let xDistance := Rabs (IZR x2 - IZR x1) in
    let yDistance := Rabs (IZR y2 - IZR y1) in
    if decide (xDistance = 0 /\ yDistance = 0) then Some (theFuture, time)
    else
      let angle := angle_to x1 y1 x2 y2 in
      let '(n0, n1) := neighoboringAngles angle 0 0 in
      let '(closestAngle, otherAngle) := closest_other angle n0 n1 in
      let danger := displacement angle closestAngle otherAngle in
      let theFuture :=
        placeDanger angle theFuture closestAngle otherAngle x1 y1 danger in
      let nextPos := (Z.of_nat (length theFuture) - 2)%Z in
      let theFuture := theFuture ++ [marker] in
      let time := (time + 1)%Z in
      next ← choose_branch theFuture (nextPos + 2) nextPos;
      dangerRecurse fuel next dest theFuture time
  end.

(** The number of calls that [dangerRecurse] is given from a point. *)
Definition dangerRecurse_budget (e : estimate) (destination : Z * Z) : nat :=
  S (Z.to_nat (Z.abs (fst destination - ex e) +
               Z.abs (snd destination - ey e))).

(** "add prediction to one square ahead of goal": the three pairs that
    [calculate_future_pos] places past the goal, from the target bearing. *)
Definition ahead_of_goal (angle n0 n1 : R) (x2 y2 : Z)
    (theFuture : list estimate) : option (list estimate) :=
  let '(n0, n1) := neighoboringAngles angle n0 n1 in
  let '(closestAngle, otherAngle) := closest_other angle n0 n1 in
  let danger := 1 in
  let theFuture :=
    placeDanger angle theFuture closestAngle otherAngle x2 y2 danger in
  (* "2 seconds ho" *)
  let theFuture := theFuture ++ [marker] in
  ahead ← vec_at theFuture (Z.of_nat (length theFuture) - 3);
  let theFuture :=
    placeDanger angle theFuture closestAngle otherAngle
      (ex ahead) (ey ahead) danger in
  (* "3 seconds ho" *)
  let theFuture := theFuture ++ [marker] in
  ahead ← vec_at theFuture (Z.of_nat (length theFuture) - 3);
  Some (placeDanger angle theFuture closestAngle otherAngle
          (ex ahead) (ey ahead) danger).

(** [calculate_future_pos(plane, time)]; returns the estimates and the new
    value of the reference parameter [time]. *)
Definition calculate_future_pos (plane : Plane) (time : Z)
    : option (list estimate * Z) :=
  let theFuture : list estimate := [] in
  let '(current, destination) :=
    if decide (time = 0)%Z then (getLocation plane, getDestination plane)
    else (getDestination plane, getFinalDestination plane) in
  let x1 := getX current in
  let x2 := getX destination in
  let y1 := getY current in
  let y2 := getY destination in
  let xDistance := Rabs (IZR x2 - IZR x1) in
  let yDistance := Rabs (IZR y2 - IZR y1) in
  if decide (xDistance = 0 /\ yDistance = 0) then Some (theFuture, time)
  else
    let angle := angle_to x1 y1 x2 y2 in
    let '(n0, n1) := neighoboringAngles angle 0 0 in
    let '(closestAngle, otherAngle) := closest_other angle n0 n1 in
    let danger := displacement angle closestAngle otherAngle in
    let theFuture :=
      placeDanger angle theFuture closestAngle otherAngle x1 y1 danger in
    let dest := (x2, y2) in
    let theFuture := theFuture ++ [marker] in
    let time := (time + 1)%Z in
    start ← choose_branch theFuture 1 0;
    '(theFuture, time) ←
      dangerRecurse (dangerRecurse_budget start dest) start dest
        theFuture time;
    theFuture ←
      ahead_of_goal (getBearingToDest plane) n0 n1 x2 y2 theFuture;
    Some (theFuture, time).

(** ** Machine integers and conversions *)

(** Reduction of an integer to the range of [unsigned int]. *)
Definition wrap32 (z : Z) : Z := (z mod 2 ^ 32)%Z.

(** [unsigned int] subtraction, addition and multiplication. *)
Definition usub (a b : Z) : Z := wrap32 (a - b).
Definition uadd (a b : Z) : Z := wrap32 (a + b).
Definition umul (a b : Z) : Z := wrap32 (a * b).

(** Conversion of a [double] to an integer type: the fraction is dropped. *)
Definition truncate (r : R) : Z :=
  if decide (0 <= r) then Int_part r else (- Int_part (- r))%Z.

(** [ceil] of math.h. *)
Definition ceil (r : R) : Z := (- Int_part (- r))%Z.

(** ** map_fixed.h: the map *)

(** [struct grid_square]: the planes in the square and its danger. *)
Record grid_square : Type := mkSquare { planes : list Z; danger : R }.

(** [grid_square( )]: "sets danger to 0 initially". *)
Definition new_square : grid_square := mkSquare [] 0.

(** [class map]; [the_map] is "accessed in [x][y] order". *)
Record map : Type := mkMap {
  the_map : list (list grid_square);
  width : R;
  height : R;
  resolution : R;
  squares_wide : Z;
  squares_high : Z
}.

(** [map::map( width_of_field, height_of_field, map_resolution )].  The
    three [assert]s stop the program ([None]); so does a quotient that does
    not fit an [unsigned int].  Of the output to [cout] only the unchecked
    access of its last statement, [the_map[1].size()], is kept. *)
Definition new_map (width_of_field height_of_field map_resolution : R)
    : option map :=
  if decide (width_of_field > EPSILON /\ height_of_field > EPSILON /\
             map_resolution > EPSILON) then
    let wide := truncate (width_of_field / map_resolution) in
    let high := truncate (height_of_field / map_resolution) in
    if decide (wide < 2 ^ 32 /\ high < 2 ^ 32)%Z then
      let m :=
        mkMap (replicate (Z.to_nat wide)
                 (replicate (Z.to_nat high) (mkSquare [] 0)))
              width_of_field height_of_field map_resolution wide high in
      _ ← vec_at (the_map m) 1;
      Some m
    else None
  else None.

(** [the_map[ x_pos ][ y_pos ]] *)
Definition square_at (m : map) (x_pos y_pos : Z) : option grid_square :=
  column ← vec_at (the_map m) x_pos;
  vec_at column y_pos.

(** An assignment through [the_map[ x_pos ][ y_pos ]]. *)
Definition update_square (m : map) (x_pos y_pos : Z)
    (f : grid_square -> grid_square) : option map :=
  _ ← square_at m x_pos y_pos;
  Some (mkMap (alter (alter f (Z.to_nat y_pos)) (Z.to_nat x_pos) (the_map m))
              (width m) (height m) (resolution m)
              (squares_wide m) (squares_high m)).

(** [map::get_danger_at( x_pos, y_pos )] *)
Definition map_get_danger_at (m : map) (x_pos y_pos : Z) : option R :=
  danger <$> square_at m x_pos y_pos.

(** [map::set_danger_at( x_pos, y_pos, new_danger )] *)
Definition map_set_danger_at (m : map) (x_pos y_pos : Z) (new_danger : R)
    : option map :=
  update_square m x_pos y_pos (fun sq => mkSquare (planes sq) new_danger).

(** [map::get_resolution( )] returns an [unsigned int]. *)
Definition get_resolution (m : map) : Z := truncate (resolution m).

(** Modelled from the spec: [map::add_danger_at], declared in map.h, which
    is not among the sources.  "Risk accumulates (additive) rather than
    overwrites"; "unsafe variants -- out-of-range access is caller error". *)
Definition map_add_danger_at (m : map) (x_pos y_pos : Z) (d : R)
    : option map :=
  update_square m x_pos y_pos (fun sq => mkSquare (planes sq) (danger sq + d)).

(** Modelled from the spec: [map::safely_add_danger_at], declared in map.h,
    which is not among the sources.  "as [add_risk], but silently ignores
    the call if (x, y) is outside grid bounds". *)
Definition safely_add_danger_at (m : map) (x_pos y_pos : Z) (d : R)
    : option map :=
  if decide (0 <= x_pos < squares_wide m /\ 0 <= y_pos < squares_high m)%Z
  then map_add_danger_at m x_pos y_pos d
  else Some m.

(** ** map_tools.h *)

(** [map_tools::find_width_in_squares] *)
Definition find_width_in_squares
    (width_of_field height_of_field map_resolution : R) : Z :=
  wrap32 (truncate (IZR (ceil (width_of_field / map_resolution)) + 1 / 10)).

(** [map_tools::find_height_in_squares] *)
Definition find_height_in_squares
    (width_of_field height_of_field map_resolution : R) : Z :=
  wrap32 (truncate (IZR (ceil (height_of_field / map_resolution)) + 1 / 10)).

(** ** danger_grid.h: the danger grid *)

(** The data members of [danger_grid], with the static [plane_danger]. *)
Record danger_grid : Type := mkGrid {
  plane_danger : R;
  danger_ratings : list R;
  aircraft : list Plane;
  danger_space : list map;
  map_res : R;
  dist_map : option map;
  distance_costs_initialized : bool
}.

(** A loop over the elements of a vector, with a body that can fail. *)
Fixpoint for_each {A S : Type} (body : S -> A -> option S) (l : list A)
    (s : S) : option S :=
  match l with
  | [] => Some s
  | a :: l => s ← body s a; for_each body l s
  end.

(** A statement on the map [danger_space[ time ]] that changes it. *)
Definition on_slice (space : list map) (time : Z) (f : map -> option map)
    : option (list map) :=
  m ← vec_at space time;
  m ← f m;
  Some (<[Z.to_nat time := m]> space).

(** [danger_grid::set_danger_field( bearing, unweighted_danger, x, y, time )] *)
Definition set_danger_field (bearing unweighted_danger : R) (x y : Z)
    (time : Z) (space : list map) : option (list map) :=
  let d := unweighted_danger * field_weight in
  (* dag left+down *)
  space ← on_slice space time
    (fun m => safely_add_danger_at m (usub x 1) (uadd y 1) d);
  (* straight left *)
  space ← on_slice space time
    (fun m => safely_add_danger_at m (usub x 1) y d);
  (* dag left+up *)
  space ← on_slice space time
    (fun m => safely_add_danger_at m (usub x 1) (usub y 1) d);
  (* straight up *)
  space ← on_slice space time
    (fun m => safely_add_danger_at m x (usub y 1) d);
  (* dag right+up *)
  space ← on_slice space time
    (fun m => safely_add_danger_at m (uadd x 1) (usub y 1) d);
  (* straight right *)
  space ← on_slice space time
    (fun m => safely_add_danger_at m (uadd x 1) y d);
  (* dag right+down *)
  space ← on_slice space time
    (fun m => safely_add_danger_at m (uadd x 1) (uadd y 1) d);
  (* straight down *)
  on_slice space time
    (fun m => safely_add_danger_at m x (uadd y 1) d).

(** [danger_grid::set_danger_scale( )]: "For now, we aren't scaling
    anything down"; the loop runs for [i = 0 .. look_behind + look_ahead + 1]. *)
Definition set_danger_scale (plane_danger : R) : list R :=
  replicate (Z.to_nat (look_behind + look_ahead + 1 + 1)) plane_danger.

(** [danger_grid::adjust_danger( seconds )] *)
Definition adjust_danger (ratings : list R) (seconds : Z) : option R :=
  vec_at ratings (wrap32 (seconds + look_behind)).

(** A cast [(int)u] of an [unsigned int]. *)
Definition to_int (u : Z) : Z :=
  if decide (u < 2 ^ 31)%Z then u else (u - 2 ^ 32)%Z.

(** The body of the loops "For each estimated (x, y, danger) triple" of
    [fill_danger_space]; the state is the counter [t] and the danger space. *)
Definition fill_estimate (ratings : list R) (bearing : R)
    (st : Z * list map) (current_est : estimate) : option (Z * list map) :=
  let '(t, space) := st in
  if decide (t <= to_int look_ahead)%Z then
    first ← vec_at space 0;
    if decide ((ex current_est >= 0)%Z /\
               (ex current_est < to_int (squares_wide first))%Z /\
               (ey current_est >= 0)%Z /\
               (ey current_est < to_int (squares_high first))%Z /\
               edanger current_est > - EPSILON) then
      let time := wrap32 (t + look_behind) in
      let x := wrap32 (ex current_est) in
      let y := wrap32 (ey current_est) in
      rating ← adjust_danger ratings t;
      let d := edanger current_est * rating in
      space ← on_slice space time (fun m => map_add_danger_at m x y d);
      space ← set_danger_field bearing d x y (to_int time) space;
      Some (t, space)
    else (* "this estimate is only a timestamp marker" *)
      Some ((t + 1)%Z, space)
  else Some (t, space).

(** The body of the loop "For each plane" of [fill_danger_space]. *)
Definition fill_plane (plane_id : Z) (plane_danger : R) (ratings : list R)
    (space : list map) (current_plane : Plane) : option (list map) :=
  if decide (getId current_plane <> to_int plane_id) then
    space ← on_slice space (uadd 0 look_behind)
      (fun m => map_add_danger_at m
                  (wrap32 (getX (getLocation current_plane)))
                  (wrap32 (getY (getLocation current_plane))) plane_danger);
    let dummy := 0%Z in
    '(est_to_avoid, dummy) ← calculate_future_pos current_plane dummy;
    let est_break := dummy in
    '(est_to_goal, dummy) ← calculate_future_pos current_plane dummy;
    let bearing := getBearing current_plane in
    let t := 1%Z in
    '(t, space) ←
      for_each (fill_estimate ratings bearing) est_to_avoid (t, space);
    let t := (est_break + 1)%Z in
    '(t, space) ←
      for_each (fill_estimate ratings bearing) est_to_goal (t, space);
    Some space
  else Some space.

(** [danger_grid::fill_danger_space( plane_id )] *)
Definition fill_danger_space (plane_id : Z) (plane_danger : R)
    (ratings : list R) (aircraft : list Plane) (space : list map)
    : option (list map) :=
  for_each (fill_plane plane_id plane_danger ratings) aircraft space.

(** [danger_grid::danger_grid( set_of_aircraft, width, height, resolution,
    plane_id )]; the [assert]s under [#ifdef DEBUG] are not compiled. *)
Definition new_danger_grid (set_of_aircraft : list Plane)
    (width height resolution : R) (plane_id : Z) : option danger_grid :=
  let sqrs_wide := find_width_in_squares width height resolution in
  let sqrs_high := find_height_in_squares width height resolution in
  let plane_danger :=
    sqrt (IZR (uadd (umul sqrs_wide sqrs_wide) (umul sqrs_high sqrs_high)))
    * (25 / 10) in
  set_up ← new_map width height resolution;
  let space := replicate (Z.to_nat (look_ahead + look_behind + 1)) set_up in
  let ratings := set_danger_scale plane_danger in
  space ← fill_danger_space plane_id plane_danger ratings set_of_aircraft space;
  Some (mkGrid plane_danger ratings set_of_aircraft space resolution None false).

(** [danger_grid::get_danger_at( x_pos, y_pos, seconds )] *)
Definition get_danger_at (dg : danger_grid) (x_pos y_pos : Z) (seconds : Z)
    : option R :=
  m ← vec_at (danger_space dg) (wrap32 (seconds + look_behind));
  map_get_danger_at m x_pos y_pos.

(** [danger_grid::set_danger_at( x_pos, y_pos, seconds, danger )] *)
Definition set_danger_at (dg : danger_grid) (x_pos y_pos : Z) (seconds : Z)
    (d : R) : option danger_grid :=
  space ← on_slice (danger_space dg) (wrap32 (seconds + look_behind))
    (fun m => map_set_danger_at m x_pos y_pos d);
  Some (mkGrid (plane_danger dg) (danger_ratings dg) (aircraft dg) space
               (map_res dg) (dist_map dg) (distance_costs_initialized dg)).

(** [danger_grid::get_width_in_squares()], [get_height_in_squares()] and
    [get_res()] read the first map of the danger space. *)
Definition get_width_in_squares (space : list map) : option Z :=
  squares_wide <$> vec_at space 0.
Definition get_height_in_squares (space : list map) : option Z :=
  squares_high <$> vec_at space 0.
Definition get_res (space : list map) : option R :=
  (fun m => IZR (get_resolution m)) <$> vec_at space 0.

(** The distance written to [dist_map] at a square, in [unsigned int]
    arithmetic under the square root. *)
Definition goal_distance (crnt_x crnt_y goal_x goal_y : Z) : R :=
  sqrt (IZR (uadd (umul (usub crnt_x goal_x) (usub crnt_x goal_x))
                  (umul (usub crnt_y goal_y) (usub crnt_y goal_y)))).

(** The innermost statement of the second loop nest of
    [calculate_distance_costs]. *)
Definition blend_square (old_danger_space : list map) (dist : map)
    (danger_adjust : R) (crnt_x crnt_y : Z) (space : list map) (crnt_t : Z)
    : option (list map) :=
  old ← vec_at old_danger_space crnt_t;
  crnt_danger ← map_get_danger_at old crnt_x crnt_y;
  if decide (crnt_danger > EPSILON) then
    on_slice space crnt_t (fun m =>
      d ← map_get_danger_at dist crnt_x crnt_y;
      map_set_danger_at m crnt_x crnt_y (danger_adjust * crnt_danger + d))
  else Some space.

(** [danger_grid::calculate_distance_costs( goal_x, goal_y, danger_adjust )] *)
Definition calculate_distance_costs (dg : danger_grid) (goal_x goal_y : Z)
    (danger_adjust : R) : option danger_grid :=
  wide ← get_width_in_squares (danger_space dg);
  high ← get_height_in_squares (danger_space dg);
  res ← get_res (danger_space dg);
  dist ← new_map (IZR wide * res) (IZR high * res) res;
  dist ← for_each (fun dist crnt_x =>
            for_each (fun dist crnt_y =>
              map_set_danger_at dist crnt_x crnt_y
                (goal_distance crnt_x crnt_y goal_x goal_y))
              (seqZ 0 high) dist)
            (seqZ 0 wide) dist;
  let old_danger_space := danger_space dg in
  let space := replicate (Z.to_nat (look_ahead + look_behind + 1)) dist in
  wide ← get_width_in_squares space;
  high ← get_height_in_squares space;
  space ← for_each (fun space crnt_x =>
             for_each (fun space crnt_y =>
               for_each
                 (blend_square old_danger_space dist danger_adjust
                    crnt_x crnt_y)
                 (seqZ 0 look_ahead) space)
               (seqZ 0 high) space)
             (seqZ 0 wide) space;
  Some (mkGrid (plane_danger dg) (danger_ratings dg) (aircraft dg) space
               (map_res dg) (Some dist) true).

(** [danger_grid::calculate_distance_costs( goal_x, goal_y )] *)
Definition calculate_distance_costs_default (dg : danger_grid)
    (goal_x goal_y : Z) : option danger_grid :=
  calculate_distance_costs dg goal_x goal_y 1.

(** * Definitions of the specification *)

(** The sixteen sectors of the compass rose, as the source selects them. *)
Inductive sector (angle : R) : R -> R -> Prop :=
  | sec_N_NE : 0 < angle < 45 / 2 -> sector angle 0 45
  | sec_NE_N : 45 / 2 <= angle < 45 -> sector angle 45 0
  | sec_NE_E : 45 <= angle < 135 / 2 -> sector angle 45 90
  | sec_E_NE : 135 / 2 <= angle < 90 -> sector angle 90 45
  | sec_E_SE : 90 <= angle < 225 / 2 -> sector angle 90 135
  | sec_SE_E : 225 / 2 <= angle < 135 -> sector angle 135 90
  | sec_SE_S : 135 <= angle < 315 / 2 -> sector angle 135 180
  | sec_S_SE : 315 / 2 <= angle <= 180 -> sector angle 180 135
  | sec_N_NW : - (45 / 2) < angle <= 0 -> sector angle 0 (-45)
  | sec_NW_N : -45 < angle <= - (45 / 2) -> sector angle (-45) 0
  | sec_NW_W : - (135 / 2) < angle <= -45 -> sector angle (-45) (-90)
  | sec_W_NW : -90 < angle <= - (135 / 2) -> sector angle (-90) (-45)
  | sec_W_SW : - (225 / 2) < angle <= -90 -> sector angle (-90) (-135)
  | sec_SW_W : -135 < angle <= - (225 / 2) -> sector angle (-135) (-90)
  | sec_SW_S : - (315 / 2) < angle <= -135 -> sector angle (-135) (-180)
  | sec_S_SW : -180 <= angle <= - (315 / 2) -> sector angle (-180) (-135).

(** The offset (dx, dy) of a neighbouring square points along a bearing. *)
Definition toward (angle : R) (dx dy : Z) : Prop :=
  (dy = (-1)%Z /\ Rabs angle < 135 / 2 \/
   dy = 0%Z /\ 135 / 2 <= Rabs angle < 225 / 2 \/
   dy = 1%Z /\ 225 / 2 <= Rabs angle) /\
  (dx = 0%Z /\ (Rabs angle < 45 / 2 \/ 315 / 2 <= Rabs angle) \/
   dx = 1%Z /\ 45 / 2 <= angle < 315 / 2 \/
   dx = (-1)%Z /\ - (315 / 2) < angle <= - (45 / 2)).

(** The pair of estimates that one step places from (x1, y1) to (x2, y2). *)
Definition step_pair (x1 y1 x2 y2 : Z) : list estimate :=
  let angle := angle_to x1 y1 x2 y2 in
  let '(n0, n1) := neighoboringAngles angle 0 0 in
  let '(closestAngle, otherAngle) := closest_other angle n0 n1 in
  placeDanger angle [] closestAngle otherAngle x1 y1
    (displacement angle closestAngle otherAngle).

(** The distance that the recursion decreases. *)
Definition manhattan (x1 y1 x2 y2 : Z) : Z :=
  (Z.abs (x2 - x1) + Z.abs (y2 - y1))%Z.

(** The estimates that the calls of [dangerRecurse] place from [e] on: the
    recursion ends at the destination and nowhere else. *)
Inductive recursion_steps (x2 y2 : Z) : estimate -> list estimate -> Prop :=
  | steps_done (e : estimate) :
      ex e = x2 -> ey e = y2 -> recursion_steps x2 y2 e []
  | steps_more (e a b : estimate) (rest : list estimate) :
      ~ (ex e = x2 /\ ey e = y2) ->
      step_pair (ex e) (ey e) x2 y2 = [a; b] ->
      recursion_steps x2 y2 a rest ->
      recursion_steps x2 y2 e (a :: b :: marker :: rest).

(** The number of markers among the estimates of a recursion. *)
Definition seconds_of (steps : list estimate) : Z :=
  (Z.of_nat (length steps) / 3)%Z.

(** The risk of an estimate placed by the projector: a marker, or a risk
    between 0 and the ceiling. *)
Definition est_ok (e : estimate) : Prop :=
  edanger e = -1 \/ 0 <= edanger e <= 4 / 10.

(** A map whose vectors have the sizes that its counters announce. *)
Definition map_shape (W H : Z) (m : map) : Prop :=
  squares_wide m = W /\ squares_high m = H /\
  length (the_map m) = Z.to_nat W /\
  Forall (fun column => length column = Z.to_nat H) (the_map m).

(** A map without a negative danger. *)
Definition map_nonneg (m : map) : Prop :=
  Forall (Forall (fun sq => 0 <= danger sq)) (the_map m).

(** The danger of square (x, y) of the map at index [t] of a danger space. *)
Definition cell (space : list map) (t x y : Z) : option R :=
  m ← vec_at space t; map_get_danger_at m x y.

(** The maps of a danger space all have the same shape. *)
Definition space_shape (W H : Z) (space : list map) : Prop :=
  Forall (map_shape W H) space.

(** [space'] is [space] after [d] was added to square (x, y) of the map at
    index [time], or the same danger space when (x, y) is off the grid. *)
Definition adds (W H : Z) (space space' : list map) (time x y : Z) (d : R)
    : Prop :=
  length space' = length space /\
  space_shape W H space' /\
  (forall t i j : Z, (0 <= t)%Z -> (0 <= i < W)%Z -> (0 <= j < H)%Z ->
     cell space' t i j =
     (fun v => if decide (t = time /\ i = x /\ j = y) then v + d else v)
       <$> cell space t i j) /\
  (forall t : Z, t <> time -> vec_at space' t = vec_at space t) /\
  (0 <= d -> Forall map_nonneg space -> Forall map_nonneg space').

(** (i, j) is one of the 8 squares around (x, y). *)
Definition neighbour (x y i j : Z) : Prop :=
  (Z.abs (i - x) <= 1 /\ Z.abs (j - y) <= 1 /\ ~ (i = x /\ j = y))%Z.

(** What [fill_danger_space] keeps true of the danger space: its length and
    the shape of its maps, no negative danger, and the maps of the past
    seconds as they were set up. *)
Definition good_space (W H : Z) (set_up : map) (space : list map) : Prop :=
  length space = Z.to_nat (look_ahead + look_behind + 1) /\
  space_shape W H space /\
  Forall map_nonneg space /\
  (forall t : Z, (0 <= t < look_behind)%Z -> vec_at space t = Some set_up).

(** The planes that [fill_danger_space] marks are on the grid. *)
Definition on_grid (W H : Z) (plane_id : Z) (p : Plane) : Prop :=
  getId p <> to_int plane_id ->
  (0 <= wrap32 (getX (getLocation p)) < W)%Z /\
  (0 <= wrap32 (getY (getLocation p)) < H)%Z.

(** The danger space during the second loop nest of
    [calculate_distance_costs]: the squares that [P] holds of are blended,
    the others still hold the distance. *)
Definition blended (W H : Z) (old : list map) (dist : map) (adj : R)
    (P : Z -> Z -> Z -> Prop) (space : list map) : Prop :=
  length space = Z.to_nat (look_ahead + look_behind + 1) /\
  space_shape W H space /\
  forall t i j : Z,
    (0 <= t < look_ahead + look_behind + 1)%Z ->
    (0 <= i < W)%Z -> (0 <= j < H)%Z ->
    exists c dv : R,
      cell old t i j = Some c /\
      map_get_danger_at dist i j = Some dv /\
      (P t i j -> (t < look_ahead)%Z -> c > EPSILON ->
       cell space t i j = Some (adj * c + dv)) /\
      (~ P t i j \/ ~ (t < look_ahead)%Z \/ ~ c > EPSILON ->
       cell space t i j = Some dv).

(** * The rest of the code *)

(** ** map_fixed.h: the planes of a square *)

(** [#define PLANE_DANGER 0.98] *)
Definition PLANE_DANGER : R := 98 / 100.

(** [map::get_planes_at( x_pos, y_pos )] *)
Definition get_planes_at (m : map) (x_pos y_pos : Z) : option (list Z) :=
  planes <$> square_at m x_pos y_pos.

(** [map::add_plane_at( x_pos, y_pos, id )]: two assignments through
    [the_map[ x_pos ][ y_pos ]]. *)
Definition add_plane_at (m : map) (x_pos y_pos id : Z) : option map :=
  m ← update_square m x_pos y_pos
         (fun sq => mkSquare (planes sq ++ [id]) (danger sq));
  update_square m x_pos y_pos (fun sq => mkSquare (planes sq) PLANE_DANGER).

(** ** map_tools.h: bearings and distances *)

Module map_tools.

(** [enum bearing_t { N, NE, E, SE, S, SW, W, NW };] *)
Inductive bearing_t : Set := N | NE | E | SE | S | SW | W | NW.

(** [fmod] of math.h: the remainder of [x / y] with the quotient truncated. *)
Definition fmod (x y : R) : R := x - IZR (truncate (x / y)) * y.

(** [atan2] of math.h. *)
Definition atan2 (y x : R) : R :=
  if decide (x > 0) then atan (y / x)
  else if decide (x < 0) then
    if decide (y >= 0) then atan (y / x) + PI else atan (y / x) - PI
  else if decide (y > 0) then PI / 2
  else if decide (y < 0) then - (PI / 2)
  else 0.

(** [map_tools::name_bearing( the_bearing )]; the [assert] under
    [#ifdef DEBUG] is not compiled.  [danger_grid::name_bearing] of
    danger_grid.h has the same text. *)
Definition name_bearing (the_bearing : R) : bearing_t :=
  let the_bearing := fmod the_bearing 360 in
  if decide (the_bearing > - (225 / 10) /\ the_bearing <= 225 / 10) then N
  else if decide (the_bearing > 225 / 10 /\ the_bearing <= 675 / 10) then NE
  else if decide (the_bearing > 675 / 10 /\ the_bearing <= 1125 / 10) then E
  else if decide (the_bearing > 1125 / 10 /\ the_bearing <= 1575 / 10) then SE
  else if decide (the_bearing > 1575 / 10 /\ the_bearing <= 2025 / 10) then S
  else if decide (the_bearing > 2025 / 10 /\ the_bearing <= 2475 / 10) then SW
  else if decide (the_bearing > 2475 / 10 /\ the_bearing <= 2925 / 10) then W
  else if decide (the_bearing > 2925 / 10 /\ the_bearing <= 3375 / 10) then NW
  else if decide (the_bearing > - (675 / 10) /\ the_bearing <= - (225 / 10))
    then NW
  else if decide (the_bearing > - (1125 / 10) /\ the_bearing <= - (675 / 10))
    then W
  else if decide (the_bearing > - (1575 / 10) /\ the_bearing <= - (1125 / 10))
    then SW
  else if decide (the_bearing > - (2025 / 10) /\ the_bearing <= - (1575 / 10))
    then S
  else if decide (the_bearing > - (2475 / 10) /\ the_bearing <= - (2025 / 10))
    then SE
  else if decide (the_bearing > - (2925 / 10) /\ the_bearing <= - (2475 / 10))
    then E
  else if decide (the_bearing > - (3375 / 10) /\ the_bearing <= - (2925 / 10))
    then NW
  else N.

(** [map_tools::bearing_to_string( the_bearing )] *)
Definition bearing_to_string (the_bearing : bearing_t) : string :=
  match the_bearing with
  | N => "N"
  | NE => "NE"
  | E => "E"
  | SE => "SE"
  | S => "S"
  | SW => "SW"
  | W => "W"
  | _ => "NW"
  end.

(** [map_tools::reverse_bearing( start_bearing )] *)
Definition reverse_bearing (start_bearing : bearing_t) : bearing_t :=
  match start_bearing with
  | N => S
  | NE => SW
  | E => W
  | SE => NW
  | S => N
  | SW => NE
  | W => E
  | NW => SE
  end.





(** [map_tools::calculate_euclidean_bearing( x_1, y_1, x_2, y_2 )] *)
Definition calculate_euclidean_bearing (x_1 y_1 x_2 y_2 : Z) : R :=
  let d_y := (y_2 - y_1)%Z in
  let d_x := (x_2 - x_1)%Z in
  atan2 (IZR d_y) (IZR d_x) * RADtoDEGREES + 90.

(** The value of an operation on [int]s: an overflow is undefined. *)
Definition int_value (z : Z) : option Z :=
  if decide (- 2 ^ 31 <= z < 2 ^ 31)%Z then Some z else None.

(** [map_tools::get_euclidean_dist_between( x_1, y_1, x_2, y_2 )]: the
    differences, their squares and the sum are computed on [int]s, and the
    sum is converted for [sqrt]. *)
Definition get_euclidean_dist_between (x_1 y_1 x_2 y_2 : Z) : option R :=
  d_x ← int_value (x_2 - x_1);
  d_y ← int_value (y_2 - y_1);
  x_square ← int_value (d_x * d_x);
  y_square ← int_value (d_y * d_y);
  sum ← int_value (x_square + y_square);
  Some (sqrt (IZR sum)).

End map_tools.

(** ** danger_grid.h: the other accessors *)

(** [danger_grid::add_danger_at( x_pos, y_pos, seconds, danger )] *)
Definition add_danger_at (dg : danger_grid) (x_pos y_pos : Z) (seconds : Z)
    (d : R) : option danger_grid :=
  space ← on_slice (danger_space dg) (wrap32 (seconds + look_behind))
    (fun m => map_add_danger_at m x_pos y_pos d);
  Some (mkGrid (plane_danger dg) (danger_ratings dg) (aircraft dg) space
               (map_res dg) (dist_map dg) (distance_costs_initialized dg)).

(** [danger_grid::operator()( x, y, time )] *)
Definition call_operator (dg : danger_grid) (x y : Z) (time : Z) : option R :=
  get_danger_at dg x y time.

(** [danger_grid::get_time_in_secs()] *)
Definition get_time_in_secs (dg : danger_grid) : Z := look_ahead.

(** [danger_grid::get_dist_cost_at( x_pos, y_pos )]: when the costs are not
    initialised, control reaches the end of the function and no value is
    returned ([None]); the [assert] is under [#ifdef DEBUG]. *)
Definition get_dist_cost_at (dg : danger_grid) (x_pos y_pos : Z) : option R :=
  if distance_costs_initialized dg then
    dist ← dist_map dg; map_get_danger_at dist x_pos y_pos
  else None.

(** ** danger_grid.h, the earlier version *)

Module earlier.

(** [static const double field_weight = 0.5;] *)
Definition field_weight : R := 5 / 10.

(** [danger_grid::name_bearing( the_bearing )]: only the positive bands. *)
Definition name_bearing (the_bearing : R) : map_tools.bearing_t :=
  let the_bearing := map_tools.fmod the_bearing 360 in
  if decide (the_bearing > - (225 / 10) /\ the_bearing <= 225 / 10)
    then map_tools.N
  else if decide (the_bearing > 225 / 10 /\ the_bearing <= 675 / 10)
    then map_tools.NE
  else if decide (the_bearing > 675 / 10 /\ the_bearing <= 1125 / 10)
    then map_tools.E
  else if decide (the_bearing > 1125 / 10 /\ the_bearing <= 1575 / 10)
    then map_tools.SE
  else if decide (the_bearing > 1575 / 10 /\ the_bearing <= 2025 / 10)
    then map_tools.S
  else if decide (the_bearing > 2025 / 10 /\ the_bearing <= 2475 / 10)
    then map_tools.SW
  else if decide (the_bearing > 2475 / 10 /\ the_bearing <= 2925 / 10)
    then map_tools.W
  else if decide (the_bearing > 2925 / 10 /\ the_bearing <= 3375 / 10)
    then map_tools.NW
  else map_tools.N.

(** The [switch( bearing )] of [fill_danger_space]: the five squares ahead
    of and beside (x, y) receive [d]. *)
Definition danger_field (bearing : map_tools.bearing_t) (d : R) (x y : Z)
    (time : Z) (space : list map) : option (list map) :=
  let add i j space :=
    on_slice space time (fun m => safely_add_danger_at m i j d) in
  match bearing with
  | map_tools.N =>
    space ← add (usub x 1) y space;
    space ← add (usub x 1) (usub y 1) space;
    space ← add x (usub y 1) space;
    space ← add (uadd x 1) (usub y 1) space;
    add (uadd x 1) y space
  | map_tools.NE =>
    space ← add (usub x 1) (usub y 1) space;
    space ← add x (usub y 1) space;
    space ← add (uadd x 1) (usub y 1) space;
    space ← add (uadd x 1) y space;
    add (uadd x 1) (uadd y 1) space
  | map_tools.E =>
    space ← add x (usub y 1) space;
    space ← add (uadd x 1) (usub y 1) space;
    space ← add (uadd x 1) y space;
    space ← add (uadd x 1) (uadd y 1) space;
    add x (uadd y 1) space
  | map_tools.SE =>
    space ← add (uadd x 1) (usub y 1) space;
    space ← add (uadd x 1) y space;
    space ← add (uadd x 1) (uadd y 1) space;
    space ← add x (uadd y 1) space;
    add (usub x 1) (uadd y 1) space
  | map_tools.S =>
    space ← add (uadd x 1) y space;
    space ← add (uadd x 1) (uadd y 1) space;
    space ← add x (uadd y 1) space;
    space ← add (usub x 1) (uadd y 1) space;
    add (usub x 1) y space
  | map_tools.SW =>
    space ← add (uadd x 1) (uadd y 1) space;
    space ← add x (uadd y 1) space;
    space ← add (usub x 1) (uadd y 1) space;
    space ← add (usub x 1) y space;
    add (usub x 1) (usub y 1) space
  | map_tools.W =>
    space ← add x (uadd y 1) space;
    space ← add (usub x 1) (uadd y 1) space;
    space ← add (usub x 1) y space;
    space ← add (usub x 1) (usub y 1) space;
    add x (usub y 1) space
  | map_tools.NW =>
    space ← add (usub x 1) (uadd y 1) space;
    space ← add (usub x 1) y space;
    space ← add (usub x 1) (usub y 1) space;
    space ← add x (usub y 1) space;
    add (uadd x 1) (usub y 1) space
  end.

(** [danger_grid::calculate_distance_costs( goal_x, goal_y )], on the danger
    space; [look_ahead] is [DEFAULT_LOOK_AHEAD], 20. *)
Definition calculate_distance_costs (space : list map) (goal_x goal_y : Z)
    : option (list map) :=
  width ← get_width_in_squares space;
  height ← get_height_in_squares space;
  let danger_adjust := IZR (uadd width height / 4) in
  for_each (fun space crnt_x =>
    for_each (fun space crnt_y =>
      for_each (fun space crnt_t =>
        m ← vec_at space crnt_t;
        crnt_danger ← map_get_danger_at m crnt_x crnt_y;
        let dist := goal_distance crnt_x crnt_y goal_x goal_y in
        on_slice space crnt_t (fun m =>
          map_set_danger_at m crnt_x crnt_y
            (danger_adjust * crnt_danger + dist)))
        (seqZ 0 look_ahead) space)
      (seqZ 0 height) space)
    (seqZ 0 width) space.

End earlier.

(** ** generate_courses_500m_field.cpp *)

Module course.

(** The corner and the extent of the airfield. *)
Definition upper_left_longitude : R := - (115808173 / 1000000).
Definition upper_left_latitude : R := 37244956 / 1000000.
Definition width_in_degrees_longitude : R := 5653 / 1000000.
Definition height_in_degrees_latitude : R := - (4516 / 1000000).

(** A data line of the course file: "planeID latitude longitude altitude". *)
Record line : Type := Line {
  id : Z;
  latitude : R;
  longitude : R;
  altitude : R
}.

Section Generator.

(** [rand()], as the result of its n-th call after [srand( seed )]. *)
Variable rand : nat -> Z.

(** The three assignments and the output statement of the two loops of
    [main]; [calls] counts the calls of [rand()].  [rand() % n] with an
    [unsigned int] divisor converts [rand()] first, and a zero divisor has no
    defined behaviour ([None]). *)
Definition write_line (min_alt max_alt : Z) (id : Z) (calls : nat)
    : option (line * nat) :=
  let longitude :=
    upper_left_longitude +
    IZR (Z.rem (rand calls) 5652999) / 1000000000 in
  let calls := S calls in
  let latitude :=
    upper_left_latitude -
    IZR (Z.rem (rand calls) 4515999) / 1000000000 in
  let calls := S calls in
  if decide (usub max_alt min_alt = 0%Z) then None
  else
    let altitude :=
      IZR (uadd min_alt (wrap32 (rand calls) mod usub max_alt min_alt)) in
    let calls := S calls in
    Some (Line id latitude longitude altitude, calls).

(** The state of the loops: the lines written so far and the calls of
    [rand()]. *)
Definition write (min_alt max_alt : Z) (st : list line * nat) (id : Z)
    : option (list line * nat) :=
  '(l, calls) ← write_line min_alt max_alt id (snd st);
  Some (fst st ++ [l], calls).

(** [main()], after the dialogue: the data lines written to the course file
    for the settings read or defaulted.  The header of the file and the
    messages on [cout] are left out; the file is taken to open. *)
Definition courses (num_planes num_waypts min_alt max_alt : Z)
    : option (list line) :=
  (* "Write the starting positions" *)
  st ← for_each (write min_alt max_alt) (seqZ 0 num_planes) ([], O);
  (* "Write the rest of the paths" *)
  st ← for_each (fun st id =>
          for_each (fun st crnt_waypt => write min_alt max_alt st id)
            (seqZ 0 num_waypts) st)
        (seqZ 0 num_planes) st;
  Some (fst st).

(** The [assert]s on the settings that the dialogue reads. *)
Definition settings_accepted (num_planes num_waypts min_alt max_alt : Z)
    : Prop :=
  (num_planes < 10000 /\ num_planes >= 1 /\
   num_waypts >= 1 /\ num_waypts < 1000000000 /\
   min_alt < 1000000 /\ max_alt < 1000000)%Z.

End Generator.

End course.

(** ** Definitions for the rest of the code *)

(** The number of aircraft, other than the owner of the grid, whose position
    is square (i, j). *)
Definition occupants (plane_id : Z) (set_of_aircraft : list Plane) (i j : Z)
    : nat :=
  length (filter (fun p => getId p <> to_int plane_id /\
                           wrap32 (getX (getLocation p)) = i /\
                           wrap32 (getY (getLocation p)) = j)
            set_of_aircraft).

(** The distance that a step of the projector decreases by one: the larger
    of the two coordinate differences. *)
Definition chebyshev (x1 y1 x2 y2 : Z) : Z :=
  Z.max (Z.abs (x2 - x1)) (Z.abs (y2 - y1)).

(** The estimates of [calculate_future_pos]: groups of two estimates, every
    group but the last followed by the marker; the number counts the
    markers. *)
Inductive seconds_stream : list estimate -> Z -> Prop :=
  | stream_last (a b : estimate) :
      0 <= edanger a -> 0 <= edanger b -> seconds_stream [a; b] 0
  | stream_more (a b : estimate) (rest : list estimate) (n : Z) :
      0 <= edanger a -> 0 <= edanger b -> seconds_stream rest n ->
      seconds_stream (a :: b :: marker :: rest) (n + 1).

(** A data line of a course file lies in the airfield, at an altitude of the
    range, and belongs to one of the planes. *)
Definition inside_field (num_planes min_alt max_alt : Z) (l : course.line)
    : Prop :=
  (0 <= course.id l < num_planes)%Z /\
  course.upper_left_latitude + course.height_in_degrees_latitude
    < course.latitude l <= course.upper_left_latitude /\
  course.upper_left_longitude <= course.longitude l
    < course.upper_left_longitude + course.width_in_degrees_longitude /\
  exists z : Z, course.altitude l = IZR z /\ (min_alt <= z < max_alt)%Z.

(** The step on the grid that a named bearing stands for; north is the
    direction of falling y. *)
Definition heading (bearing : map_tools.bearing_t) : Z * Z :=
  match bearing with
  | map_tools.N => (0, -1)
  | map_tools.NE => (1, -1)
  | map_tools.E => (1, 0)
  | map_tools.SE => (1, 1)
  | map_tools.S => (0, 1)
  | map_tools.SW => (-1, 1)
  | map_tools.W => (-1, 0)
  | map_tools.NW => (-1, -1)
  end%Z.

(** Square (i, j) is not behind square (x, y) for an aircraft on a named
    bearing. *)
Definition not_behind (bearing : map_tools.bearing_t) (x y i j : Z) : Prop :=
  (0 <= (i - x) * (heading bearing).1 + (j - y) * (heading bearing).2)%Z.

#[global] Instance not_behind_decision (bearing : map_tools.bearing_t)
    (x y i j : Z) : Decision (not_behind bearing x y i j) :=
  Z_le_dec _ _.

(** The danger space of the earlier version during
    [calculate_distance_costs]: the squares that [P] holds of carry their
    cost, the others still their danger. *)
Definition costed (W H : Z) (old : list map) (adj : R) (goal_x goal_y : Z)
    (P : Z -> Z -> Z -> Prop) (space : list map) : Prop :=
  length space = length old /\
  space_shape W H space /\
  forall t i j : Z,
    (0 <= t < Z.of_nat (length old))%Z ->
    (0 <= i < W)%Z -> (0 <= j < H)%Z ->
    exists c : R,
      cell old t i j = Some c /\
      (P t i j -> (t < look_ahead)%Z ->
       cell space t i j =
         Some (adj * c + goal_distance i j goal_x goal_y)) /\
      (~ P t i j \/ ~ (t < look_ahead)%Z -> cell space t i j = Some c).

(** The numbers that a [double] holds: an integer of at most 53 bits times
    a power of two of its range.  Where the quotient of two [double]s is
    such a number, their division gives it without rounding. *)
Definition representable (r : R) : Prop :=
  exists m e : Z,
    (Z.abs m < 2 ^ 53)%Z /\ (-1074 <= e <= 971)%Z /\ r = IZR m * powerRZ 2 e.

(** No square of the grid has less danger in [space'] than in [space]. *)
Definition below (W H : Z) (space space' : list map) : Prop :=
  forall (t i j : Z) (v : R),
    (0 <= t)%Z -> (0 <= i < W)%Z -> (0 <= j < H)%Z ->
    cell space t i j = Some v ->
    exists v' : R, cell space' t i j = Some v' /\ v <= v'.

(** * Tactics *)

(** Case analysis on the sign under every [Rabs]. *)
Ltac abs_cases :=
  unfold Rabs in *;
  repeat match goal with
         | H : context [Rcase_abs ?r] |- _ => destruct (Rcase_abs r)
         | |- context [Rcase_abs ?r] => destruct (Rcase_abs r)
         end.

(** Chooses the disjunct of [toward] that an offset satisfies. *)
Ltac pick_offset :=
  first [ left; split; [lia | abs_cases; lra]
        | right; left; split; [lia | abs_cases; lra]
        | right; right; split; [lia | abs_cases; lra]
        | left; split; [lia | left; abs_cases; lra]
        | left; split; [lia | right; abs_cases; lra] ].

(** Settles every [decide] on integers that [lia] can settle. *)
Ltac decide_by_lia :=
  repeat match goal with
         | |- context [decide ?P] =>
             first [ rewrite (decide_True (P := P)) by lia
                   | rewrite (decide_False (P := P)) by lia ]
         end.

(** Settles every [decide] on concrete numbers. *)
Ltac eval_decide :=
  repeat match goal with
         | |- context [decide ?P] =>
             first [ rewrite (decide_True (P := P)) by (first [lra | lia | split; lra])
                   | rewrite (decide_False (P := P))
                       by (first [lra | lia | intros [? ?]; lra]) ]
         end.

(** * Proofs *)

(** ** The bearing of a step *)

Lemma PI_const_eq : PI_const = PI.
Proof. unfold PI_const. rewrite acos_0. lra. Qed.

Lemma RADtoDEGREES_pos : 0 < RADtoDEGREES.
Proof.
  unfold RADtoDEGREES. rewrite PI_const_eq.
  apply Rdiv_lt_0_compat; [lra | apply PI_RGT_0].
Qed.

Lemma asin_nonneg (v : R) : 0 <= v <= 1 -> 0 <= asin v.
Proof.
  intros Hv. destruct (Rle_lt_dec 0 (asin v)) as [H|H]; [exact H|].
  exfalso.
  pose proof (asin_bound v) as [Hlo _].
  pose proof PI_RGT_0 as Hpi.
  assert (sin (asin v) < 0) as Hs.
  { apply sin_lt_0_var; lra. }
  rewrite sin_asin in Hs by lra. lra.
Qed.

Lemma asin_degrees_range (v : R) :
  0 <= v <= 1 -> 0 <= RADtoDEGREES * asin v <= 90.
Proof.
  intros Hv.
  pose proof (asin_nonneg v Hv) as H0.
  pose proof (asin_bound v) as [_ Hhi].
  pose proof PI_RGT_0 as Hpi.
  unfold RADtoDEGREES. rewrite PI_const_eq.
  split.
  - apply Rmult_le_pos; [|exact H0].
    apply Rlt_le, Rdiv_lt_0_compat; lra.
  - replace 90 with (180 / PI * (PI / 2)) by (field; lra).
    apply Rmult_le_compat_l; [|exact Hhi].
    apply Rlt_le, Rdiv_lt_0_compat; lra.
Qed.

Lemma at_destination_iff (x1 y1 x2 y2 : Z) :
  Rabs (IZR x2 - IZR x1) = 0 /\ Rabs (IZR y2 - IZR y1) = 0 <->
  x1 = x2 /\ y1 = y2.
Proof.
  split.
  - intros [Hx Hy].
    split; apply eq_IZR.
    + destruct (Req_dec (IZR x2 - IZR x1) 0) as [E|E]; [lra|].
      apply Rabs_no_R0 in E. contradiction.
    + destruct (Req_dec (IZR y2 - IZR y1) 0) as [E|E]; [lra|].
      apply Rabs_no_R0 in E. contradiction.
  - intros [-> ->]. rewrite !Rminus_diag, Rabs_R0. auto.
Qed.

Lemma sine_of_bearing_range (xd yd : R) :
  0 <= xd -> 0 <= yd -> ~ (xd = 0 /\ yd = 0) ->
  0 < sqrt (xd * xd + yd * yd) /\ 0 <= xd / sqrt (xd * xd + yd * yd) <= 1.
Proof.
  intros Hx Hy Hne.
  assert (0 < xd * xd + yd * yd) as Hpos.
  { destruct (Req_dec xd 0) as [->|Hx0].
    - destruct (Req_dec yd 0) as [->|Hy0]; [tauto|]. nra.
    - nra. }
  assert (0 < sqrt (xd * xd + yd * yd)) as Hs by (apply sqrt_lt_R0; exact Hpos).
  split; [exact Hs|].
  assert (xd <= sqrt (xd * xd + yd * yd)) as Hle.
  { rewrite <- (sqrt_square xd) at 1 by exact Hx.
    apply sqrt_le_1_alt. nra. }
  split.
  - apply Rmult_le_pos; [exact Hx|]. apply Rlt_le, Rinv_0_lt_compat, Hs.
  - apply Rmult_le_reg_r with (sqrt (xd * xd + yd * yd)); [exact Hs|].
    unfold Rdiv. rewrite Rmult_assoc, Rinv_l by lra. lra.
Qed.

(** The bearing of a step, up to the two reflections of the source. *)
Lemma angle_to_spec (x1 y1 x2 y2 : Z) :
  ~ (x1 = x2 /\ y1 = y2) ->
  exists a : R,
    0 <= a <= 90 /\ (x1 = x2 -> a = 0) /\ (y1 = y2 -> a = 90) /\
    angle_to x1 y1 x2 y2 =
      (if decide (x2 - x1 < 0)%Z then -1 else 1) *
      (if decide (y2 < y1)%Z then a else 180 - a).
Proof.
  intros Hne.
  set (xd := Rabs (IZR x2 - IZR x1)).
  set (yd := Rabs (IZR y2 - IZR y1)).
  assert (~ (xd = 0 /\ yd = 0)) as Hne'.
  { intros H. apply Hne. apply at_destination_iff. exact H. }
  destruct (sine_of_bearing_range xd yd (Rabs_pos _) (Rabs_pos _) Hne')
    as [Hs Hv].
  exists (RADtoDEGREES * asin (xd / sqrt (xd * xd + yd * yd))).
  split; [apply asin_degrees_range; exact Hv|].
  split; [|split].
  - intros ->. subst xd. rewrite Rminus_diag, Rabs_R0.
    unfold Rdiv. rewrite Rmult_0_l, asin_0. lra.
  - intros ->. subst yd. rewrite Rminus_diag, Rabs_R0.
    replace (xd * xd + 0 * 0) with (xd * xd) by lra.
    rewrite sqrt_square by apply Rabs_pos.
    assert (xd <> 0) as Hx0.
    { intros E. apply Hne'. split; [exact E|].
      rewrite Rminus_diag, Rabs_R0. reflexivity. }
    unfold Rdiv. rewrite Rinv_r by exact Hx0. rewrite asin_1.
    unfold RADtoDEGREES. rewrite PI_const_eq.
    pose proof PI_RGT_0. field. lra.
  - unfold angle_to. fold xd yd.
    repeat case_decide; lra.
Qed.

(** ** The sixteen sectors *)

Lemma closest_other_sector (angle first second : R) :
  -180 <= angle <= 180 ->
  let '(n0, n1) := neighoboringAngles angle first second in
  let '(closestAngle, otherAngle) := closest_other angle n0 n1 in
  sector angle closestAngle otherAngle.
Proof.
  intros Hr. unfold neighoboringAngles.
  repeat case_decide; try lra; unfold closest_other;
    case_decide; unfold Rabs in *;
    repeat match goal with
         | H : context [Rcase_abs ?r] |- _ => destruct (Rcase_abs r)
         end; try lra;
    constructor; lra.
Qed.

Lemma ratio_bounds_pos (c a : R) :
  0 < c -> c <= a -> a <= 2 * c -> 1 / 2 <= c / a <= 1.
Proof.
  intros Hc Hca Ha.
  assert (0 < a) as Hpos by lra.
  split.
  - apply Rmult_le_reg_r with a; [exact Hpos|].
    replace (c / a * a) with c by (field; lra). lra.
  - apply Rmult_le_reg_r with a; [exact Hpos|].
    replace (c / a * a) with c by (field; lra). lra.
Qed.

Lemma ratio_bounds_neg (c a : R) :
  c < 0 -> a <= c -> 2 * c <= a -> 1 / 2 <= c / a <= 1.
Proof.
  intros Hc Hca Ha.
  replace (c / a) with ((- c) / (- a)).
  - apply ratio_bounds_pos; lra.
  - field. lra.
Qed.

Lemma displacement_sector (angle closestAngle otherAngle : R) :
  sector angle closestAngle otherAngle ->
  1 / 2 <= displacement angle closestAngle otherAngle <= 1.
Proof.
  intros Hs. unfold displacement.
  destruct Hs; repeat case_decide;
    try (exfalso; unfold Rabs in *;
         repeat match goal with
           | H : context [Rcase_abs ?r] |- _ => destruct (Rcase_abs r)
           end; lra);
    try lra;
    try (apply ratio_bounds_pos; unfold Rabs in *;
         repeat match goal with
           | H : context [Rcase_abs ?r] |- _ => destruct (Rcase_abs r)
           end; lra);
    try (apply ratio_bounds_neg; unfold Rabs in *;
         repeat match goal with
           | H : context [Rcase_abs ?r] |- _ => destruct (Rcase_abs r)
           end; lra).
Qed.

Lemma placeDanger_shape (angle : R) (e : list estimate) (closest other : R)
    (x y : Z) (d : R) :
  exists p q : Z * Z,
    placeDanger angle e closest other x y d =
      e ++ [Estimate (fst p) (snd p) (clamp d);
            Estimate (fst q) (snd q) (clamp (1 - d))].
Proof.
  unfold placeDanger.
  repeat case_decide;
    (eexists (_, _), (_, _); reflexivity).
Qed.

Lemma placeDanger_sector (angle : R) (e : list estimate) (closest other : R)
    (x y : Z) (d : R) :
  sector angle closest other ->
  exists (x' y' : Z) (q : Z * Z),
    placeDanger angle e closest other x y d =
      e ++ [Estimate x' y' (clamp d);
            Estimate (fst q) (snd q) (clamp (1 - d))] /\
    toward angle (x' - x) (y' - y).
Proof.
  intros Hs. unfold placeDanger.
  destruct Hs; repeat case_decide;
    repeat match goal with H : _ /\ _ |- _ => destruct H end;
    try lra;
    try (exfalso; match goal with H : ~ (_ /\ _) |- _ => apply H; split; lra end);
    (eexists _, _, (_, _); split; [reflexivity|]);
    unfold toward; (split; pick_offset).
Qed.

Lemma toward_closer (x1 y1 x2 y2 dx dy : Z) :
  ~ (x1 = x2 /\ y1 = y2) ->
  toward (angle_to x1 y1 x2 y2) dx dy ->
  (Z.abs (x2 - (x1 + dx)) + Z.abs (y2 - (y1 + dy)) <
   Z.abs (x2 - x1) + Z.abs (y2 - y1))%Z.
Proof.
  intros Hne Ht.
  destruct (angle_to_spec x1 y1 x2 y2 Hne) as (a & Ha & Hx & Hy & Heq).
  rewrite Heq in Ht. clear Heq. unfold toward in Ht.
  destruct Ht as [Hdy Hdx].
  destruct (decide (x1 = x2)) as [Ex|Ex]; [specialize (Hx Ex)|clear Hx];
  destruct (decide (y1 = y2)) as [Ey|Ey];
    [tauto|clear Hy|specialize (Hy Ey)|clear Hy];
  repeat case_decide;
  destruct Hdy as [[-> Hdy]|[[-> Hdy]|[-> Hdy]]];
  destruct Hdx as [[-> [Hdx|Hdx]]|[[-> Hdx]|[-> Hdx]]];
  first [lia | exfalso; abs_cases; lra].
Qed.

(** ** The recursion of the projector *)

Lemma placeDanger_app (angle : R) (e : list estimate) (closest other : R)
    (x y : Z) (d : R) :
  placeDanger angle e closest other x y d =
  e ++ placeDanger angle [] closest other x y d.
Proof. unfold placeDanger. repeat case_decide; reflexivity. Qed.

Lemma angle_to_range (x1 y1 x2 y2 : Z) :
  ~ (x1 = x2 /\ y1 = y2) -> -180 <= angle_to x1 y1 x2 y2 <= 180.
Proof.
  intros Hne.
  destruct (angle_to_spec x1 y1 x2 y2 Hne) as (a & Ha & _ & _ & ->).
  repeat case_decide; lra.
Qed.

Lemma clamp_half (d : R) : 1 / 2 <= d -> clamp d = 4 / 10.
Proof. intros H. unfold clamp, dangerCeiling. case_decide; lra. Qed.

Lemma clamp_range (d : R) : 0 <= d -> 0 <= clamp d <= 4 / 10.
Proof. intros H. unfold clamp, dangerCeiling. case_decide; lra. Qed.

Lemma step_pair_spec (x1 y1 x2 y2 : Z) :
  ~ (x1 = x2 /\ y1 = y2) ->
  exists (a b : estimate) (d : R),
    step_pair x1 y1 x2 y2 = [a; b] /\
    1 / 2 <= d <= 1 /\
    edanger a = clamp d /\ edanger b = clamp (1 - d) /\
    (manhattan (ex a) (ey a) x2 y2 < manhattan x1 y1 x2 y2)%Z.
Proof.
  intros Hne. unfold step_pair.
  pose proof (closest_other_sector (angle_to x1 y1 x2 y2) 0 0
                (angle_to_range _ _ _ _ Hne)) as Hs.
  destruct (neighoboringAngles _ 0 0) as [n0 n1].
  destruct (closest_other _ n0 n1) as [c o].
  pose proof (displacement_sector _ _ _ Hs) as Hd.
  destruct (placeDanger_sector _ [] _ _ x1 y1
              (displacement (angle_to x1 y1 x2 y2) c o) Hs)
    as (x' & y' & q & Heq & Ht).
  rewrite Heq. simpl.
  eexists _, _, _. split; [reflexivity|].
  split; [exact Hd|]. simpl. split; [reflexivity|]. split; [reflexivity|].
  pose proof (toward_closer x1 y1 x2 y2 _ _ Hne Ht) as Hc.
  unfold manhattan.
  replace (x1 + (x' - x1))%Z with x' in Hc by lia.
  replace (y1 + (y' - y1))%Z with y' in Hc by lia.
  exact Hc.
Qed.

Lemma vec_at_app_r {A : Type} (l l' : list A) (k : Z) :
  (0 <= k)%Z -> vec_at (l ++ l') (Z.of_nat (length l) + k) = vec_at l' k.
Proof.
  intros Hk. unfold vec_at. repeat case_decide; try lia.
  rewrite lookup_app_r by lia. f_equal. lia.
Qed.

Lemma choose_branch_recursion (theFuture : list estimate) (a b : estimate) :
  choose_branch ((theFuture ++ [a; b]) ++ [marker])
    (Z.of_nat (length (theFuture ++ [a; b])) - 2 + 2)
    (Z.of_nat (length (theFuture ++ [a; b])) - 2) = Some a.
Proof.
  unfold choose_branch.
  replace (Z.of_nat (length (theFuture ++ [a; b])) - 2 + 2)%Z
    with (Z.of_nat (length (theFuture ++ [a; b])) + 0)%Z by lia.
  rewrite vec_at_app_r by lia.
  change (vec_at [marker] 0) with (Some marker). simpl.
  case_decide as Hm; [exfalso; simpl in Hm; lra|].
  rewrite length_app. simpl length.
  replace (Z.of_nat (length theFuture + 2) - 2)%Z
    with (Z.of_nat (length theFuture) + 0)%Z by lia.
  rewrite <- (assoc_L (++)).
  rewrite vec_at_app_r by lia.
  reflexivity.
Qed.

Lemma dangerRecurse_at_destination (fuel : nat) (e : estimate) (x2 y2 : Z)
    (theFuture : list estimate) (time : Z) :
  ex e = x2 -> ey e = y2 ->
  dangerRecurse (S fuel) e (x2, y2) theFuture time = Some (theFuture, time).
Proof.
  intros <- <-. simpl.
  case_decide as H; [reflexivity|].
  exfalso. apply H. apply at_destination_iff. auto.
Qed.

Lemma dangerRecurse_step (fuel : nat) (e : estimate) (x2 y2 : Z)
    (theFuture : list estimate) (time : Z) (a b : estimate) :
  ~ (ex e = x2 /\ ey e = y2) ->
  step_pair (ex e) (ey e) x2 y2 = [a; b] ->
  dangerRecurse (S fuel) e (x2, y2) theFuture time =
  dangerRecurse fuel a (x2, y2) (theFuture ++ [a; b; marker]) (time + 1).
Proof.
  intros Hne Hp. simpl.
  case_decide as H; [exfalso; apply Hne, at_destination_iff, H|].
  unfold step_pair in Hp.
  destruct (neighoboringAngles _ 0 0) as [n0 n1].
  destruct (closest_other _ n0 n1) as [c o].
  rewrite placeDanger_app, Hp.
  rewrite (choose_branch_recursion theFuture a b). simpl.
  rewrite <- (assoc_L (++)). reflexivity.
Qed.

Lemma seconds_of_cons (a b c : estimate) (rest : list estimate) :
  seconds_of (a :: b :: c :: rest) = (1 + seconds_of rest)%Z.
Proof.
  unfold seconds_of. simpl length.
  replace (Z.of_nat (S (S (S (length rest)))))
    with (1 * 3 + Z.of_nat (length rest))%Z by lia.
  rewrite Z.div_add_l by lia. reflexivity.
Qed.

Lemma dangerRecurse_runs (fuel : nat) :
  forall (e : estimate) (x2 y2 : Z) (theFuture : list estimate) (time : Z),
    (manhattan (ex e) (ey e) x2 y2 < Z.of_nat fuel)%Z ->
    exists steps : list estimate,
      recursion_steps x2 y2 e steps /\
      dangerRecurse fuel e (x2, y2) theFuture time =
        Some (theFuture ++ steps, (time + seconds_of steps)%Z).
Proof.
  induction fuel as [|fuel IH]; intros e x2 y2 theFuture time Hm.
  - unfold manhattan in Hm. lia.
  - destruct (decide (ex e = x2 /\ ey e = y2)) as [[Hx Hy]|Hne].
    + exists []. split; [constructor; assumption|].
      rewrite dangerRecurse_at_destination by assumption.
      rewrite app_nil_r. change (seconds_of []) with 0%Z.
      rewrite Z.add_0_r. reflexivity.
    + destruct (step_pair_spec _ _ _ _ Hne) as (a & b & d & Hp & _ & _ & _ & Hc).
      destruct (IH a x2 y2 (theFuture ++ [a; b; marker]) (time + 1)%Z)
        as (rest & Hrest & Hrun); [lia|].
      exists (a :: b :: marker :: rest).
      split; [econstructor; eassumption|].
      rewrite (dangerRecurse_step _ _ _ _ _ _ a b Hne Hp), Hrun.
      rewrite <- (assoc_L (++)). simpl.
      rewrite seconds_of_cons. f_equal. f_equal. lia.
Qed.

Lemma recursion_steps_ends (x2 y2 : Z) (e : estimate) (steps : list estimate) :
  recursion_steps x2 y2 e steps ->
  steps <> [] ->
  exists (before : list estimate) (last b : estimate),
    steps = before ++ [last; b; marker] /\ ex last = x2 /\ ey last = y2.
Proof.
  induction 1 as [|e a b rest Hne Hp Hrest IH]; intros Hnil; [congruence|].
  destruct rest as [|r rest'].
  - inversion Hrest; subst. exists [], a, b. auto.
  - destruct IH as (before & last & b' & -> & Hx & Hy); [congruence|].
    exists (a :: b :: marker :: before), last, b'. auto.
Qed.

(** ** The projector: mass split, termination and the choice of a branch *)

Lemma PI_upper_bound : PI <= 68 / 21.
Proof.
  pose proof (PI_2_3_7_ineq 0) as [_ H].
  simpl in H. unfold tg_alt, PI_2_3_7_tg, Ratan_seq in H. simpl in H.
  lra.
Qed.

Lemma asin_ge_arg (v : R) : 0 < v <= 1 -> v < asin v.
Proof.
  intros Hv.
  assert (0 <= asin v) as H0 by (apply asin_nonneg; lra).
  destruct (Req_dec (asin v) 0) as [E|E].
  - exfalso. pose proof (sin_asin v ltac:(lra)) as Hs.
    rewrite E, sin_0 in Hs. lra.
  - pose proof (sin_lt_x (asin v) ltac:(lra)) as Hs.
    rewrite sin_asin in Hs by lra. exact Hs.
Qed.

Lemma asin_le_PI6 (v : R) : 0 <= v <= 1 / 2 -> asin v <= PI / 6.
Proof.
  intros Hv.
  destruct (Rle_lt_dec (asin v) (PI / 6)) as [H|H]; [exact H|].
  exfalso.
  pose proof (asin_bound v) as [Hlo Hhi].
  pose proof PI_RGT_0 as Hpi.
  assert (sin (PI / 6) < sin (asin v)) as Hs.
  { apply sin_increasing_1; lra. }
  rewrite sin_PI6, sin_asin in Hs by lra. lra.
Qed.

(** C2.  Mass split: at every step between two different points the two
    estimates that [placeDanger] appends carry [danger] and [1 - danger],
    which sum to 1, before the ceiling; after the ceiling both risks lie
    in [0, 0.4]. *)
Theorem placeDanger_mass_split (x1 y1 x2 y2 : Z) (e : list estimate) :
  ~ (x1 = x2 /\ y1 = y2) ->
  let angle := angle_to x1 y1 x2 y2 in
  let neighbors := neighoboringAngles angle 0 0 in
  let closestAngle := fst (closest_other angle neighbors.1 neighbors.2) in
  let otherAngle := snd (closest_other angle neighbors.1 neighbors.2) in
  let danger := displacement angle closestAngle otherAngle in
  let remainingDanger := 1 - danger in
  exists a b : estimate,
    placeDanger angle e closestAngle otherAngle x1 y1 danger = e ++ [a; b] /\
    danger + remainingDanger = 1 /\
    edanger a = clamp danger /\ edanger b = clamp remainingDanger /\
    0 <= edanger a <= 4 / 10 /\ 0 <= edanger b <= 4 / 10.
Proof.
  intros Hne angle neighbors closestAngle otherAngle danger remainingDanger.
  pose proof (closest_other_sector angle 0 0 (angle_to_range _ _ _ _ Hne)) as Hs.
  fold neighbors in Hs.
  destruct neighbors as [n0 n1]. simpl in *.
  subst closestAngle otherAngle.
  destruct (closest_other angle n0 n1) as [c o]. simpl in *.
  pose proof (displacement_sector _ _ _ Hs) as Hd. fold danger in Hd.
  destruct (placeDanger_shape angle e c o x1 y1 danger) as (p & q & Heq).
  eexists _, _. split; [exact Heq|]. simpl.
  split; [unfold remainingDanger; lra|].
  split; [reflexivity|]. split; [reflexivity|].
  split; apply clamp_range; unfold remainingDanger; lra.
Qed.

Lemma placeDanger_mass_split_witness :
  ~ (5 = 5 /\ 5 = 1)%Z /\
  let angle := angle_to 5 5 5 1 in
  let neighbors := neighoboringAngles angle 0 0 in
  let closestAngle := fst (closest_other angle neighbors.1 neighbors.2) in
  let otherAngle := snd (closest_other angle neighbors.1 neighbors.2) in
  let danger := displacement angle closestAngle otherAngle in
  let remainingDanger := 1 - danger in
  exists a b : estimate,
    placeDanger angle [] closestAngle otherAngle 5 5 danger = [] ++ [a; b] /\
    danger + remainingDanger = 1 /\
    edanger a = clamp danger /\ edanger b = clamp remainingDanger /\
    0 <= edanger a <= 4 / 10 /\ 0 <= edanger b <= 4 / 10.
Proof.
  split; [lia|].
  apply (placeDanger_mass_split 5 5 5 1 []). lia.
Defined.

(** C3.  [dangerRecurse] terminates from every point, for every
    destination: with its budget, or more, it returns.  It returns without
    a step exactly at the destination, and otherwise the last point it
    recursed on is the destination. *)
Theorem dangerRecurse_terminates (e : estimate) (destination : Z * Z)
    (theFuture : list estimate) (time : Z) :
  exists steps : list estimate,
    (forall extra : nat,
       dangerRecurse (dangerRecurse_budget e destination + extra) e
         destination theFuture time =
       Some (theFuture ++ steps, (time + seconds_of steps)%Z)) /\
    (ex e = fst destination /\ ey e = snd destination <-> steps = []) /\
    (steps <> [] ->
     exists (before : list estimate) (last b : estimate),
       steps = before ++ [last; b; marker] /\
       ex last = fst destination /\ ey last = snd destination).
Proof.
  destruct destination as [x2 y2]. cbn [fst snd].
  destruct (dangerRecurse_runs (dangerRecurse_budget e (x2, y2)) e x2 y2
              theFuture time) as (steps & Hsteps & _).
  { unfold dangerRecurse_budget, manhattan. simpl. lia. }
  exists steps. split; [|split].
  - intros extra.
    destruct (dangerRecurse_runs (dangerRecurse_budget e (x2, y2) + extra)
                e x2 y2 theFuture time) as (steps' & Hsteps' & Hrun).
    { unfold dangerRecurse_budget, manhattan. simpl. lia. }
    rewrite Hrun.
    assert (steps' = steps) as ->; [|reflexivity].
    clear Hrun. revert steps' Hsteps'.
    induction Hsteps as [e Hx Hy|e a b rest Hne Hp Hrest IH];
      intros steps' Hsteps'.
    + inversion Hsteps'; subst; [reflexivity|tauto].
    + inversion Hsteps' as [|e' a' b' rest' Hne' Hp' Hrest']; subst; [tauto|].
      rewrite Hp in Hp'. inversion Hp'; subst.
      f_equal. f_equal. f_equal. apply IH. exact Hrest'.
  - split.
    + intros [Hx Hy]. inversion Hsteps; subst; [reflexivity|tauto].
    + intros ->. inversion Hsteps; subst. auto.
  - apply (recursion_steps_ends x2 y2 e steps Hsteps).
Qed.

Lemma calculate_future_pos_first_step (plane : Plane) (a b : estimate) :
  let x1 := getX (getLocation plane) in
  let y1 := getY (getLocation plane) in
  let x2 := getX (getDestination plane) in
  let y2 := getY (getDestination plane) in
  let neighbors := neighoboringAngles (angle_to x1 y1 x2 y2) 0 0 in
  ~ (x1 = x2 /\ y1 = y2) ->
  step_pair x1 y1 x2 y2 = [a; b] ->
  calculate_future_pos plane 0 =
    start ← choose_branch [a; b; marker] 1 0;
    '(theFuture, time) ←
      dangerRecurse (dangerRecurse_budget start (x2, y2)) start (x2, y2)
        [a; b; marker] 1;
    theFuture ←
      ahead_of_goal (getBearingToDest plane) neighbors.1 neighbors.2 x2 y2
        theFuture;
    Some (theFuture, time).
Proof.
  intros x1 y1 x2 y2 neighbors Hne Hp.
  unfold calculate_future_pos.
  destruct (decide (0 = 0)%Z) as [_|]; [|lia].
  fold x1 y1 x2 y2.
  case_decide as H; [exfalso; apply Hne, at_destination_iff, H|].
  unfold step_pair in Hp. subst neighbors.
  destruct (neighoboringAngles (angle_to x1 y1 x2 y2) 0 0) as [n0 n1].
  destruct (closest_other _ n0 n1) as [c o].
  rewrite Hp. reflexivity.
Qed.

Lemma choose_branch_first (a b : estimate) :
  choose_branch [a; b; marker] 1 0 =
  Some (if decide (edanger b > 3 / 10) then b else a).
Proof. unfold choose_branch. simpl. case_decide; reflexivity. Qed.

Lemma calculate_future_pos_leg_step (plane : Plane) (time : Z)
    (x1 y1 x2 y2 : Z) (a b : estimate) :
  (if decide (time = 0)%Z then (getLocation plane, getDestination plane)
   else (getDestination plane, getFinalDestination plane)) =
  (mkPosition x1 y1, mkPosition x2 y2) ->
  ~ (x1 = x2 /\ y1 = y2) ->
  step_pair x1 y1 x2 y2 = [a; b] ->
  calculate_future_pos plane time =
    let neighbors := neighoboringAngles (angle_to x1 y1 x2 y2) 0 0 in
    start ← choose_branch [a; b; marker] 1 0;
    '(theFuture, time) ←
      dangerRecurse (dangerRecurse_budget start (x2, y2)) start (x2, y2)
        [a; b; marker] (time + 1);
    theFuture ←
      ahead_of_goal (getBearingToDest plane) neighbors.1 neighbors.2 x2 y2
        theFuture;
    Some (theFuture, time).
Proof.
  intros Hleg Hne Hp.
  unfold calculate_future_pos. rewrite Hleg. clear Hleg. cbn [getX getY].
  case_decide as H; [exfalso; apply Hne, at_destination_iff, H|].
  unfold step_pair in Hp. cbv zeta.
  destruct (neighoboringAngles (angle_to x1 y1 x2 y2) 0 0) as [n0 n1].
  destruct (closest_other _ n0 n1) as [c o].
  rewrite Hp. reflexivity.
Qed.

(** C4, as amended.  A step of the projector places a pair of estimates
    [a], [b], with the risk of [b] no higher than that of [a], and then a
    marker.  [dangerRecurse] goes on from [a], the first of the pair, to
    the same destination.  The first step of a leg, in
    [calculate_future_pos], goes on from [b] when the risk of [b] exceeds
    0.3 and from [a] otherwise: on the leg from the location to the
    destination, which the call with [time = 0] projects, and on the leg
    from the destination to the final destination, which every other call
    projects. *)
Theorem projector_branch_choice (x1 y1 x2 y2 : Z) :
  ~ (x1 = x2 /\ y1 = y2) ->
  exists a b : estimate,
    step_pair x1 y1 x2 y2 = [a; b] /\
    edanger b <= edanger a /\
    (forall (fuel : nat) (e : estimate) (theFuture : list estimate) (time : Z),
       ex e = x1 -> ey e = y1 ->
       dangerRecurse (S fuel) e (x2, y2) theFuture time =
       dangerRecurse fuel a (x2, y2) (theFuture ++ [a; b; marker])
         (time + 1)) /\
    (forall (plane : Plane) (time : Z),
       (if decide (time = 0)%Z
        then (getLocation plane, getDestination plane)
        else (getDestination plane, getFinalDestination plane)) =
       (mkPosition x1 y1, mkPosition x2 y2) ->
       calculate_future_pos plane time =
         let start := if decide (edanger b > 3 / 10) then b else a in
         let neighbors := neighoboringAngles (angle_to x1 y1 x2 y2) 0 0 in
         '(theFuture, time) ←
           dangerRecurse (dangerRecurse_budget start (x2, y2)) start (x2, y2)
             [a; b; marker] (time + 1);
         theFuture ←
           ahead_of_goal (getBearingToDest plane) neighbors.1 neighbors.2
             x2 y2 theFuture;
         Some (theFuture, time)).
Proof.
  intros Hne.
  destruct (step_pair_spec x1 y1 x2 y2 Hne)
    as (a & b & d & Hp & Hd & Ha & Hb & _).
  exists a, b. split; [exact Hp|]. split; [|split].
  - rewrite Ha, Hb, (clamp_half d) by lra.
    pose proof (clamp_range (1 - d) ltac:(lra)). lra.
  - intros fuel e theFuture time Hx Hy. subst x1 y1.
    apply dangerRecurse_step; assumption.
  - intros plane time Hleg.
    rewrite (calculate_future_pos_leg_step plane time x1 y1 x2 y2 a b
               Hleg Hne Hp).
    cbv zeta. rewrite choose_branch_first. reflexivity.
Qed.

Lemma projector_branch_choice_witness :
  ~ (5 = 5 /\ 5 = 1)%Z /\
  exists a b : estimate,
    step_pair 5 5 5 1 = [a; b] /\
    edanger b <= edanger a /\
    (forall (fuel : nat) (e : estimate) (theFuture : list estimate) (time : Z),
       ex e = 5%Z -> ey e = 5%Z ->
       dangerRecurse (S fuel) e (5, 1)%Z theFuture time =
       dangerRecurse fuel a (5, 1)%Z (theFuture ++ [a; b; marker])
         (time + 1)) /\
    (forall (plane : Plane) (time : Z),
       (if decide (time = 0)%Z
        then (getLocation plane, getDestination plane)
        else (getDestination plane, getFinalDestination plane)) =
       (mkPosition 5 5, mkPosition 5 1) ->
       calculate_future_pos plane time =
         let start := if decide (edanger b > 3 / 10) then b else a in
         let neighbors := neighoboringAngles (angle_to 5 5 5 1) 0 0 in
         '(theFuture, time) ←
           dangerRecurse (dangerRecurse_budget start (5, 1)%Z) start (5, 1)%Z
             [a; b; marker] (time + 1);
         theFuture ←
           ahead_of_goal (getBearingToDest plane) neighbors.1 neighbors.2
             5 1 theFuture;
         Some (theFuture, time)).
Proof.
  split; [lia|]. apply (projector_branch_choice 5 5 5 1). lia.
Defined.

Lemma angle_to_north_north_east : 27 < angle_to 0 168 95 0 <= 30.
Proof.
  unfold angle_to.
  destruct (decide (0 < 168)%Z) as [_|]; [|lia].
  destruct (decide (95 - 0 < 0)%Z) as [|_]; [lia|].
  replace (IZR 95 - IZR 0) with 95 by lra.
  replace (IZR 0 - IZR 168) with (-168) by lra.
  rewrite (Rabs_pos_eq 95) by lra.
  rewrite (Rabs_left (-168)) by lra.
  replace (95 * 95 + - -168 * - -168) with (193 * 193) by lra.
  rewrite sqrt_square by lra.
  pose proof PI_RGT_0 as Hpi.
  pose proof PI_upper_bound as Hub.
  pose proof (asin_ge_arg (95 / 193) ltac:(lra)) as Hlo.
  pose proof (asin_le_PI6 (95 / 193) ltac:(lra)) as Hhi.
  unfold RADtoDEGREES. rewrite PI_const_eq.
  split.
  - apply Rlt_le_trans with (180 / PI * (95 / 193)).
    + apply Rmult_lt_reg_r with PI; [exact Hpi|].
      replace (180 / PI * (95 / 193) * PI) with (180 * (95 / 193))
        by (field; lra).
      lra.
    + apply Rmult_le_compat_l; [|lra].
      apply Rlt_le, Rdiv_lt_0_compat; lra.
  - replace 30 with (180 / PI * (PI / 6)) by (field; lra).
    apply Rmult_le_compat_l; [|exact Hhi].
    apply Rlt_le, Rdiv_lt_0_compat; lra.
Qed.

(** C4 as stated fails: from (0, 168) to (95, 0) the first step goes on
    from the second estimate, whose risk is the lower one. *)
Lemma first_step_follows_lower_risk :
  exists a b : estimate,
    step_pair 0 168 95 0 = [a; b] /\
    choose_branch ([a; b] ++ [marker]) 1 0 = Some b /\
    edanger b < edanger a.
Proof.
  pose proof angle_to_north_north_east as Ha.
  unfold step_pair.
  set (angle := angle_to 0 168 95 0) in *.
  exists (Estimate (0 + 1) (168 - 1) (4 / 10)),
         (Estimate 0 (168 - 1) (1 - angle / 45)).
  assert (neighoboringAngles angle 0 0 = (0, 45)) as ->.
  { unfold neighoboringAngles. repeat case_decide; try lra; reflexivity. }
  assert (closest_other angle 0 45 = (45, 0)) as ->.
  { unfold closest_other. case_decide as H; [reflexivity|].
    exfalso. apply H. abs_cases; lra. }
  assert (displacement angle 45 0 = angle / 45) as ->.
  { unfold displacement. repeat case_decide; try reflexivity; try lra.
    exfalso. abs_cases; lra. }
  split; [|split].
  - unfold placeDanger, clamp, dangerCeiling.
    repeat case_decide; try lra; try reflexivity;
      exfalso; intuition lra.
  - change (choose_branch [Estimate (0 + 1) (168 - 1) (4 / 10);
                            Estimate 0 (168 - 1) (1 - angle / 45);
                            marker] 1 0 =
            Some (Estimate 0 (168 - 1) (1 - angle / 45))).
    rewrite choose_branch_first. simpl.
    case_decide; [reflexivity|lra].
  - simpl. lra.
Qed.

(** ** Maps and danger spaces *)

Lemma vec_at_Some {A : Type} (v : list A) (i : Z) (a : A) :
  vec_at v i = Some a <-> (0 <= i)%Z /\ v !! Z.to_nat i = Some a.
Proof.
  unfold vec_at. case_decide.
  - split; [intros E; split; assumption|intros [_ E]; exact E].
  - split; [discriminate|intros [? _]; contradiction].
Qed.

Lemma vec_at_in_range {A : Type} (v : list A) (i : Z) :
  (0 <= i < Z.of_nat (length v))%Z -> is_Some (vec_at v i).
Proof.
  intros Hi. unfold vec_at. case_decide; [|lia].
  apply lookup_lt_is_Some_2. lia.
Qed.

Lemma vec_at_insert {A : Type} (v : list A) (i j : Z) (a : A) :
  (0 <= i < Z.of_nat (length v))%Z ->
  vec_at (<[Z.to_nat i := a]> v) j =
  if decide (j = i) then Some a else vec_at v j.
Proof.
  intros Hi. unfold vec_at. case_decide as Hj.
  - case_decide as E.
    + subst j. apply list_lookup_insert_eq. lia.
    + apply list_lookup_insert_ne. lia.
  - case_decide; [lia|reflexivity].
Qed.

Lemma square_at_in_range (W H : Z) (m : map) (x y : Z) :
  map_shape W H m -> (0 <= x < W)%Z -> (0 <= y < H)%Z ->
  is_Some (square_at m x y).
Proof.
  intros (_ & _ & Hl & Hc) Hx Hy. unfold square_at.
  destruct (vec_at_in_range (the_map m) x) as [column Hcol]; [lia|].
  rewrite Hcol. simpl.
  apply vec_at_in_range.
  apply vec_at_Some in Hcol as [_ Hcol].
  rewrite (Forall_lookup_1 _ _ _ _ Hc Hcol). lia.
Qed.

Lemma update_square_spec (W H : Z) (m : map) (x y : Z)
    (f : grid_square -> grid_square) :
  map_shape W H m -> (0 <= x < W)%Z -> (0 <= y < H)%Z ->
  exists m' : map,
    update_square m x y f = Some m' /\
    map_shape W H m' /\
    (forall i j : Z, (0 <= i)%Z -> (0 <= j)%Z ->
       square_at m' i j =
       if decide (i = x /\ j = y) then f <$> square_at m i j
       else square_at m i j) /\
    ((forall sq, 0 <= danger sq -> 0 <= danger (f sq)) ->
     map_nonneg m -> map_nonneg m').
Proof.
  intros Hm Hx Hy. unfold update_square.
  destruct (square_at_in_range W H m x y Hm Hx Hy) as [sq Hsq].
  rewrite Hsq. simpl. eexists. split; [reflexivity|].
  destruct Hm as (Hw & Hh & Hl & Hc).
  split; [|split].
  - repeat split; simpl; try assumption.
    + rewrite length_alter. exact Hl.
    + apply Forall_alter; [exact Hc|].
      intros column _ Hlen. rewrite length_alter. exact Hlen.
  - intros i j Hi Hj. unfold square_at, vec_at. simpl.
    destruct (decide (0 <= i)%Z) as [_|]; [|lia].
    destruct (decide (0 <= j)%Z) as [_|]; [|lia].
    case_decide as E.
    + destruct E as [-> ->].
      rewrite list_lookup_alter_eq.
      destruct (the_map m !! Z.to_nat x) as [column|]; simpl; [|reflexivity].
      destruct (decide (0 <= y)%Z) as [_|]; [|lia].
      apply list_lookup_alter_eq.
    + destruct (decide (i = x)) as [->|Hix].
      * rewrite list_lookup_alter_eq.
        destruct (the_map m !! Z.to_nat x) as [column|]; simpl; [|reflexivity].
        destruct (decide (0 <= j)%Z) as [_|]; [|lia].
        apply list_lookup_alter_ne. intros E'. apply E. split; [reflexivity|lia].
      * rewrite list_lookup_alter_ne by lia. reflexivity.
  - intros Hf Hn. unfold map_nonneg in *. simpl.
    apply Forall_alter; [exact Hn|].
    intros column _ Hcol. apply Forall_alter; [exact Hcol|].
    intros sq' _. apply Hf.
Qed.

Lemma map_add_danger_at_spec (W H : Z) (m : map) (x y : Z) (d : R) :
  map_shape W H m -> (0 <= x < W)%Z -> (0 <= y < H)%Z ->
  exists m' : map,
    map_add_danger_at m x y d = Some m' /\
    map_shape W H m' /\
    (forall i j : Z, (0 <= i)%Z -> (0 <= j)%Z ->
       map_get_danger_at m' i j =
       (fun v => if decide (i = x /\ j = y) then v + d else v)
         <$> map_get_danger_at m i j) /\
    (0 <= d -> map_nonneg m -> map_nonneg m').
Proof.
  intros Hm Hx Hy. unfold map_add_danger_at.
  destruct (update_square_spec W H m x y
              (fun sq => mkSquare (planes sq) (danger sq + d)) Hm Hx Hy)
    as (m' & Hup & Hshape & Hget & Hnn).
  exists m'. split; [exact Hup|]. split; [exact Hshape|]. split.
  - intros i j Hi Hj. unfold map_get_danger_at. rewrite Hget by assumption.
    case_decide; destruct (square_at m i j); reflexivity.
  - intros Hd. apply Hnn. intros sq Hsq. simpl. lra.
Qed.

Lemma safely_add_danger_at_spec (W H : Z) (m : map) (x y : Z) (d : R) :
  map_shape W H m ->
  exists m' : map,
    safely_add_danger_at m x y d = Some m' /\
    map_shape W H m' /\
    (forall i j : Z, (0 <= i < W)%Z -> (0 <= j < H)%Z ->
       map_get_danger_at m' i j =
       (fun v => if decide (i = x /\ j = y) then v + d else v)
         <$> map_get_danger_at m i j) /\
    (0 <= d -> map_nonneg m -> map_nonneg m').
Proof.
  intros Hm. unfold safely_add_danger_at.
  destruct Hm as (Hw & Hh & Hrest). rewrite Hw, Hh.
  assert (map_shape W H m) as Hm by (repeat split; tauto).
  case_decide as Hin.
  - destruct Hin as [Hx Hy].
    destruct (map_add_danger_at_spec W H m x y d Hm Hx Hy)
      as (m' & Hadd & Hshape & Hget & Hnn).
    exists m'. repeat split; try assumption; try apply Hshape.
    intros i j Hi Hj. apply Hget; lia.
  - exists m. split; [reflexivity|]. split; [exact Hm|]. split; [|auto].
    intros i j Hi Hj. case_decide as E.
    + exfalso. apply Hin. destruct E as [-> ->]. split; assumption.
    + destruct (map_get_danger_at m i j); reflexivity.
Qed.

Lemma on_slice_adds (W H : Z) (space : list map) (time x y : Z) (d : R)
    (f : map -> option map) :
  space_shape W H space ->
  (0 <= time < Z.of_nat (length space))%Z ->
  (forall m : map, map_shape W H m ->
     exists m' : map,
       f m = Some m' /\ map_shape W H m' /\
       (forall i j : Z, (0 <= i < W)%Z -> (0 <= j < H)%Z ->
          map_get_danger_at m' i j =
          (fun v => if decide (i = x /\ j = y) then v + d else v)
            <$> map_get_danger_at m i j) /\
       (0 <= d -> map_nonneg m -> map_nonneg m')) ->
  exists space' : list map,
    on_slice space time f = Some space' /\ adds W H space space' time x y d.
Proof.
  intros Hs Ht Hf. unfold on_slice.
  destruct (vec_at_in_range space time Ht) as [m Hm]. rewrite Hm. simpl.
  assert (map_shape W H m) as Hshape.
  { apply vec_at_Some in Hm as [_ Hm]. exact (Forall_lookup_1 _ _ _ _ Hs Hm). }
  destruct (Hf m Hshape) as (m' & Hfm & Hshape' & Hget & Hnn).
  rewrite Hfm. simpl. eexists. split; [reflexivity|].
  split; [apply length_insert|]. split; [|split; [|split]].
  - apply Forall_insert; assumption.
  - intros t i j Ht0 Hi Hj. unfold cell.
    rewrite vec_at_insert by exact Ht.
    case_decide as E.
    + subst t. rewrite Hm. simpl. rewrite Hget by assumption.
      destruct (map_get_danger_at m i j); simpl; [|reflexivity].
      repeat case_decide; try reflexivity; exfalso; tauto.
    + destruct (vec_at space t ≫= _); simpl; [|reflexivity].
      case_decide; [exfalso; tauto|reflexivity].
  - intros t Hne. rewrite vec_at_insert by exact Ht.
    case_decide; [contradiction|reflexivity].
  - intros Hd Hall. apply Forall_insert; [exact Hall|].
    apply Hnn; [exact Hd|].
    apply vec_at_Some in Hm as [_ Hm]. exact (Forall_lookup_1 _ _ _ _ Hall Hm).
Qed.

Lemma on_slice_safely_add (W H : Z) (space : list map) (time x y : Z) (d : R) :
  space_shape W H space ->
  (0 <= time < Z.of_nat (length space))%Z ->
  exists space' : list map,
    on_slice space time (fun m => safely_add_danger_at m x y d) = Some space' /\
    adds W H space space' time x y d.
Proof.
  intros Hs Ht. apply on_slice_adds; [assumption..|].
  intros m Hm. apply safely_add_danger_at_spec. exact Hm.
Qed.

Lemma on_slice_add (W H : Z) (space : list map) (time x y : Z) (d : R) :
  space_shape W H space ->
  (0 <= time < Z.of_nat (length space))%Z ->
  (0 <= x < W)%Z -> (0 <= y < H)%Z ->
  exists space' : list map,
    on_slice space time (fun m => map_add_danger_at m x y d) = Some space' /\
    adds W H space space' time x y d.
Proof.
  intros Hs Ht Hx Hy. apply on_slice_adds; [assumption..|].
  intros m Hm.
  destruct (map_add_danger_at_spec W H m x y d Hm Hx Hy)
    as (m' & Hadd & Hshape & Hget & Hnn).
  exists m'. repeat split; try assumption; try apply Hshape.
  intros i j Hi Hj. apply Hget; lia.
Qed.

(** ** The field around a square *)

Lemma usub_one (x : Z) :
  (0 <= x < 2 ^ 32)%Z ->
  (usub x 1 = x - 1 \/ x = 0 /\ usub x 1 = 2 ^ 32 - 1)%Z.
Proof.
  intros Hx. unfold usub, wrap32.
  destruct (decide (x = 0%Z)) as [->|Hne].
  - right. split; reflexivity.
  - left. apply Z.mod_small. lia.
Qed.

Lemma uadd_one (x : Z) :
  (0 <= x)%Z -> (x + 1 < 2 ^ 32)%Z -> uadd x 1 = (x + 1)%Z.
Proof. intros H0 H1. unfold uadd, wrap32. apply Z.mod_small. lia. Qed.

(** C5.  [set_danger_field] with danger [d] at square (x, y) of the map at
    index [time] adds [d * field_weight] to each of the 8 squares around
    (x, y) that are on the grid, in that map and in no other, whatever the
    bearing; the squares off the grid are dropped without a fault. *)
Theorem set_danger_field_all_round (W H : Z) (space : list map)
    (bearing d : R) (x y time : Z) :
  space_shape W H space ->
  (W < 2 ^ 32)%Z -> (H < 2 ^ 32)%Z ->
  (0 <= x < W)%Z -> (0 <= y < H)%Z ->
  (0 <= time < Z.of_nat (length space))%Z ->
  exists space' : list map,
    (forall bearing' : R,
       set_danger_field bearing' d x y time space = Some space') /\
    (forall t i j : Z,
       (0 <= t)%Z -> (0 <= i < W)%Z -> (0 <= j < H)%Z ->
       cell space' t i j =
       (fun v => if decide (t = time /\ neighbour x y i j)
                 then v + d * field_weight else v) <$> cell space t i j).
Proof.
  intros Hs HW HH Hx Hy Ht. unfold set_danger_field.
  pose proof (usub_one x ltac:(lia)) as Hxm.
  pose proof (usub_one y ltac:(lia)) as Hym.
  pose proof (uadd_one x ltac:(lia) ltac:(lia)) as Hxp.
  pose proof (uadd_one y ltac:(lia) ltac:(lia)) as Hyp.
  revert Hxm Hym Hxp Hyp.
  generalize (usub x 1) (usub y 1) (uadd x 1) (uadd y 1).
  intros xm ym xp yp Hxm Hym Hxp Hyp.
  destruct (on_slice_safely_add W H space time xm yp (d * field_weight) Hs Ht)
    as (s1 & -> & Hl1 & Hs1 & Hc1 & _); simpl.
  destruct (on_slice_safely_add W H s1 time xm y (d * field_weight) Hs1 ltac:(lia))
    as (s2 & -> & Hl2 & Hs2 & Hc2 & _); simpl.
  destruct (on_slice_safely_add W H s2 time xm ym (d * field_weight) Hs2 ltac:(lia))
    as (s3 & -> & Hl3 & Hs3 & Hc3 & _); simpl.
  destruct (on_slice_safely_add W H s3 time x ym (d * field_weight) Hs3 ltac:(lia))
    as (s4 & -> & Hl4 & Hs4 & Hc4 & _); simpl.
  destruct (on_slice_safely_add W H s4 time xp ym (d * field_weight) Hs4 ltac:(lia))
    as (s5 & -> & Hl5 & Hs5 & Hc5 & _); simpl.
  destruct (on_slice_safely_add W H s5 time xp y (d * field_weight) Hs5 ltac:(lia))
    as (s6 & -> & Hl6 & Hs6 & Hc6 & _); simpl.
  destruct (on_slice_safely_add W H s6 time xp yp (d * field_weight) Hs6 ltac:(lia))
    as (s7 & -> & Hl7 & Hs7 & Hc7 & _); simpl.
  destruct (on_slice_safely_add W H s7 time x yp (d * field_weight) Hs7 ltac:(lia))
    as (s8 & -> & Hl8 & Hs8 & Hc8 & _); simpl.
  exists s8; split; [reflexivity|].
  intros t i j Ht0 Hi Hj.
  rewrite Hc8, Hc7, Hc6, Hc5, Hc4, Hc3, Hc2, Hc1 by assumption.
  destruct (cell space t i j) as [v|]; simpl; [|reflexivity].
  f_equal. unfold neighbour.
  clear Hc1 Hc2 Hc3 Hc4 Hc5 Hc6 Hc7 Hc8 Hs1 Hs2 Hs3 Hs4 Hs5 Hs6 Hs7 Hs8 Hs.
  clear Hl1 Hl2 Hl3 Hl4 Hl5 Hl6 Hl7 Hl8 Ht.
  destruct (decide (t = time)) as [Et|Et].
  - destruct (decide (i = x - 1)%Z);
      [|destruct (decide (i = x)); [|destruct (decide (i = x + 1)%Z)]];
    (destruct (decide (j = y - 1)%Z);
      [|destruct (decide (j = y)); [|destruct (decide (j = y + 1)%Z)]]);
    decide_by_lia; lra.
  - decide_by_lia; lra.
Qed.

(** ** The estimates of [calculate_future_pos] *)

Lemma est_ok_marker : est_ok marker.
Proof. left. reflexivity. Qed.

Lemma placeDanger_ok (angle : R) (e : list estimate) (closest other : R)
    (x y : Z) (d : R) :
  0 <= d <= 1 -> Forall est_ok e ->
  Forall est_ok (placeDanger angle e closest other x y d).
Proof.
  intros Hd He.
  destruct (placeDanger_shape angle e closest other x y d) as (p & q & ->).
  apply Forall_app. split; [exact He|].
  constructor; [right; simpl; apply clamp_range; lra|].
  constructor; [right; simpl; apply clamp_range; lra|constructor].
Qed.

Lemma placeDanger_length (angle : R) (e : list estimate) (closest other : R)
    (x y : Z) (d : R) :
  exists a b : estimate,
    placeDanger angle e closest other x y d = e ++ [a; b].
Proof.
  destruct (placeDanger_shape angle e closest other x y d) as (p & q & ->).
  eexists _, _. reflexivity.
Qed.

Lemma recursion_steps_ok (x2 y2 : Z) (e : estimate) (steps : list estimate) :
  recursion_steps x2 y2 e steps -> Forall est_ok steps.
Proof.
  induction 1 as [|e a b rest Hne Hp Hrest IH]; [constructor|].
  destruct (step_pair_spec _ _ _ _ Hne) as (a' & b' & d & Hp' & Hd & Ha & Hb & _).
  rewrite Hp in Hp'. inversion Hp'; subst a' b'.
  constructor; [right; rewrite Ha; apply clamp_range; lra|].
  constructor; [right; rewrite Hb; apply clamp_range; lra|].
  constructor; [apply est_ok_marker|exact IH].
Qed.

Lemma seconds_of_nonneg (steps : list estimate) : (0 <= seconds_of steps)%Z.
Proof. unfold seconds_of. apply Z.div_pos; lia. Qed.

Lemma vec_at_third_last (e : list estimate) (a b c : estimate) :
  vec_at (e ++ [a; b; c]) (Z.of_nat (length (e ++ [a; b; c])) - 3) = Some a.
Proof.
  rewrite length_app. simpl length.
  replace (Z.of_nat (length e + 3) - 3)%Z with (Z.of_nat (length e) + 0)%Z
    by lia.
  rewrite vec_at_app_r by lia. reflexivity.
Qed.

Lemma ahead_of_goal_ok (angle n0 n1 : R) (x2 y2 : Z)
    (theFuture : list estimate) :
  Forall est_ok theFuture ->
  exists theFuture' : list estimate,
    ahead_of_goal angle n0 n1 x2 y2 theFuture = Some theFuture' /\
    Forall est_ok theFuture'.
Proof.
  intros Hok. unfold ahead_of_goal.
  destruct (neighoboringAngles angle n0 n1) as [m0 m1].
  destruct (closest_other angle m0 m1) as [c o].
  destruct (placeDanger_length angle theFuture c o x2 y2 1) as (a & b & E1).
  pose proof (placeDanger_ok angle theFuture c o x2 y2 1 ltac:(lra) Hok) as H1.
  rewrite E1 in *.
  rewrite <- (assoc_L (++)). simpl app.
  rewrite vec_at_third_last. simpl.
  assert (Forall est_ok (theFuture ++ [a; b; marker])) as H2.
  { apply Forall_app in H1 as [? H1]. apply Forall_app. split; [assumption|].
    inversion H1 as [|? ? ? H1']; subst. inversion H1'; subst.
    constructor; [assumption|]. constructor; [assumption|].
    constructor; [apply est_ok_marker|constructor]. }
  destruct (placeDanger_length angle (theFuture ++ [a; b; marker]) c o
              (ex a) (ey a) 1) as (a' & b' & E2).
  pose proof (placeDanger_ok angle _ c o (ex a) (ey a) 1 ltac:(lra) H2) as H3.
  rewrite E2 in *.
  rewrite <- (assoc_L (++) _ [a'; b'] [marker]). simpl app.
  rewrite vec_at_third_last. simpl.
  eexists. split; [reflexivity|].
  apply placeDanger_ok; [lra|].
  apply Forall_app in H3 as [? H3]. apply Forall_app. split; [assumption|].
  inversion H3 as [|? ? ? H3']; subst. inversion H3'; subst.
  constructor; [assumption|]. constructor; [assumption|].
  constructor; [apply est_ok_marker|constructor].
Qed.

Lemma calculate_future_pos_ok (plane : Plane) (time : Z) :
  (0 <= time)%Z ->
  exists (theFuture : list estimate) (time' : Z),
    calculate_future_pos plane time = Some (theFuture, time') /\
    Forall est_ok theFuture /\ (time <= time')%Z.
Proof.
  intros Ht. unfold calculate_future_pos.
  destruct (if decide (time = 0)%Z
            then (getLocation plane, getDestination plane)
            else (getDestination plane, getFinalDestination plane))
    as [current destination].
  set (x1 := getX current). set (y1 := getY current).
  set (x2 := getX destination). set (y2 := getY destination).
  case_decide as Hat.
  { exists [], time. split; [reflexivity|]. split; [constructor|lia]. }
  assert (~ (x1 = x2 /\ y1 = y2)) as Hne.
  { intros E. apply Hat, at_destination_iff, E. }
  destruct (step_pair_spec x1 y1 x2 y2 Hne)
    as (a & b & d & Hp & Hd & Ha & Hb & _).
  unfold step_pair in Hp.
  destruct (neighoboringAngles (angle_to x1 y1 x2 y2) 0 0) as [n0 n1].
  destruct (closest_other _ n0 n1) as [c o].
  rewrite Hp. change ([a; b] ++ [marker]) with [a; b; marker].
  rewrite choose_branch_first. cbn [mbind option_bind].
  set (start := if decide (edanger b > 3 / 10) then b else a).
  destruct (dangerRecurse_runs (dangerRecurse_budget start (x2, y2)) start
              x2 y2 [a; b; marker] (time + 1))
    as (steps & Hsteps & Hrun).
  { unfold dangerRecurse_budget, manhattan. simpl. lia. }
  rewrite Hrun. cbn [mbind option_bind].
  assert (Forall est_ok ([a; b; marker] ++ steps)) as Hok.
  { apply Forall_app. split; [|exact (recursion_steps_ok _ _ _ _ Hsteps)].
    constructor; [right; rewrite Ha; apply clamp_range; lra|].
    constructor; [right; rewrite Hb; apply clamp_range; lra|].
    constructor; [apply est_ok_marker|constructor]. }
  destruct (ahead_of_goal_ok (getBearingToDest plane) n0 n1 x2 y2 _ Hok)
    as (theFuture' & Hahead & Hok').
  rewrite Hahead. cbn [mbind option_bind].
  eexists _, _. split; [reflexivity|]. split; [exact Hok'|].
  pose proof (seconds_of_nonneg steps). lia.
Qed.

(** ** Filling the danger space *)

(** C6.  For a plane that is at its destination [calculate_future_pos]
    returns no estimate, without a step, and [fill_plane] only marks the
    square of the plane in the map of second 0. *)
Theorem at_destination_contributes_nothing (plane : Plane) :
  getX (getLocation plane) = getX (getDestination plane) ->
  getY (getLocation plane) = getY (getDestination plane) ->
  calculate_future_pos plane 0 = Some ([], 0%Z) /\
  forall (plane_id : Z) (plane_danger : R) (ratings : list R)
         (space : list map),
    fill_plane plane_id plane_danger ratings space plane =
    if decide (getId plane <> to_int plane_id) then
      on_slice space (uadd 0 look_behind)
        (fun m => map_add_danger_at m
                    (wrap32 (getX (getLocation plane)))
                    (wrap32 (getY (getLocation plane))) plane_danger)
    else Some space.
Proof.
  intros Hx Hy.
  assert (calculate_future_pos plane 0 = Some ([], 0%Z)) as Hcfp.
  { unfold calculate_future_pos.
    destruct (decide (0 = 0)%Z) as [_|]; [|lia].
    case_decide as H; [reflexivity|].
    exfalso. apply H. apply at_destination_iff. auto. }
  split; [exact Hcfp|].
  intros plane_id plane_danger ratings space. unfold fill_plane.
  case_decide; [|reflexivity].
  destruct (on_slice space _ _) as [space'|]; [|reflexivity].
  cbn [mbind option_bind]. rewrite Hcfp. cbn [mbind option_bind].
  rewrite Hcfp. reflexivity.
Qed.

Lemma at_destination_contributes_nothing_witness :
  let plane :=
    mkPlane 1 (mkPosition 3 4) (mkPosition 3 4) (mkPosition 8 8) 0 0 in
  getX (getLocation plane) = getX (getDestination plane) /\
  getY (getLocation plane) = getY (getDestination plane) /\
  calculate_future_pos plane 0 = Some ([], 0%Z) /\
  forall (plane_id : Z) (plane_danger : R) (ratings : list R)
         (space : list map),
    fill_plane plane_id plane_danger ratings space plane =
    if decide (getId plane <> to_int plane_id) then
      on_slice space (uadd 0 look_behind)
        (fun m => map_add_danger_at m
                    (wrap32 (getX (getLocation plane)))
                    (wrap32 (getY (getLocation plane))) plane_danger)
    else Some space.
Proof.
  intros plane. split; [reflexivity|]. split; [reflexivity|].
  apply (at_destination_contributes_nothing plane); reflexivity.
Defined.

Lemma for_each_inv {A S : Type} (body : S -> A -> option S)
    (P : S -> Prop) (Q : A -> Prop) (l : list A) (s : S) :
  (forall s a, P s -> Q a -> exists s', body s a = Some s' /\ P s') ->
  P s -> Forall Q l ->
  exists s', for_each body l s = Some s' /\ P s'.
Proof.
  intros Hbody Hs Hl. revert s Hs.
  induction Hl as [|a l Ha Hl IH]; intros s Hs; simpl.
  - exists s. auto.
  - destruct (Hbody s a Hs Ha) as (s' & -> & Hs'). simpl. apply IH, Hs'.
Qed.

Lemma adds_good (W H : Z) (set_up : map) (space space' : list map)
    (time x y : Z) (d : R) :
  adds W H space space' time x y d ->
  0 <= d -> (look_behind <= time)%Z ->
  good_space W H set_up space -> good_space W H set_up space'.
Proof.
  intros (Hl & Hs & _ & Hother & Hnn) Hd Ht (Gl & Gs & Gn & Gp).
  split; [congruence|]. split; [exact Hs|]. split; [auto|].
  intros t Ht'. rewrite Hother by lia. apply Gp, Ht'.
Qed.

Lemma set_danger_field_good (W H : Z) (set_up : map) (space : list map)
    (bearing d : R) (x y time : Z) :
  good_space W H set_up space ->
  0 <= d ->
  (look_behind <= time < look_ahead + look_behind + 1)%Z ->
  exists space' : list map,
    set_danger_field bearing d x y time space = Some space' /\
    good_space W H set_up space'.
Proof.
  intros G Hd Ht. unfold set_danger_field.
  assert (0 <= d * field_weight) as Hd'.
  { unfold field_weight. apply Rmult_le_pos; lra. }
  assert (forall sp a b, good_space W H set_up sp ->
            exists sp', on_slice sp time
                          (fun m => safely_add_danger_at m a b (d * field_weight))
                        = Some sp' /\ good_space W H set_up sp') as Hstep.
  { intros sp a b Gsp.
    destruct (on_slice_safely_add W H sp time a b (d * field_weight))
      as (sp' & Hon & Hadds).
    - apply Gsp.
    - destruct Gsp as (Gl & _). rewrite Gl. unfold look_behind, look_ahead in *. lia.
    - exists sp'. split; [exact Hon|].
      eapply adds_good; eauto. lia. }
  destruct (Hstep space (usub x 1) (uadd y 1) G) as (s1 & -> & G1).
  cbn [mbind option_bind].
  destruct (Hstep s1 (usub x 1) y G1) as (s2 & -> & G2).
  cbn [mbind option_bind].
  destruct (Hstep s2 (usub x 1) (usub y 1) G2) as (s3 & -> & G3).
  cbn [mbind option_bind].
  destruct (Hstep s3 x (usub y 1) G3) as (s4 & -> & G4).
  cbn [mbind option_bind].
  destruct (Hstep s4 (uadd x 1) (usub y 1) G4) as (s5 & -> & G5).
  cbn [mbind option_bind].
  destruct (Hstep s5 (uadd x 1) y G5) as (s6 & -> & G6).
  cbn [mbind option_bind].
  destruct (Hstep s6 (uadd x 1) (uadd y 1) G6) as (s7 & -> & G7).
  cbn [mbind option_bind].
  apply Hstep, G7.
Qed.

Lemma wrap32_small (z : Z) : (0 <= z < 2 ^ 32)%Z -> wrap32 z = z.
Proof. intros Hz. unfold wrap32. apply Z.mod_small, Hz. Qed.

Lemma to_int_small (z : Z) : (z < 2 ^ 31)%Z -> to_int z = z.
Proof. intros Hz. unfold to_int. case_decide; [reflexivity|lia]. Qed.

Lemma to_int_le (z : Z) : (0 <= z < 2 ^ 32)%Z -> (to_int z <= z)%Z.
Proof. intros Hz. unfold to_int. case_decide; lia. Qed.

Lemma adjust_danger_scale (pd : R) (t : Z) :
  (- look_behind <= t <= look_ahead + 1)%Z ->
  adjust_danger (set_danger_scale pd) t = Some pd.
Proof.
  unfold look_behind, look_ahead. intros Ht.
  unfold adjust_danger, set_danger_scale, look_behind, look_ahead.
  rewrite wrap32_small by lia.
  unfold vec_at. case_decide; [|lia].
  apply lookup_replicate_2. lia.
Qed.

Lemma good_space_first (W H : Z) (set_up : map) (space : list map) :
  good_space W H set_up space ->
  exists first : map, vec_at space 0 = Some first /\ map_shape W H first.
Proof.
  intros (Gl & Gs & _).
  destruct (vec_at_in_range space 0) as [first Hf].
  { rewrite Gl. unfold look_ahead, look_behind. lia. }
  exists first. split; [exact Hf|].
  apply vec_at_Some in Hf as [_ Hf]. exact (Forall_lookup_1 _ _ _ _ Gs Hf).
Qed.

Lemma fill_estimate_marker_branch (ratings : list R) (bearing : R) (t : Z)
    (space : list map) (first : map) (e : estimate) :
  (t <= look_ahead)%Z ->
  vec_at space 0 = Some first ->
  ~ ((ex e >= 0)%Z /\ (ex e < to_int (squares_wide first))%Z /\
     (ey e >= 0)%Z /\ (ey e < to_int (squares_high first))%Z /\
     edanger e > - EPSILON) ->
  fill_estimate ratings bearing (t, space) e = Some ((t + 1)%Z, space).
Proof.
  intros Ht Hfirst Hout. unfold fill_estimate.
  rewrite (to_int_small look_ahead) by (unfold look_ahead; lia).
  case_decide; [|lia].
  rewrite Hfirst. cbn [mbind option_bind].
  case_decide; [contradiction|reflexivity].
Qed.

Lemma fill_estimate_writes (W H : Z) (set_up : map) (pd bearing : R)
    (t : Z) (space : list map) (e : estimate) :
  (W < 2 ^ 32)%Z -> (H < 2 ^ 32)%Z -> 0 <= pd ->
  (1 <= t <= look_ahead)%Z -> good_space W H set_up space ->
  (0 <= ex e < to_int W)%Z -> (0 <= ey e < to_int H)%Z ->
  0 <= edanger e ->
  exists space' : list map,
    fill_estimate (set_danger_scale pd) bearing (t, space) e =
      Some (t, space') /\
    good_space W H set_up space'.
Proof.
  intros HW HH Hpd Ht G Hx Hy Hd. unfold fill_estimate.
  rewrite (to_int_small look_ahead) by (unfold look_ahead; lia).
  case_decide as Hahead; [|lia].
  destruct (good_space_first W H set_up space G)
    as (first & -> & (Hw & Hh & _)).
  cbn [mbind option_bind]. rewrite Hw, Hh.
  case_decide as Hin;
    [|exfalso; apply Hin; repeat split; try lia; unfold EPSILON; lra].
  assert (0 <= W)%Z as HW0 by (unfold to_int in Hx; case_decide; lia).
  assert (0 <= H)%Z as HH0 by (unfold to_int in Hy; case_decide; lia).
  pose proof (to_int_le W ltac:(lia)) as HWle.
  pose proof (to_int_le H ltac:(lia)) as HHle.
  unfold look_ahead, look_behind in *.
  rewrite (wrap32_small (t + 2)) by lia.
  rewrite (wrap32_small (ex e)) by lia.
  rewrite (wrap32_small (ey e)) by lia.
  rewrite (to_int_small (t + 2)) by lia.
  rewrite adjust_danger_scale by (unfold look_ahead, look_behind; lia).
  cbn [mbind option_bind].
  assert (0 <= edanger e * pd) as Hd0 by (apply Rmult_le_pos; assumption).
  destruct (on_slice_add W H space (t + 2) (ex e) (ey e) (edanger e * pd))
    as (space1 & -> & Hadds).
  - apply G.
  - destruct G as (Gl & _). rewrite Gl. unfold look_ahead, look_behind. lia.
  - lia.
  - lia.
  - cbn [mbind option_bind].
    assert (good_space W H set_up space1) as G1.
    { eapply adds_good; eauto. unfold look_behind. lia. }
    destruct (set_danger_field_good W H set_up space1 bearing
                (edanger e * pd) (ex e) (ey e) (t + 2) G1 Hd0)
      as (space2 & -> & G2).
    { unfold look_ahead, look_behind. lia. }
    cbn [mbind option_bind]. exists space2. auto.
Qed.

Lemma fill_estimate_good (W H : Z) (set_up : map) (pd bearing : R)
    (t : Z) (space : list map) (e : estimate) :
  (W < 2 ^ 32)%Z -> (H < 2 ^ 32)%Z -> 0 <= pd ->
  (1 <= t)%Z -> good_space W H set_up space -> est_ok e ->
  exists (t' : Z) (space' : list map),
    fill_estimate (set_danger_scale pd) bearing (t, space) e =
      Some (t', space') /\
    (1 <= t')%Z /\ good_space W H set_up space'.
Proof.
  intros HW HH Hpd Ht G He.
  destruct (decide (t <= look_ahead)%Z) as [Hahead|Hahead].
  - destruct (good_space_first W H set_up space G)
      as (first & Hfirst & (Hw & Hh & _)).
    destruct (decide ((ex e >= 0)%Z /\
                      (ex e < to_int (squares_wide first))%Z /\
                      (ey e >= 0)%Z /\
                      (ey e < to_int (squares_high first))%Z /\
                      edanger e > - EPSILON)) as [Hin|Hout].
    + destruct Hin as (Hx0 & Hx1 & Hy0 & Hy1 & Hd).
      rewrite Hw in Hx1. rewrite Hh in Hy1.
      destruct (fill_estimate_writes W H set_up pd bearing t space e)
        as (space' & Hrun & G'); try assumption; try lia.
      { destruct He as [He|He]; [unfold EPSILON in Hd; lra|lra]. }
      exists t, space'. auto.
    + exists (t + 1)%Z, space.
      split; [|split; [lia|exact G]].
      apply (fill_estimate_marker_branch _ _ _ _ first); assumption.
  - exists t, space. split; [|auto].
    unfold fill_estimate.
    rewrite (to_int_small look_ahead) by (unfold look_ahead; lia).
    case_decide; [lia|reflexivity].
Qed.

Lemma fill_walk_good (W H : Z) (set_up : map) (pd bearing : R)
    (t : Z) (space : list map) (estimates : list estimate) :
  (W < 2 ^ 32)%Z -> (H < 2 ^ 32)%Z -> 0 <= pd ->
  (1 <= t)%Z -> good_space W H set_up space -> Forall est_ok estimates ->
  exists (t' : Z) (space' : list map),
    for_each (fill_estimate (set_danger_scale pd) bearing) estimates
      (t, space) = Some (t', space') /\
    (1 <= t')%Z /\ good_space W H set_up space'.
Proof.
  intros HW HH Hpd Ht G He.
  destruct (for_each_inv (fill_estimate (set_danger_scale pd) bearing)
              (fun st => (1 <= st.1)%Z /\ good_space W H set_up st.2)
              est_ok estimates (t, space)) as ([t' space'] & Hrun & Ht' & G').
  - intros [t0 space0] e [Ht0 G0] Hok. simpl in *.
    destruct (fill_estimate_good W H set_up pd bearing t0 space0 e)
      as (t1 & space1 & Hs & Ht1 & G1); try assumption.
    exists (t1, space1). auto.
  - simpl. auto.
  - exact He.
  - exists t', space'. auto.
Qed.

Lemma fill_plane_good (W H : Z) (set_up : map) (plane_id : Z) (pd : R)
    (space : list map) (current_plane : Plane) :
  (W < 2 ^ 32)%Z -> (H < 2 ^ 32)%Z -> 0 <= pd ->
  good_space W H set_up space ->
  (getId current_plane <> to_int plane_id ->
   (0 <= wrap32 (getX (getLocation current_plane)) < W)%Z /\
   (0 <= wrap32 (getY (getLocation current_plane)) < H)%Z) ->
  exists space' : list map,
    fill_plane plane_id pd (set_danger_scale pd) space current_plane =
      Some space' /\
    good_space W H set_up space'.
Proof.
  intros HW HH Hpd G Hloc. unfold fill_plane.
  case_decide as Hid; [|exists space; auto].
  destruct (Hloc Hid) as [Hx Hy].
  destruct (on_slice_add W H space (uadd 0 look_behind)
              (wrap32 (getX (getLocation current_plane)))
              (wrap32 (getY (getLocation current_plane))) pd)
    as (space1 & -> & Hadds); try assumption.
  { apply G. }
  { destruct G as (Gl & _). rewrite Gl. vm_compute. split; [discriminate|reflexivity]. }
  cbn [mbind option_bind].
  assert (good_space W H set_up space1) as G1.
  { eapply adds_good; eauto. vm_compute. discriminate. }
  destruct (calculate_future_pos_ok current_plane 0 ltac:(lia))
    as (est_to_avoid & est_break & -> & Hok1 & Hbreak).
  cbn [mbind option_bind].
  destruct (calculate_future_pos_ok current_plane est_break Hbreak)
    as (est_to_goal & dummy & -> & Hok2 & _).
  cbn [mbind option_bind].
  destruct (fill_walk_good W H set_up pd (getBearing current_plane) 1 space1
              est_to_avoid) as (t1 & space2 & -> & _ & G2);
    try assumption; [lia|].
  cbn [mbind option_bind].
  destruct (fill_walk_good W H set_up pd (getBearing current_plane)
              (est_break + 1) space2 est_to_goal) as (t2 & space3 & -> & _ & G3);
    try assumption; [lia|].
  cbn [mbind option_bind]. exists space3. auto.
Qed.

(** ** A danger grid that was just constructed *)

Lemma Int_part_nonneg (r : R) : 0 <= r -> (0 <= Int_part r)%Z.
Proof.
  intros Hr. destruct (base_Int_part r) as [_ H].
  assert (-1 < IZR (Int_part r)) as H' by lra.
  apply lt_IZR in H'. lia.
Qed.

Lemma truncate_nonneg (r : R) : 0 <= r -> (0 <= truncate r)%Z.
Proof.
  intros Hr. unfold truncate. case_decide; [|lra]. apply Int_part_nonneg, Hr.
Qed.

Lemma truncate_spec (r : R) (z : Z) :
  IZR z <= r < IZR z + 1 -> 0 <= r -> truncate r = z.
Proof.
  intros Hz Hr. unfold truncate. case_decide; [|lra].
  symmetry. apply Int_part_spec. lra.
Qed.

Lemma truncate_IZR (z : Z) : (0 <= z)%Z -> truncate (IZR z) = z.
Proof.
  intros Hz. apply truncate_spec; [lra|]. apply IZR_le in Hz. exact Hz.
Qed.

Lemma new_map_spec (width_of_field height_of_field map_resolution : R) :
  width_of_field > EPSILON -> height_of_field > EPSILON ->
  map_resolution > EPSILON ->
  (1 < truncate (width_of_field / map_resolution) < 2 ^ 32)%Z ->
  (truncate (height_of_field / map_resolution) < 2 ^ 32)%Z ->
  exists set_up : map,
    new_map width_of_field height_of_field map_resolution = Some set_up /\
    map_shape (truncate (width_of_field / map_resolution))
              (truncate (height_of_field / map_resolution)) set_up /\
    map_nonneg set_up /\
    resolution set_up = map_resolution /\
    (forall i j : Z,
       (0 <= i < truncate (width_of_field / map_resolution))%Z ->
       (0 <= j < truncate (height_of_field / map_resolution))%Z ->
       map_get_danger_at set_up i j = Some 0).
Proof.
  intros Hw Hh Hr HW HH. unfold new_map.
  case_decide as Hassert; [|exfalso; tauto].
  case_decide as Hfit; [|exfalso; apply Hfit; split; [lia|exact HH]].
  cbv zeta. cbn [the_map].
  assert (forall column : list grid_square,
            vec_at (replicate
                      (Z.to_nat (truncate (width_of_field / map_resolution)))
                      column) 1 = Some column) as ->.
  { intros column. unfold vec_at. case_decide; [|lia].
    apply lookup_replicate_2. lia. }
  cbn [mbind option_bind].
  eexists. split; [reflexivity|].
  split; [|split; [|split]].
  - repeat split; simpl.
    + apply length_replicate.
    + apply Forall_replicate. apply length_replicate.
  - unfold map_nonneg. simpl.
    apply Forall_replicate, Forall_replicate. simpl. lra.
  - reflexivity.
  - intros i j Hi Hj.
    unfold map_get_danger_at, square_at, vec_at. simpl.
    destruct (decide (0 <= i)%Z) as [_|]; [|lia].
    rewrite lookup_replicate_2 by lia. simpl.
    destruct (decide (0 <= j)%Z) as [_|]; [|lia].
    rewrite lookup_replicate_2 by lia. reflexivity.
Qed.

Lemma plane_danger_nonneg (a b : Z) : 0 <= sqrt (IZR (uadd a b)) * (25 / 10).
Proof. apply Rmult_le_pos; [apply sqrt_pos|lra]. Qed.

Lemma new_danger_grid_good (set_of_aircraft : list Plane)
    (width height resolution : R) (plane_id : Z) :
  width > EPSILON -> height > EPSILON -> resolution > EPSILON ->
  (1 < truncate (width / resolution) < 2 ^ 32)%Z ->
  (truncate (height / resolution) < 2 ^ 32)%Z ->
  Forall (on_grid (truncate (width / resolution))
                  (truncate (height / resolution)) plane_id)
    set_of_aircraft ->
  exists (dg : danger_grid) (set_up : map),
    new_danger_grid set_of_aircraft width height resolution plane_id =
      Some dg /\
    new_map width height resolution = Some set_up /\
    good_space (truncate (width / resolution))
               (truncate (height / resolution)) set_up (danger_space dg).
Proof.
  intros Hw Hh Hr HW HH Hplanes. unfold new_danger_grid.
  destruct (new_map_spec width height resolution Hw Hh Hr HW HH)
    as (set_up & -> & Hshape & Hnn & _ & Hzero).
  cbn [mbind option_bind]. unfold fill_danger_space.
  set (W := truncate (width / resolution)) in *.
  set (H := truncate (height / resolution)) in *.
  set (pd := sqrt _ * _).
  assert (0 <= pd) as Hpd by apply plane_danger_nonneg.
  destruct (for_each_inv (fill_plane plane_id pd (set_danger_scale pd))
              (good_space W H set_up) (on_grid W H plane_id)
              set_of_aircraft
              (replicate (Z.to_nat (look_ahead + look_behind + 1)) set_up))
    as (space & -> & G).
  - intros s p Gs Hp. apply fill_plane_good; try assumption. lia.
  - split; [apply length_replicate|].
    split; [apply Forall_replicate, Hshape|].
    split; [apply Forall_replicate, Hnn|].
    intros t Ht. unfold vec_at. case_decide; [|lia].
    apply lookup_replicate_2. unfold look_ahead, look_behind in *. lia.
  - exact Hplanes.
  - cbn [mbind option_bind]. eexists _, set_up.
    split; [reflexivity|]. split; [reflexivity|]. exact G.
Qed.

Lemma good_space_cell (W H : Z) (set_up : map) (space : list map)
    (t x y : Z) :
  good_space W H set_up space ->
  (0 <= t < look_ahead + look_behind + 1)%Z ->
  (0 <= x < W)%Z -> (0 <= y < H)%Z ->
  exists v : R, cell space t x y = Some v /\ 0 <= v.
Proof.
  intros (Gl & Gs & Gn & _) Ht Hx Hy. unfold cell.
  destruct (vec_at_in_range space t) as [m Hm]; [rewrite Gl; lia|].
  rewrite Hm. cbn [mbind option_bind].
  apply vec_at_Some in Hm as [_ Hm].
  pose proof (Forall_lookup_1 _ _ _ _ Gs Hm) as Hshape.
  pose proof (Forall_lookup_1 _ _ _ _ Gn Hm) as Hnn.
  destruct (square_at_in_range W H m x y Hshape Hx Hy) as [sq Hsq].
  unfold map_get_danger_at. rewrite Hsq. simpl.
  exists (danger sq). split; [reflexivity|].
  unfold square_at in Hsq.
  destruct (vec_at (the_map m) x) as [column|] eqn:Hcol; [|discriminate].
  simpl in Hsq.
  apply vec_at_Some in Hcol as [_ Hcol].
  apply vec_at_Some in Hsq as [_ Hsq].
  pose proof (Forall_lookup_1 _ _ _ _ Hnn Hcol) as Hc.
  exact (Forall_lookup_1 _ _ _ _ Hc Hsq).
Qed.

(** C7.  In a danger grid that was just constructed, before any blend of
    distance costs, [get_danger_at] returns a danger of 0 or more at every
    square of the grid and every second from [-look_behind] to
    [look_ahead]. *)
Theorem fresh_grid_nonnegative (set_of_aircraft : list Plane)
    (width height resolution : R) (plane_id x_pos y_pos seconds : Z) :
  width > EPSILON -> height > EPSILON -> resolution > EPSILON ->
  (1 < truncate (width / resolution) < 2 ^ 32)%Z ->
  (truncate (height / resolution) < 2 ^ 32)%Z ->
  Forall (on_grid (truncate (width / resolution))
                  (truncate (height / resolution)) plane_id)
    set_of_aircraft ->
  (0 <= x_pos < truncate (width / resolution))%Z ->
  (0 <= y_pos < truncate (height / resolution))%Z ->
  (- look_behind <= seconds <= look_ahead)%Z ->
  exists (dg : danger_grid) (v : R),
    new_danger_grid set_of_aircraft width height resolution plane_id =
      Some dg /\
    distance_costs_initialized dg = false /\
    get_danger_at dg x_pos y_pos seconds = Some v /\
    0 <= v.
Proof.
  intros Hw Hh Hr HW HH Hplanes Hx Hy Hs.
  destruct (new_danger_grid_good set_of_aircraft width height resolution
              plane_id Hw Hh Hr HW HH Hplanes) as (dg & set_up & Hdg & _ & G).
  destruct (good_space_cell _ _ _ _ (seconds + look_behind) x_pos y_pos G)
    as (v & Hv & Hpos); try assumption.
  { unfold look_ahead, look_behind in *. lia. }
  exists dg, v. split; [exact Hdg|]. split.
  - unfold new_danger_grid in Hdg.
    destruct (new_map width height resolution); [|discriminate].
    cbn [mbind option_bind] in Hdg.
    destruct (fill_danger_space _ _ _ _ _); [|discriminate].
    inversion Hdg. reflexivity.
  - split; [|exact Hpos].
    unfold get_danger_at. rewrite wrap32_small; [exact Hv|].
    unfold look_ahead, look_behind in *. lia.
Qed.

(** C10.  In a danger grid that was just constructed, before any blend of
    distance costs, the maps of the past seconds are all zero:
    [get_danger_at] returns 0 for every square of the grid and every second
    from [-look_behind] to -1. *)
Theorem fresh_grid_past_is_zero (set_of_aircraft : list Plane)
    (width height resolution : R) (plane_id x_pos y_pos seconds : Z) :
  width > EPSILON -> height > EPSILON -> resolution > EPSILON ->
  (1 < truncate (width / resolution) < 2 ^ 32)%Z ->
  (truncate (height / resolution) < 2 ^ 32)%Z ->
  Forall (on_grid (truncate (width / resolution))
                  (truncate (height / resolution)) plane_id)
    set_of_aircraft ->
  (0 <= x_pos < truncate (width / resolution))%Z ->
  (0 <= y_pos < truncate (height / resolution))%Z ->
  (- look_behind <= seconds <= -1)%Z ->
  exists dg : danger_grid,
    new_danger_grid set_of_aircraft width height resolution plane_id =
      Some dg /\
    distance_costs_initialized dg = false /\
    get_danger_at dg x_pos y_pos seconds = Some 0.
Proof.
  intros Hw Hh Hr HW HH Hplanes Hx Hy Hs.
  destruct (new_danger_grid_good set_of_aircraft width height resolution
              plane_id Hw Hh Hr HW HH Hplanes) as (dg & set_up & Hdg & Hmap & G).
  exists dg. split; [exact Hdg|]. split.
  - unfold new_danger_grid in Hdg.
    destruct (new_map width height resolution); [|discriminate].
    cbn [mbind option_bind] in Hdg.
    destruct (fill_danger_space _ _ _ _ _); [|discriminate].
    inversion Hdg. reflexivity.
  - unfold get_danger_at.
    rewrite wrap32_small by (unfold look_behind in *; lia).
    destruct G as (_ & _ & _ & Gpast).
    rewrite Gpast by (unfold look_behind in *; lia).
    cbn [mbind option_bind].
    destruct (new_map_spec width height resolution Hw Hh Hr HW HH)
      as (set_up' & Hmap' & _ & _ & _ & Hzero).
    rewrite Hmap in Hmap'. inversion Hmap'; subst set_up'.
    apply Hzero; assumption.
Qed.

(** ** The loops of [calculate_distance_costs] *)

Lemma for_each_seqZ {St : Type} (body : St -> Z -> option St)
    (I : Z -> St -> Prop) (n : nat) :
  forall (m : Z) (s : St),
    I m s ->
    (forall k s, (m <= k < m + Z.of_nat n)%Z -> I k s ->
       exists s', body s k = Some s' /\ I (k + 1)%Z s') ->
    exists s', for_each body (seqZ m (Z.of_nat n)) s = Some s' /\
               I (m + Z.of_nat n)%Z s'.
Proof.
  induction n as [|n IH]; intros m s Hs Hbody.
  - exists s. rewrite seqZ_nil by lia. split; [reflexivity|].
    replace (m + Z.of_nat 0)%Z with m by lia. exact Hs.
  - rewrite seqZ_cons by lia. simpl for_each.
    destruct (Hbody m s ltac:(lia) Hs) as (s1 & -> & Hs1).
    cbn [mbind option_bind].
    replace (Z.pred (Z.of_nat (S n))) with (Z.of_nat n) by lia.
    destruct (IH (Z.succ m) s1) as (s2 & Hrun & Hs2).
    + replace (Z.succ m) with (m + 1)%Z by lia. exact Hs1.
    + intros k s' Hk. apply Hbody. lia.
    + exists s2. split; [exact Hrun|].
      replace (m + Z.of_nat (S n))%Z with (Z.succ m + Z.of_nat n)%Z by lia.
      exact Hs2.
Qed.

Lemma map_set_danger_at_spec (W H : Z) (m : map) (x y : Z) (v : R) :
  map_shape W H m -> (0 <= x < W)%Z -> (0 <= y < H)%Z ->
  exists m' : map,
    map_set_danger_at m x y v = Some m' /\
    map_shape W H m' /\
    (forall i j : Z, (0 <= i < W)%Z -> (0 <= j < H)%Z ->
       map_get_danger_at m' i j =
       if decide (i = x /\ j = y) then Some v else map_get_danger_at m i j).
Proof.
  intros Hm Hx Hy. unfold map_set_danger_at.
  destruct (update_square_spec W H m x y
              (fun sq => mkSquare (planes sq) v) Hm Hx Hy)
    as (m' & Hup & Hshape & Hget & _).
  exists m'. split; [exact Hup|]. split; [exact Hshape|].
  intros i j Hi Hj. unfold map_get_danger_at.
  rewrite Hget by lia.
  case_decide as E; [|reflexivity].
  destruct E as [-> ->].
  destruct (square_at_in_range W H m x y Hm Hx Hy) as [sq ->]. reflexivity.
Qed.

Lemma on_slice_set (W H : Z) (space : list map) (time x y : Z) (v : R)
    (f : map -> option map) :
  space_shape W H space ->
  (0 <= time < Z.of_nat (length space))%Z ->
  (0 <= x < W)%Z -> (0 <= y < H)%Z ->
  (forall m, f m = map_set_danger_at m x y v) ->
  exists space' : list map,
    on_slice space time f = Some space' /\
    length space' = length space /\
    space_shape W H space' /\
    (forall t i j : Z, (0 <= t)%Z -> (0 <= i < W)%Z -> (0 <= j < H)%Z ->
       cell space' t i j =
       if decide (t = time /\ i = x /\ j = y) then Some v
       else cell space t i j) /\
    (forall t : Z, t <> time -> vec_at space' t = vec_at space t).
Proof.
  intros Hs Ht Hx Hy Hf. unfold on_slice.
  destruct (vec_at_in_range space time Ht) as [m Hm]. rewrite Hm.
  cbn [mbind option_bind].
  assert (map_shape W H m) as Hshape.
  { apply vec_at_Some in Hm as [_ Hm']. exact (Forall_lookup_1 _ _ _ _ Hs Hm'). }
  destruct (map_set_danger_at_spec W H m x y v Hshape Hx Hy)
    as (m' & Hset & Hshape' & Hget).
  rewrite Hf, Hset. cbn [mbind option_bind].
  eexists. split; [reflexivity|].
  split; [apply length_insert|]. split; [apply Forall_insert; assumption|].
  split.
  - intros t i j Ht0 Hi Hj. unfold cell.
    rewrite vec_at_insert by exact Ht.
    destruct (decide (t = time)) as [->|Hne].
    + cbn [mbind option_bind]. rewrite Hget by assumption. rewrite Hm.
      cbn [mbind option_bind].
      repeat case_decide; try reflexivity; exfalso; tauto.
    + case_decide; [exfalso; tauto|reflexivity].
  - intros t Hne. rewrite vec_at_insert by exact Ht.
    case_decide; [contradiction|reflexivity].
Qed.

(** The distance map after its squares before column [k] were written. *)
Lemma distance_map_loops (W H : Z) (dist : map) (goal_x goal_y : Z) :
  (0 <= W)%Z -> (0 <= H)%Z -> map_shape W H dist ->
  exists dist' : map,
    for_each (fun dist crnt_x =>
      for_each (fun dist crnt_y =>
        map_set_danger_at dist crnt_x crnt_y
          (goal_distance crnt_x crnt_y goal_x goal_y))
        (seqZ 0 H) dist)
      (seqZ 0 W) dist = Some dist' /\
    map_shape W H dist' /\
    (forall i j : Z, (0 <= i < W)%Z -> (0 <= j < H)%Z ->
       map_get_danger_at dist' i j = Some (goal_distance i j goal_x goal_y)).
Proof.
  intros HW HH Hshape.
  replace (seqZ 0 W) with (seqZ 0 (Z.of_nat (Z.to_nat W)))
    by (rewrite Z2Nat.id; auto).
  replace (seqZ 0 H) with (seqZ 0 (Z.of_nat (Z.to_nat H)))
    by (rewrite Z2Nat.id; auto).
  destruct (for_each_seqZ
    (fun dist crnt_x =>
      for_each (fun dist crnt_y =>
        map_set_danger_at dist crnt_x crnt_y
          (goal_distance crnt_x crnt_y goal_x goal_y))
        (seqZ 0 (Z.of_nat (Z.to_nat H))) dist)
    (fun k d => map_shape W H d /\
       forall i j : Z, (0 <= i < W)%Z -> (0 <= j < H)%Z -> (i < k)%Z ->
         map_get_danger_at d i j = Some (goal_distance i j goal_x goal_y))
    (Z.to_nat W) 0%Z dist) as (dist' & Hrun & Hs' & Hget).
  - split; [exact Hshape|]. intros; lia.
  - intros x d Hx [Hd Hdone].
    destruct (for_each_seqZ
      (fun dist crnt_y =>
        map_set_danger_at dist x crnt_y
          (goal_distance x crnt_y goal_x goal_y))
      (fun k d' => map_shape W H d' /\
         forall i j : Z, (0 <= i < W)%Z -> (0 <= j < H)%Z ->
           (i < x \/ i = x /\ j < k)%Z ->
           map_get_danger_at d' i j = Some (goal_distance i j goal_x goal_y))
      (Z.to_nat H) 0%Z d) as (d' & Hrun' & Hd' & Hget').
    + split; [exact Hd|]. intros i j Hi Hj Hlt. apply Hdone; lia.
    + intros y d0 Hy [Hd0 Hdone0].
      destruct (map_set_danger_at_spec W H d0 x y
                  (goal_distance x y goal_x goal_y) Hd0 ltac:(lia) ltac:(lia))
        as (d1 & -> & Hd1 & Hget1).
      exists d1. split; [reflexivity|]. split; [exact Hd1|].
      intros i j Hi Hj Hlt. rewrite Hget1 by assumption.
      case_decide as E; [destruct E as [-> ->]; reflexivity|].
      apply Hdone0; try assumption. lia.
    + exists d'. split; [exact Hrun'|]. split; [exact Hd'|].
      intros i j Hi Hj Hlt. apply Hget'; try assumption. lia.
  - exists dist'. split; [exact Hrun|]. split; [exact Hs'|].
    intros i j Hi Hj. apply Hget; try assumption. lia.
Qed.

Lemma blended_change (W H : Z) (old : list map) (dist : map) (adj : R)
    (P P' : Z -> Z -> Z -> Prop) (space : list map) :
  blended W H old dist adj P space ->
  (forall t i j : Z, (0 <= t < look_ahead)%Z -> (0 <= i < W)%Z ->
     (0 <= j < H)%Z -> P t i j <-> P' t i j) ->
  blended W H old dist adj P' space.
Proof.
  intros (Hl & Hs & Hc) Heq. split; [exact Hl|]. split; [exact Hs|].
  intros t i j Ht Hi Hj.
  destruct (Hc t i j Ht Hi Hj) as (c & dv & Hold & Hdist & Hyes & Hno).
  exists c, dv. split; [exact Hold|]. split; [exact Hdist|]. split.
  - intros HP Hlt Hgt. apply Hyes; try assumption. apply Heq; try assumption. lia.
  - intros Hn. apply Hno.
    destruct (decide (t < look_ahead)%Z) as [Hlt|Hlt];
      [|right; left; exact Hlt].
    destruct Hn as [Hn|[Hn|Hn]];
      [|right; left; exact Hn|right; right; exact Hn].
    left. intros HP. apply Hn. apply Heq; try assumption. lia.
Qed.

Lemma blend_square_step (W H : Z) (old : list map) (dist : map) (adj : R)
    (x y k : Z) (space : list map) :
  (0 <= x < W)%Z -> (0 <= y < H)%Z -> (0 <= k < look_ahead)%Z ->
  length old = Z.to_nat (look_ahead + look_behind + 1) ->
  blended W H old dist adj
    (fun t i j => i < x \/ i = x /\ j < y \/ i = x /\ j = y /\ t < k)%Z
    space ->
  exists space' : list map,
    blend_square old dist adj x y space k = Some space' /\
    blended W H old dist adj
      (fun t i j => i < x \/ i = x /\ j < y \/ i = x /\ j = y /\ t < k + 1)%Z
      space'.
Proof.
  intros Hx Hy Hk Hlold (Hl & Hs & Hc). unfold blend_square.
  assert (0 <= k < look_ahead + look_behind + 1)%Z as Hk'
    by (unfold look_ahead, look_behind in *; lia).
  destruct (Hc k x y Hk' Hx Hy) as (c & dv & Hold & Hdist & _ & Hno).
  pose proof Hold as Hold2. unfold cell in Hold2.
  destruct (vec_at old k) as [om|]; [|discriminate].
  cbn [mbind option_bind] in *. rewrite Hold2. cbn [mbind option_bind].
  case_decide as Hgt.
  - destruct (on_slice_set W H space k x y (adj * c + dv)
                (fun m => d ← map_get_danger_at dist x y;
                          map_set_danger_at m x y (adj * c + d)))
      as (space' & -> & Hl' & Hs' & Hcell & _); try assumption.
    { rewrite Hl. exact Hk'. }
    { intros m. rewrite Hdist. reflexivity. }
    exists space'. split; [reflexivity|].
    split; [congruence|]. split; [exact Hs'|].
    intros t i j Ht Hi Hj.
    destruct (Hc t i j Ht Hi Hj) as (c' & dv' & Hold' & Hdist' & Hyes' & Hno').
    exists c', dv'. split; [exact Hold'|]. split; [exact Hdist'|].
    rewrite Hcell by lia.
    case_decide as E.
    + destruct E as (-> & -> & ->).
      assert (c' = c) as -> by congruence.
      assert (dv' = dv) as -> by congruence.
      split; [reflexivity|]. intros [Hn|[Hn|Hn]]; exfalso; [|lia|exact (Hn Hgt)].
      apply Hn. lia.
    + split.
      * intros HP Hlt Hgt'. apply Hyes'; try assumption.
        clear - HP E. lia.
      * intros Hn. apply Hno'.
        destruct Hn as [Hn|[Hn|Hn]]; [|right; left; exact Hn|right; right; exact Hn].
        left. clear - Hn. lia.
  - exists space. split; [reflexivity|].
    split; [exact Hl|]. split; [exact Hs|].
    intros t i j Ht Hi Hj.
    destruct (Hc t i j Ht Hi Hj) as (c' & dv' & Hold' & Hdist' & Hyes' & Hno').
    exists c', dv'. split; [exact Hold'|]. split; [exact Hdist'|].
    destruct (decide (t = k /\ i = x /\ j = y)) as [(-> & -> & ->)|E].
    + assert (c' = c) as -> by congruence.
      split; [intros _ _ Hgt'; contradiction|].
      intros _. apply Hno'. right. right. exact Hgt.
    + split.
      * intros HP Hlt Hgt'. apply Hyes'; try assumption.
        clear - HP E. lia.
      * intros Hn. apply Hno'.
        destruct Hn as [Hn|[Hn|Hn]]; [|right; left; exact Hn|right; right; exact Hn].
        left. clear - Hn. lia.
Qed.

(** ** The map constructor and the west-bound plane *)

Lemma truncate_half (z : Z) :
  (0 <= z)%Z -> truncate ((2 * IZR z + 1) / 2 / 1) = z.
Proof.
  intros Hz. apply IZR_le in Hz.
  apply truncate_spec; lra.
Qed.

Lemma ceil_half (z : Z) : ceil ((2 * IZR z + 1) / 2 / 1) = (z + 1)%Z.
Proof.
  unfold ceil.
  assert (Int_part (- ((2 * IZR z + 1) / 2 / 1)) = (- (z + 1))%Z) as ->.
  { symmetry. apply Int_part_spec. rewrite opp_IZR, plus_IZR. lra. }
  lia.
Qed.

(** C8.  The constructor of the map rounds down: a field of 10.5 by 10.5
    with resolution 1 gets 10 by 10 squares, where [ceil] and
    [find_width_in_squares] give 11. *)
Theorem map_rounds_down :
  exists m : map,
    new_map (21 / 2) (21 / 2) 1 = Some m /\
    squares_wide m = 10%Z /\ squares_high m = 10%Z /\
    ceil (21 / 2 / 1) = 11%Z /\
    find_width_in_squares (21 / 2) (21 / 2) 1 = 11%Z /\
    find_height_in_squares (21 / 2) (21 / 2) 1 = 11%Z.
Proof.
  assert (truncate (21 / 2 / 1) = 10%Z) as Ht.
  { replace (21 / 2 / 1) with ((2 * IZR 10 + 1) / 2 / 1) by lra.
    apply truncate_half. lia. }
  assert (ceil (21 / 2 / 1) = 11%Z) as Hc.
  { replace (21 / 2 / 1) with ((2 * IZR 10 + 1) / 2 / 1) by lra.
    apply ceil_half. }
  assert (truncate (IZR 11 + 1 / 10) = 11%Z) as Hf.
  { apply truncate_spec; lra. }
  unfold new_map.
  destruct (decide (21 / 2 > EPSILON /\ 21 / 2 > EPSILON /\ 1 > EPSILON))
    as [_|Hn]; [|exfalso; apply Hn; unfold EPSILON; lra].
  rewrite Ht.
  destruct (decide (10 < 2 ^ 32 /\ 10 < 2 ^ 32)%Z) as [_|Hn]; [|exfalso; apply Hn; lia].
  eexists. split; [reflexivity|]. simpl.
  split; [reflexivity|]. split; [reflexivity|]. split; [exact Hc|].
  unfold find_width_in_squares, find_height_in_squares.
  rewrite Hc, Hf. split; reflexivity.
Qed.

(** The count of squares is at least 1 when the resolution is smaller than
    the dimension. *)
Lemma truncate_quotient_at_least_one (dimension map_resolution : R) :
  map_resolution > 0 -> map_resolution < dimension ->
  (1 <= truncate (dimension / map_resolution))%Z.
Proof.
  intros Hr Hd.
  assert (1 < dimension / map_resolution) as Hq.
  { apply Rmult_lt_reg_r with map_resolution; [lra|].
    replace (dimension / map_resolution * map_resolution) with dimension
      by (field; lra).
    lra. }
  unfold truncate. case_decide; [|lra].
  destruct (base_Int_part (dimension / map_resolution)) as [_ Hi].
  assert (0 < IZR (Int_part (dimension / map_resolution))) as Hi' by lra.
  apply lt_IZR in Hi'. lia.
Qed.

Lemma off_grid_estimate_takes_marker_branch :
  exists set_up : map,
    new_map 10 10 1 = Some set_up /\
    let space := replicate (Z.to_nat (look_ahead + look_behind + 1)) set_up in
    for_each (fill_estimate (set_danger_scale 1) 0)
      [Estimate (-1) 0 (4 / 10)] (1%Z, space) = Some (2%Z, space).
Proof.
  assert (truncate (10 / 1) = 10%Z) as Ht.
  { replace (10 / 1) with (IZR 10) by lra. apply truncate_IZR. lia. }
  destruct (new_map_spec 10 10 1) as (set_up & Hmap & Hshape & _);
    try (unfold EPSILON; lra); try (rewrite Ht; lia).
  exists set_up. split; [exact Hmap|]. intros space. cbn [for_each].
  rewrite (fill_estimate_marker_branch _ _ 1 space set_up).
  - reflexivity.
  - unfold look_ahead. lia.
  - reflexivity.
  - simpl. intros (H & _). lia.
Qed.

Lemma angle_to_west (x1 y1 x2 : Z) :
  (x2 < x1)%Z -> angle_to x1 y1 x2 y1 = -90.
Proof.
  intros Hx.
  destruct (angle_to_spec x1 y1 x2 y1) as (a & _ & _ & Ha & ->); [lia|].
  rewrite (Ha eq_refl).
  destruct (decide (x2 - x1 < 0)%Z); [|lia].
  destruct (decide (y1 < y1)%Z); [lia|]. lra.
Qed.

Lemma clamp_one : clamp 1 = 4 / 10.
Proof. apply clamp_half. lra. Qed.

Lemma clamp_zero : clamp (1 - 1) = 0.
Proof. unfold clamp, dangerCeiling. case_decide; lra. Qed.

Lemma step_pair_west (x1 y1 x2 : Z) :
  (x2 < x1)%Z ->
  step_pair x1 y1 x2 y1 =
  [Estimate (x1 - 1) y1 (4 / 10); Estimate (x1 - 1) (y1 + 1) 0].
Proof.
  intros Hx. unfold step_pair. rewrite angle_to_west by exact Hx.
  unfold neighoboringAngles. eval_decide.
  unfold closest_other.
  replace (-90 - -90) with 0 by lra. replace (-90 - -135) with 45 by lra.
  rewrite Rabs_R0, (Rabs_pos_eq 45) by lra. eval_decide.
  unfold displacement. eval_decide.
  replace (-90 / -90) with 1 by (field; lra).
  unfold placeDanger. rewrite clamp_one, clamp_zero. eval_decide.
  reflexivity.
Qed.

Lemma ahead_of_goal_west (n0 n1 : R) (x2 y2 : Z) (theFuture : list estimate) :
  ahead_of_goal (-90) n0 n1 x2 y2 theFuture =
  Some (theFuture ++
        [Estimate (x2 - 1) y2 (4 / 10); Estimate (x2 - 1) (y2 + 1) 0; marker;
         Estimate (x2 - 1 - 1) y2 (4 / 10);
         Estimate (x2 - 1 - 1) (y2 + 1) 0; marker;
         Estimate (x2 - 1 - 1 - 1) y2 (4 / 10);
         Estimate (x2 - 1 - 1 - 1) (y2 + 1) 0]).
Proof.
  unfold ahead_of_goal.
  unfold neighoboringAngles. eval_decide.
  unfold closest_other.
  replace (-90 - -90) with 0 by lra. replace (-90 - -135) with 45 by lra.
  rewrite Rabs_R0, (Rabs_pos_eq 45) by lra. eval_decide.
  assert (forall e x y, placeDanger (-90) e (-90) (-135) x y 1 =
            e ++ [Estimate (x - 1) y (4 / 10); Estimate (x - 1) (y + 1) 0])
    as Hp.
  { intros e x y. unfold placeDanger. rewrite clamp_one, clamp_zero.
    eval_decide. reflexivity. }
  assert (forall (e : list estimate) (a b : estimate),
            vec_at ((e ++ [a; b]) ++ [marker])
              (Z.of_nat (length ((e ++ [a; b]) ++ [marker])) - 3) = Some a)
    as Hl.
  { intros e a b. rewrite <- (assoc_L (++)). apply vec_at_third_last. }
  cbv zeta. rewrite Hp, Hl. cbn [mbind option_bind ex ey].
  rewrite Hp, Hl. cbn [mbind option_bind ex ey].
  rewrite Hp. rewrite <- !(assoc_L (++)). reflexivity.
Qed.

(** ** The blend of distance costs *)

Lemma blend_loops (W H : Z) (old : list map) (dist : map) (adj : R)
    (space : list map) :
  (0 <= W)%Z -> (0 <= H)%Z ->
  length old = Z.to_nat (look_ahead + look_behind + 1) ->
  blended W H old dist adj (fun _ _ _ => False) space ->
  exists space' : list map,
    for_each (fun space crnt_x =>
      for_each (fun space crnt_y =>
        for_each (blend_square old dist adj crnt_x crnt_y)
          (seqZ 0 look_ahead) space)
        (seqZ 0 H) space)
      (seqZ 0 W) space = Some space' /\
    blended W H old dist adj (fun _ _ _ => True) space'.
Proof.
  intros HW HH Hlold Hstart.
  replace (seqZ 0 W) with (seqZ 0 (Z.of_nat (Z.to_nat W)))
    by (rewrite Z2Nat.id; auto).
  replace (seqZ 0 H) with (seqZ 0 (Z.of_nat (Z.to_nat H)))
    by (rewrite Z2Nat.id; auto).
  change (seqZ 0 look_ahead) with (seqZ 0 (Z.of_nat 20)).
  destruct (for_each_seqZ
    (fun space crnt_x =>
      for_each (fun space crnt_y =>
        for_each (blend_square old dist adj crnt_x crnt_y)
          (seqZ 0 (Z.of_nat 20)) space)
        (seqZ 0 (Z.of_nat (Z.to_nat H))) space)
    (fun k sp => blended W H old dist adj (fun t i j => i < k)%Z sp)
    (Z.to_nat W) 0%Z space) as (space' & Hrun & Hend).
  - apply (blended_change _ _ _ _ _ _ _ _ Hstart). intros; lia.
  - intros x sp Hx Hsp.
    destruct (for_each_seqZ
      (fun space crnt_y =>
        for_each (blend_square old dist adj x crnt_y)
          (seqZ 0 (Z.of_nat 20)) space)
      (fun k sp' => blended W H old dist adj
                      (fun t i j => i < x \/ i = x /\ j < k)%Z sp')
      (Z.to_nat H) 0%Z sp) as (sp' & Hrun' & Hend').
    + apply (blended_change _ _ _ _ _ _ _ _ Hsp). intros; lia.
    + intros y sp0 Hy Hsp0.
      destruct (for_each_seqZ
        (blend_square old dist adj x y)
        (fun k sp1 => blended W H old dist adj
           (fun t i j => i < x \/ i = x /\ j < y \/ i = x /\ j = y /\ t < k)%Z
           sp1)
        20 0%Z sp0) as (sp1 & Hrun1 & Hend1).
      * apply (blended_change _ _ _ _ _ _ _ _ Hsp0). intros; lia.
      * intros k sp2 Hk Hsp2.
        apply blend_square_step; try assumption; try lia.
      * exists sp1. split; [exact Hrun1|].
        apply (blended_change _ _ _ _ _ _ _ _ Hend1).
        unfold look_ahead. intros; lia.
    + exists sp'. split; [exact Hrun'|].
      apply (blended_change _ _ _ _ _ _ _ _ Hend'). intros; lia.
  - exists space'. split; [exact Hrun|].
    apply (blended_change _ _ _ _ _ _ _ _ Hend). intros; lia.
Qed.

Lemma cell_in_range (W H : Z) (space : list map) (t x y : Z) :
  space_shape W H space ->
  (0 <= t < Z.of_nat (length space))%Z ->
  (0 <= x < W)%Z -> (0 <= y < H)%Z ->
  is_Some (cell space t x y).
Proof.
  intros Hs Ht Hx Hy. unfold cell.
  destruct (vec_at_in_range space t Ht) as [m Hm]. rewrite Hm.
  cbn [mbind option_bind].
  apply vec_at_Some in Hm as [_ Hm].
  pose proof (Forall_lookup_1 _ _ _ _ Hs Hm) as Hshape.
  destruct (square_at_in_range W H m x y Hshape Hx Hy) as [sq Hsq].
  unfold map_get_danger_at. rewrite Hsq. eexists. reflexivity.
Qed.

(** What [calculate_distance_costs] leaves in the danger space. *)
Lemma calculate_distance_costs_spec (W H : Z) (dg : danger_grid)
    (first : map) (goal_x goal_y : Z) (danger_adjust : R) :
  (1 < W < 2 ^ 32)%Z -> (1 <= H < 2 ^ 32)%Z ->
  length (danger_space dg) = Z.to_nat (look_ahead + look_behind + 1) ->
  space_shape W H (danger_space dg) ->
  vec_at (danger_space dg) 0 = Some first ->
  (1 <= get_resolution first)%Z ->
  exists dg' : danger_grid,
    calculate_distance_costs dg goal_x goal_y danger_adjust = Some dg' /\
    distance_costs_initialized dg' = true /\
    forall t i j : Z,
      (0 <= t < look_ahead + look_behind + 1)%Z ->
      (0 <= i < W)%Z -> (0 <= j < H)%Z ->
      exists c : R,
        cell (danger_space dg) t i j = Some c /\
        cell (danger_space dg') t i j =
          Some (if decide ((t < look_ahead)%Z /\ c > EPSILON)
                then danger_adjust * c + goal_distance i j goal_x goal_y
                else goal_distance i j goal_x goal_y).
Proof.
  intros HW HH Hl Hs Hfirst Hres. unfold calculate_distance_costs.
  assert (map_shape W H first) as Hshape.
  { apply vec_at_Some in Hfirst as [_ Hf]. exact (Forall_lookup_1 _ _ _ _ Hs Hf). }
  unfold get_width_in_squares, get_height_in_squares, get_res.
  rewrite Hfirst. cbn [fmap option_fmap option_map mbind option_bind].
  destruct Hshape as (Hw & Hh & _). rewrite Hw, Hh.
  set (res := IZR (get_resolution first)).
  assert (1 <= res) as Hres' by (apply IZR_le in Hres; exact Hres).
  assert (1 <= IZR W) as HW' by (apply (IZR_le 1); lia).
  assert (1 <= IZR H) as HH' by (apply (IZR_le 1); lia).
  assert (truncate (IZR W * res / res) = W) as HtW.
  { replace (IZR W * res / res) with (IZR W) by (field; lra).
    apply truncate_IZR. lia. }
  assert (truncate (IZR H * res / res) = H) as HtH.
  { replace (IZR H * res / res) with (IZR H) by (field; lra).
    apply truncate_IZR. lia. }
  destruct (new_map_spec (IZR W * res) (IZR H * res) res)
    as (dist0 & -> & Hshape0 & _); try (unfold EPSILON; nra);
    try (rewrite ?HtW, ?HtH; lia).
  rewrite HtW, HtH in Hshape0.
  cbn [mbind option_bind].
  destruct (distance_map_loops W H dist0 goal_x goal_y ltac:(lia) ltac:(lia)
              Hshape0) as (dist & -> & Hdshape & Hdget).
  cbn [mbind option_bind].
  set (space1 := replicate (Z.to_nat (look_ahead + look_behind + 1)) dist).
  assert (vec_at space1 0 = Some dist) as Hfirst1.
  { unfold vec_at. case_decide; [|lia]. apply lookup_replicate_2.
    unfold look_ahead, look_behind. lia. }
  rewrite Hfirst1. cbn [fmap option_fmap option_map mbind option_bind].
  destruct Hdshape as (HdW & HdH & Hdrest).
  rewrite HdW, HdH.
  assert (map_shape W H dist) as Hdshape by (repeat split; tauto).
  destruct (blend_loops W H (danger_space dg) dist danger_adjust space1)
    as (space' & -> & Hl' & Hs' & Hcells); try lia; try assumption.
  { split; [apply length_replicate|].
    split; [apply Forall_replicate, Hdshape|].
    intros t i j Ht Hi Hj.
    destruct (cell_in_range W H (danger_space dg) t i j Hs) as [c Hc];
      try assumption.
    { rewrite Hl. exact Ht. }
    exists c, (goal_distance i j goal_x goal_y).
    split; [exact Hc|]. split; [apply Hdget; assumption|].
    split; [contradiction|]. intros _.
    unfold cell, space1, vec_at. case_decide; [|lia].
    rewrite lookup_replicate_2 by lia.
    cbn [mbind option_bind]. apply Hdget; assumption. }
  cbn [mbind option_bind]. eexists. split; [reflexivity|].
  split; [reflexivity|]. simpl danger_space.
  intros t i j Ht Hi Hj.
  destruct (Hcells t i j Ht Hi Hj) as (c & dv & Hc & Hdv & Hyes & Hno).
  exists c. split; [exact Hc|].
  rewrite Hdget in Hdv by assumption. inversion Hdv; subst dv.
  case_decide as E.
  - destruct E as [Hlt Hgt]. apply Hyes; auto.
  - apply Hno.
    destruct (decide (t < look_ahead)%Z); [|right; left; assumption].
    right. right. intros Hgt. apply E. split; assumption.
Qed.

(** ** Two runs of the code *)

Lemma truncate_whole (z : Z) : (0 <= z)%Z -> truncate (IZR z / 1) = z.
Proof.
  intros Hz. replace (IZR z / 1) with (IZR z) by lra. apply truncate_IZR, Hz.
Qed.

Lemma get_danger_at_cell (dg : danger_grid) (x_pos y_pos seconds : Z) :
  (- look_behind <= seconds <= look_ahead)%Z ->
  get_danger_at dg x_pos y_pos seconds =
  cell (danger_space dg) (seconds + look_behind) x_pos y_pos.
Proof.
  intros Hs. unfold get_danger_at, cell.
  rewrite wrap32_small by (unfold look_ahead, look_behind in *; lia).
  reflexivity.
Qed.

Lemma goal_distance_here (x y : Z) :
  (0 <= x < 2 ^ 32)%Z -> (0 <= y < 2 ^ 32)%Z -> goal_distance x y x y = 0.
Proof.
  intros Hx Hy. unfold goal_distance, usub, umul, uadd.
  rewrite !Z.sub_diag. change (wrap32 0) with 0%Z.
  change (wrap32 (0 * 0)) with 0%Z. change (wrap32 (0 + 0)) with 0%Z.
  apply sqrt_0.
Qed.

(** C9.  [calculate_distance_costs] leaves the maps from index
    [look_ahead] on without the blend: a danger of 1 at square (0, 0) of
    second [look_ahead] becomes the distance 0, not 1 * 1 + 0. *)
Theorem blend_skips_last_slices :
  let plane := mkPlane 1 (mkPosition 1 1) (mkPosition 1 1) (mkPosition 1 1)
                 0 0 in
  exists dg0 dg1 dg2 : danger_grid,
    new_danger_grid [plane] 2 2 1 0 = Some dg0 /\
    set_danger_at dg0 0 0 look_ahead 1 = Some dg1 /\
    get_danger_at dg1 0 0 look_ahead = Some 1 /\
    calculate_distance_costs dg1 0 0 1 = Some dg2 /\
    get_danger_at dg2 0 0 look_ahead = Some 0 /\
    1 * 1 + goal_distance 0 0 0 0 = 1.
Proof.
  intros plane.
  pose proof (truncate_whole 2 ltac:(lia)) as Ht.
  destruct (new_danger_grid_good [plane] 2 2 1 0)
    as (dg0 & set_up & Hdg0 & Hmap & G);
    try (unfold EPSILON; lra); try (rewrite Ht; lia).
  { constructor; [|constructor]. intros _. rewrite Ht. vm_compute.
    repeat split; discriminate || reflexivity. }
  rewrite Ht in G. destruct G as (Gl & Gs & _ & Gpast).
  destruct (new_map_spec 2 2 1) as (set_up' & Hmap' & _ & _ & Hres & _);
    try (unfold EPSILON; lra); try (rewrite Ht; lia).
  rewrite Hmap in Hmap'. inversion Hmap'; subst set_up'.
  destruct (on_slice_set 2 2 (danger_space dg0) (look_ahead + look_behind)
              0 0 1 (fun m => map_set_danger_at m 0 0 1))
    as (space1 & Hset & Hl1 & Hs1 & Hcell1 & Hother1); try assumption;
    try lia; try reflexivity.
  { rewrite Gl. unfold look_ahead, look_behind. lia. }
  set (dg1 := mkGrid (plane_danger dg0) (danger_ratings dg0) (aircraft dg0)
                space1 (map_res dg0) (dist_map dg0)
                (distance_costs_initialized dg0)).
  assert (set_danger_at dg0 0 0 look_ahead 1 = Some dg1) as Hdg1.
  { unfold set_danger_at. rewrite wrap32_small by (vm_compute; split; [discriminate|reflexivity]).
    rewrite Hset. reflexivity. }
  destruct (calculate_distance_costs_spec 2 2 dg1 set_up 0 0 1)
    as (dg2 & Hdg2 & _ & Hcells); try lia.
  { simpl. congruence. }
  { exact Hs1. }
  { simpl. rewrite Hother1 by (unfold look_ahead, look_behind; lia).
    apply Gpast. unfold look_behind. lia. }
  { unfold get_resolution. rewrite Hres.
    rewrite (truncate_IZR 1) by lia. lia. }
  exists dg0, dg1, dg2.
  split; [exact Hdg0|]. split; [exact Hdg1|].
  split; [|split; [exact Hdg2|split]].
  - rewrite get_danger_at_cell by (unfold look_ahead, look_behind; lia).
    simpl danger_space. rewrite Hcell1 by (unfold look_ahead, look_behind; lia).
    case_decide as E; [reflexivity|]. exfalso. apply E. auto.
  - rewrite get_danger_at_cell by (unfold look_ahead, look_behind; lia).
    destruct (Hcells (look_ahead + look_behind)%Z 0%Z 0%Z) as (c & _ & ->);
      try (unfold look_ahead, look_behind; lia).
    case_decide as E.
    + exfalso. destruct E as [E _]. unfold look_ahead, look_behind in E. lia.
    + rewrite goal_distance_here by lia. reflexivity.
  - rewrite goal_distance_here by lia. lra.
Qed.

Lemma west_bound_future :
  let plane := mkPlane 1 (mkPosition 1 0) (mkPosition 0 0) (mkPosition 0 0)
                 (-90) (-90) in
  calculate_future_pos plane 0 =
  Some ([Estimate 0 0 (4 / 10); Estimate 0 1 0; marker;
         Estimate (-1) 0 (4 / 10); Estimate (-1) 1 0; marker;
         Estimate (-2) 0 (4 / 10); Estimate (-2) 1 0; marker;
         Estimate (-3) 0 (4 / 10); Estimate (-3) 1 0], 1%Z).
Proof.
  intros plane.
  rewrite (calculate_future_pos_first_step plane
             (Estimate 0 0 (4 / 10)) (Estimate 0 1 0)).
  - rewrite choose_branch_first. cbn [edanger].
    rewrite decide_False by lra. cbn [mbind option_bind].
    unfold dangerRecurse_budget.
    rewrite dangerRecurse_at_destination by reflexivity.
    cbn [mbind option_bind getBearingToDest plane].
    rewrite ahead_of_goal_west. reflexivity.
  - simpl. lia.
  - simpl. apply (step_pair_west 1 0 0). lia.
Qed.

(** C1.  In the walk of [fill_danger_space] an estimate off the grid takes
    the branch of the time-stamp markers and advances [t].  The plane that
    flies west from (1, 0) to (0, 0) yields 3 markers and, past the goal, 6
    estimates off the grid; the walk that starts with [t = 1] ends with
    [t = 10], where the markers alone would leave [t = 4]. *)
Theorem off_grid_estimates_advance_t :
  let plane := mkPlane 1 (mkPosition 1 0) (mkPosition 0 0) (mkPosition 0 0)
                 (-90) (-90) in
  let estimates :=
    [Estimate 0 0 (4 / 10); Estimate 0 1 0; marker;
     Estimate (-1) 0 (4 / 10); Estimate (-1) 1 0; marker;
     Estimate (-2) 0 (4 / 10); Estimate (-2) 1 0; marker;
     Estimate (-3) 0 (4 / 10); Estimate (-3) 1 0] in
  exists (set_up : map) (space' : list map),
    new_map 10 10 1 = Some set_up /\
    calculate_future_pos plane 0 = Some (estimates, 1%Z) /\
    for_each (fill_estimate (set_danger_scale 1) (getBearing plane))
      estimates
      (1%Z, replicate (Z.to_nat (look_ahead + look_behind + 1)) set_up) =
    Some (10%Z, space').
Proof.
  intros plane estimates.
  pose proof (truncate_whole 10 ltac:(lia)) as Ht.
  destruct (new_map_spec 10 10 1) as (set_up & Hmap & Hshape & Hnn & _);
    try (unfold EPSILON; lra); try (rewrite Ht; lia).
  rewrite Ht in Hshape.
  set (space := replicate (Z.to_nat (look_ahead + look_behind + 1)) set_up).
  assert (good_space 10 10 set_up space) as G.
  { split; [apply length_replicate|].
    split; [apply Forall_replicate, Hshape|].
    split; [apply Forall_replicate, Hnn|].
    intros t Hlt. unfold vec_at. case_decide; [|lia].
    apply lookup_replicate_2. unfold look_ahead, look_behind in *. lia. }
  assert (forall (t : Z) (sp : list map) (e : estimate),
            (t <= look_ahead)%Z -> good_space 10 10 set_up sp ->
            (ex e < 0)%Z \/ edanger e = -1 ->
            fill_estimate (set_danger_scale 1) (-90) (t, sp) e =
              Some ((t + 1)%Z, sp)) as Hskip.
  { intros t sp e Hle Gsp He.
    destruct (good_space_first 10 10 set_up sp Gsp) as (first & Hf & _).
    apply (fill_estimate_marker_branch _ _ _ _ first); try assumption.
    intros (H1 & _ & _ & _ & H5).
    destruct He as [He|He]; [lia|unfold EPSILON in H5; lra]. }
  destruct (fill_estimate_writes 10 10 set_up 1 (-90) 1 space
              (Estimate 0 0 (4 / 10))) as (space1 & H1 & G1);
    try assumption; try lia; try lra;
    try (unfold look_ahead; lia); try (simpl; rewrite to_int_small; lia);
    try (simpl; lra).
  destruct (fill_estimate_writes 10 10 set_up 1 (-90) 1 space1
              (Estimate 0 1 0)) as (space2 & H2 & G2);
    try assumption; try lia; try lra;
    try (unfold look_ahead; lia); try (simpl; rewrite to_int_small; lia);
    try (simpl; lra).
  exists set_up, space2. split; [exact Hmap|].
  split; [exact west_bound_future|].
  subst plane estimates. cbn [for_each getBearing]. fold space.
  rewrite H1. cbn [mbind option_bind].
  rewrite H2. cbn [mbind option_bind].
  repeat (rewrite Hskip;
          [cbn [mbind option_bind Z.add Pos.add Pos.succ]
          |unfold look_ahead; lia|exact G2
          |first [left; simpl; lia | right; reflexivity]]).
  reflexivity.
Qed.

(** ** Instances of the theorems *)

Lemma set_danger_field_all_round_witness :
  let set_up := mkMap (replicate 3 (replicate 3 new_square)) 3 3 1 3 3 in
  let space := replicate 23 set_up in
  space_shape 3 3 space /\
  exists space' : list map,
    (forall bearing' : R,
       set_danger_field bearing' 1 1 1 3 space = Some space') /\
    (forall t i j : Z,
       (0 <= t)%Z -> (0 <= i < 3)%Z -> (0 <= j < 3)%Z ->
       cell space' t i j =
       (fun v => if decide (t = 3%Z /\ neighbour 1 1 i j)
                 then v + 1 * field_weight else v) <$> cell space t i j).
Proof.
  intros set_up space.
  assert (space_shape 3 3 space) as Hs.
  { apply Forall_replicate. repeat split.
    apply Forall_replicate. reflexivity. }
  split; [exact Hs|].
  apply (set_danger_field_all_round 3 3 space 0 1 1 1 3 Hs);
    simpl; lia.
Defined.

Lemma fresh_grid_nonnegative_witness :
  let plane := mkPlane 1 (mkPosition 9 9) (mkPosition 0 0) (mkPosition 0 0)
                 (-45) (-45) in
  10 > EPSILON /\ 1 > EPSILON /\
  exists (dg : danger_grid) (v : R),
    new_danger_grid [plane] 10 10 1 0 = Some dg /\
    distance_costs_initialized dg = false /\
    get_danger_at dg 0 0 20 = Some v /\
    0 <= v.
Proof.
  intros plane.
  assert (10 > EPSILON) as H10 by (unfold EPSILON; lra).
  assert (1 > EPSILON) as H1 by (unfold EPSILON; lra).
  split; [exact H10|]. split; [exact H1|].
  pose proof (truncate_whole 10 ltac:(lia)) as Ht.
  apply (fresh_grid_nonnegative [plane] 10 10 1 0 0 0 20 H10 H10 H1);
    rewrite ?Ht; try lia; try (unfold look_ahead, look_behind; lia).
  constructor; [|constructor]. intros _. vm_compute.
  repeat split; discriminate || reflexivity.
Defined.

Lemma fresh_grid_past_is_zero_witness :
  let plane := mkPlane 1 (mkPosition 9 9) (mkPosition 0 0) (mkPosition 0 0)
                 (-45) (-45) in
  10 > EPSILON /\ 1 > EPSILON /\
  exists dg : danger_grid,
    new_danger_grid [plane] 10 10 1 0 = Some dg /\
    distance_costs_initialized dg = false /\
    get_danger_at dg 9 9 (-1) = Some 0.
Proof.
  intros plane.
  assert (10 > EPSILON) as H10 by (unfold EPSILON; lra).
  assert (1 > EPSILON) as H1 by (unfold EPSILON; lra).
  split; [exact H10|]. split; [exact H1|].
  pose proof (truncate_whole 10 ltac:(lia)) as Ht.
  apply (fresh_grid_past_is_zero [plane] 10 10 1 0 9 9 (-1) H10 H10 H1);
    rewrite ?Ht; try lia; try (unfold look_ahead, look_behind; lia).
  constructor; [|constructor]. intros _. vm_compute.
  repeat split; discriminate || reflexivity.
Defined.

(** * Proofs for the rest of the code *)

(** ** The planes of a square *)

Lemma update_square_twice (W H : Z) (m : map) (x y : Z)
    (f g : grid_square -> grid_square) :
  map_shape W H m -> (0 <= x < W)%Z -> (0 <= y < H)%Z ->
  exists m' : map,
    (m1 ← update_square m x y f; update_square m1 x y g) = Some m' /\
    map_shape W H m' /\
    (forall i j : Z, (0 <= i)%Z -> (0 <= j)%Z ->
       square_at m' i j =
       if decide (i = x /\ j = y) then (fun sq => g (f sq)) <$> square_at m i j
       else square_at m i j).
Proof.
  intros Hshape Hx Hy.
  destruct (update_square_spec W H m x y f Hshape Hx Hy)
    as (m1 & E1 & Hshape1 & Hsq1 & _).
  destruct (update_square_spec W H m1 x y g Hshape1 Hx Hy)
    as (m2 & E2 & Hshape2 & Hsq2 & _).
  exists m2. rewrite E1. cbn [mbind option_bind]. split; [exact E2|].
  split; [exact Hshape2|].
  intros i j Hi Hj. rewrite Hsq2, !Hsq1 by assumption.
  case_decide; [|reflexivity].
  destruct (square_at m i j); reflexivity.
Qed.

(** X1.  [add_plane_at] appends the plane to the list of its square and
    overwrites the danger of the square with [PLANE_DANGER]; no other square
    changes. *)
Theorem add_plane_at_appends (W H : Z) (m : map) (x y id : Z) :
  map_shape W H m -> (0 <= x < W)%Z -> (0 <= y < H)%Z ->
  exists (m' : map) (before : list Z),
    add_plane_at m x y id = Some m' /\
    map_shape W H m' /\
    get_planes_at m x y = Some before /\
    get_planes_at m' x y = Some (before ++ [id]) /\
    map_get_danger_at m' x y = Some PLANE_DANGER /\
    (forall i j : Z, (0 <= i)%Z -> (0 <= j)%Z -> ~ (i = x /\ j = y) ->
       square_at m' i j = square_at m i j).
Proof.
  intros Hshape Hx Hy.
  destruct (update_square_twice W H m x y
              (fun sq => mkSquare (planes sq ++ [id]) (danger sq))
              (fun sq => mkSquare (planes sq) PLANE_DANGER) Hshape Hx Hy)
    as (m' & E & Hshape' & Hsq).
  destruct (square_at_in_range W H m x y Hshape Hx Hy) as [sq Esq].
  exists m', (planes sq). unfold add_plane_at. split; [exact E|].
  split; [exact Hshape'|].
  unfold get_planes_at, map_get_danger_at.
  rewrite (Hsq x y) by lia. rewrite decide_True by auto. rewrite Esq.
  repeat split.
  intros i j Hi Hj Hne. rewrite Hsq by assumption.
  rewrite decide_False by exact Hne. reflexivity.
Qed.

Lemma add_plane_at_appends_witness :
  let m := mkMap (replicate 3 (replicate 3 new_square)) 3 3 1 3 3 in
  exists (m' : map) (before : list Z),
    add_plane_at m 1 2 7 = Some m' /\
    map_shape 3 3 m' /\
    get_planes_at m 1 2 = Some before /\
    get_planes_at m' 1 2 = Some (before ++ [7%Z]) /\
    map_get_danger_at m' 1 2 = Some PLANE_DANGER /\
    (forall i j : Z, (0 <= i)%Z -> (0 <= j)%Z -> ~ (i = 1%Z /\ j = 2%Z) ->
       square_at m' i j = square_at m i j).
Proof.
  intros m. apply (add_plane_at_appends 3 3 m 1 2 7); [|lia|lia].
  unfold map_shape, m. cbn. repeat split; repeat constructor.
Defined.

(** X2.  [map::set_danger_at] changes the danger of one square and nothing
    else: the square reads back the new danger, its planes stay, and every
    other square is as before. *)
Theorem map_set_danger_at_only_danger (W H : Z) (m : map) (x y : Z) (v : R) :
  map_shape W H m -> (0 <= x < W)%Z -> (0 <= y < H)%Z ->
  exists m' : map,
    map_set_danger_at m x y v = Some m' /\
    map_shape W H m' /\
    map_get_danger_at m' x y = Some v /\
    (forall i j : Z, (0 <= i)%Z -> (0 <= j)%Z ->
       get_planes_at m' i j = get_planes_at m i j) /\
    (forall i j : Z, (0 <= i)%Z -> (0 <= j)%Z -> ~ (i = x /\ j = y) ->
       square_at m' i j = square_at m i j).
Proof.
  intros Hshape Hx Hy.
  destruct (update_square_spec W H m x y
              (fun sq => mkSquare (planes sq) v) Hshape Hx Hy)
    as (m' & E & Hshape' & Hsq & _).
  destruct (square_at_in_range W H m x y Hshape Hx Hy) as [sq Esq].
  exists m'. split; [exact E|]. split; [exact Hshape'|].
  unfold get_planes_at, map_get_danger_at. split; [|split].
  - rewrite (Hsq x y) by lia. rewrite decide_True by auto.
    rewrite Esq. reflexivity.
  - intros i j Hi Hj. rewrite Hsq by assumption.
    case_decide; [|reflexivity]. destruct (square_at m i j); reflexivity.
  - intros i j Hi Hj Hne. rewrite Hsq by assumption.
    rewrite decide_False by exact Hne. reflexivity.
Qed.

Lemma map_set_danger_at_only_danger_witness :
  let m := mkMap (replicate 3 (replicate 3 new_square)) 3 3 1 3 3 in
  exists m' : map,
    map_set_danger_at m 1 2 5 = Some m' /\
    map_shape 3 3 m' /\
    map_get_danger_at m' 1 2 = Some 5 /\
    (forall i j : Z, (0 <= i)%Z -> (0 <= j)%Z ->
       get_planes_at m' i j = get_planes_at m i j) /\
    (forall i j : Z, (0 <= i)%Z -> (0 <= j)%Z -> ~ (i = 1%Z /\ j = 2%Z) ->
       square_at m' i j = square_at m i j).
Proof.
  intros m. apply (map_set_danger_at_only_danger 3 3 m 1 2 5); [|lia|lia].
  unfold map_shape, m. cbn. repeat split; repeat constructor.
Defined.

(** ** The size of the map *)

Lemma truncate_bounds (r : R) :
  0 <= r -> IZR (truncate r) <= r < IZR (truncate r) + 1.
Proof.
  intros Hr. unfold truncate. case_decide; [|lra].
  destruct (base_Int_part r). lra.
Qed.

Lemma ceil_bounds (r : R) : IZR (ceil r) - 1 < r <= IZR (ceil r).
Proof.
  unfold ceil. rewrite opp_IZR. destruct (base_Int_part (- r)). lra.
Qed.

Lemma quotient_bounds (w r : R) (z : Z) :
  r > 0 -> IZR z <= w / r < IZR z + 1 -> IZR z * r <= w < (IZR z + 1) * r.
Proof.
  intros Hr [Hlo Hhi].
  apply Rmult_le_compat_r with (r := r) in Hlo; [|lra].
  apply Rmult_lt_compat_r with (r := r) in Hhi; [|lra].
  replace (w / r * r) with w in Hlo, Hhi by (field; lra).
  split; assumption.
Qed.

Lemma quotient_nonneg (w r : R) : 0 <= w -> 0 < r -> 0 <= w / r.
Proof.
  intros Hw Hr. unfold Rdiv. apply Rmult_le_pos; [exact Hw|].
  left. apply Rinv_0_lt_compat, Hr.
Qed.

Lemma quotient_below (w r c : R) : 0 < r -> w < c * r -> w / r < c.
Proof.
  intros Hr Hw. apply Rmult_lt_reg_r with r; [exact Hr|].
  replace (w / r * r) with w by (field; lra). exact Hw.
Qed.

Lemma vec_at_replicate {A : Type} (n : nat) (a : A) (i : Z) :
  vec_at (replicate n a) i =
  if decide (0 <= i < Z.of_nat n)%Z then Some a else None.
Proof.
  unfold vec_at. case_decide as Hi.
  - case_decide as Hn.
    + apply lookup_replicate_2. lia.
    + apply lookup_ge_None_2. rewrite length_replicate. lia.
  - rewrite decide_False by lia. reflexivity.
Qed.

Lemma representable_half (n : Z) :
  (Z.abs n < 2 ^ 53)%Z -> representable (IZR n / 2 / 1).
Proof.
  intros Hn. exists n, (-1)%Z. split; [exact Hn|]. split; [lia|].
  simpl. field.
Qed.

(** X3.  Where the quotients of the field by the resolution are computed
    without rounding, the map that the constructor builds covers the field
    from the upper left corner up to a strip narrower than one square: the
    counters are the quotients rounded down.  Every square inside is empty
    and without danger, and there is no square outside. *)
Theorem new_map_covers (width_of_field height_of_field map_resolution : R) :
  width_of_field > EPSILON -> height_of_field > EPSILON ->
  map_resolution > EPSILON ->
  representable (width_of_field / map_resolution) ->
  representable (height_of_field / map_resolution) ->
  (1 < truncate (width_of_field / map_resolution) < 2 ^ 32)%Z ->
  (truncate (height_of_field / map_resolution) < 2 ^ 32)%Z ->
  exists m : map,
    new_map width_of_field height_of_field map_resolution = Some m /\
    IZR (squares_wide m) * map_resolution <= width_of_field
      < (IZR (squares_wide m) + 1) * map_resolution /\
    IZR (squares_high m) * map_resolution <= height_of_field
      < (IZR (squares_high m) + 1) * map_resolution /\
    forall i j : Z,
      square_at m i j =
      if decide ((0 <= i < squares_wide m)%Z /\ (0 <= j < squares_high m)%Z)
      then Some new_square else None.
Proof.
  intros Hw Hh Hr _ _ HW HH. unfold new_map.
  assert (0 < map_resolution) as Hr0 by (unfold EPSILON in Hr; lra).
  assert (0 <= width_of_field / map_resolution) as Hqw.
  { apply quotient_nonneg; unfold EPSILON in Hw; lra. }
  assert (0 <= height_of_field / map_resolution) as Hqh.
  { apply quotient_nonneg; unfold EPSILON in Hh; lra. }
  case_decide as Hassert; [|exfalso; tauto].
  case_decide as Hfit; [|exfalso; apply Hfit; split; [lia|exact HH]].
  cbv zeta. cbn [the_map].
  rewrite vec_at_replicate. rewrite decide_True by lia.
  cbn [mbind option_bind].
  eexists. split; [reflexivity|]. cbn [squares_wide squares_high].
  split; [apply quotient_bounds; [lra|apply truncate_bounds, Hqw]|].
  split; [apply quotient_bounds; [lra|apply truncate_bounds, Hqh]|].
  intros i j. unfold square_at. cbn [the_map].
  pose proof (truncate_nonneg _ Hqh) as Hh0.
  rewrite vec_at_replicate.
  destruct (decide (0 <= i < Z.of_nat (Z.to_nat
              (truncate (width_of_field / map_resolution))))%Z) as [Hi|Hi].
  - cbn [mbind option_bind]. rewrite vec_at_replicate.
    destruct (decide (0 <= j < Z.of_nat (Z.to_nat
                (truncate (height_of_field / map_resolution))))%Z) as [Hj|Hj].
    + rewrite decide_True by lia. reflexivity.
    + rewrite decide_False by lia. reflexivity.
  - cbn [mbind option_bind]. rewrite decide_False by lia. reflexivity.
Qed.

Lemma new_map_covers_witness :
  21 / 2 > EPSILON /\ 1 > EPSILON /\ representable (21 / 2 / 1) /\
  exists m : map,
    new_map (21 / 2) (21 / 2) 1 = Some m /\
    IZR (squares_wide m) * 1 <= 21 / 2 < (IZR (squares_wide m) + 1) * 1 /\
    IZR (squares_high m) * 1 <= 21 / 2 < (IZR (squares_high m) + 1) * 1 /\
    forall i j : Z,
      square_at m i j =
      if decide ((0 <= i < squares_wide m)%Z /\ (0 <= j < squares_high m)%Z)
      then Some new_square else None.
Proof.
  assert (21 / 2 > EPSILON) as H10 by (unfold EPSILON; lra).
  assert (1 > EPSILON) as H1 by (unfold EPSILON; lra).
  assert (representable (21 / 2 / 1)) as Hq by (apply representable_half; lia).
  split; [exact H10|]. split; [exact H1|]. split; [exact Hq|].
  assert (truncate (21 / 2 / 1) = 10%Z) as Ht by (apply truncate_spec; lra).
  apply (new_map_covers (21 / 2) (21 / 2) 1 H10 H10 H1 Hq Hq);
    rewrite Ht; lia.
Defined.

Lemma find_squares_ceil (q : R) :
  0 <= q -> q <= IZR (2 ^ 32 - 1) ->
  wrap32 (truncate (IZR (ceil q) + 1 / 10)) = ceil q /\
  (truncate q <= ceil q <= truncate q + 1)%Z /\
  (ceil q = truncate q <-> q = IZR (truncate q)).
Proof.
  intros Hq Hmax.
  destruct (ceil_bounds q) as [Hc1 Hc2].
  destruct (truncate_bounds q Hq) as [Ht1 Ht2].
  assert (0 <= ceil q)%Z as Hc0.
  { apply le_IZR. lra. }
  assert (ceil q < 2 ^ 32)%Z as Hcmax.
  { assert (IZR (ceil q) - 1 < IZR (2 ^ 32 - 1)) as Hlt by lra.
    rewrite <- minus_IZR in Hlt. apply lt_IZR in Hlt. lia. }
  assert (truncate q <= ceil q)%Z as Hle by (apply le_IZR; lra).
  assert (ceil q <= truncate q + 1)%Z as Hle'.
  { assert (IZR (ceil q) - 1 < IZR (truncate q) + 1) as Hlt by lra.
    rewrite <- minus_IZR, <- plus_IZR in Hlt. apply lt_IZR in Hlt. lia. }
  split; [|split; [lia|]].
  - rewrite (truncate_spec _ (ceil q)).
    + apply wrap32_small. lia.
    + lra.
    + apply IZR_le in Hc0. lra.
  - split.
    + intros E. rewrite E in Hc2. lra.
    + intros E. assert (IZR (ceil q) - 1 < IZR (truncate q)) as Hlt by lra.
      rewrite <- minus_IZR in Hlt. apply lt_IZR in Hlt. lia.
Qed.

(** X5.  [find_width_in_squares] and [find_height_in_squares] round the
    quotient up, where the map rounds it down.  Where the quotients are
    computed without rounding and fit an [int], the counters of the map are
    the same or one less, and the same exactly when the resolution divides
    the field. *)
Theorem find_squares_round_up (width_of_field height_of_field map_resolution : R) :
  width_of_field > EPSILON -> height_of_field > EPSILON ->
  map_resolution > EPSILON ->
  representable (width_of_field / map_resolution) ->
  representable (height_of_field / map_resolution) ->
  (1 < truncate (width_of_field / map_resolution) < 2 ^ 31 - 1)%Z ->
  (truncate (height_of_field / map_resolution) < 2 ^ 31 - 1)%Z ->
  exists m : map,
    new_map width_of_field height_of_field map_resolution = Some m /\
    let wide := find_width_in_squares width_of_field height_of_field
                  map_resolution in
    let high := find_height_in_squares width_of_field height_of_field
                  map_resolution in
    wide = ceil (width_of_field / map_resolution) /\
    high = ceil (height_of_field / map_resolution) /\
    (squares_wide m <= wide <= squares_wide m + 1)%Z /\
    (squares_high m <= high <= squares_high m + 1)%Z /\
    (wide = squares_wide m <->
     width_of_field = IZR (squares_wide m) * map_resolution) /\
    (high = squares_high m <->
     height_of_field = IZR (squares_high m) * map_resolution).
Proof.
  intros Hw Hh Hr _ _ HW HH.
  assert (0 < map_resolution) as Hr0 by (unfold EPSILON in Hr; lra).
  assert (0 <= width_of_field / map_resolution) as Hqw.
  { apply quotient_nonneg; unfold EPSILON in Hw; lra. }
  assert (0 <= height_of_field / map_resolution) as Hqh.
  { apply quotient_nonneg; unfold EPSILON in Hh; lra. }
  destruct (new_map_spec width_of_field height_of_field map_resolution
              Hw Hh Hr ltac:(lia) ltac:(lia))
    as (m & E & (Ewide & Ehigh & _) & _).
  exists m. split; [exact E|]. cbv zeta.
  unfold find_width_in_squares, find_height_in_squares.
  rewrite Ewide, Ehigh.
  assert (forall q : R, 0 <= q -> (truncate q < 2 ^ 31 - 1)%Z ->
            q <= IZR (2 ^ 32 - 1)) as Hmax.
  { intros q Hq Hlt. destruct (truncate_bounds q Hq) as [_ Hhi].
    assert (truncate q + 1 <= 2 ^ 32 - 1)%Z as Hle by lia.
    apply IZR_le in Hle. rewrite plus_IZR in Hle. lra. }
  assert (forall v : R, v / map_resolution = IZR (truncate (v / map_resolution))
            <-> v = IZR (truncate (v / map_resolution)) * map_resolution)
    as Hdiv.
  { intros v. split; intros Ev.
    - rewrite <- Ev. field. lra.
    - rewrite Ev at 1. field. lra. }
  destruct (find_squares_ceil _ Hqw (Hmax _ Hqw ltac:(lia)))
    as (E1 & B1 & I1).
  destruct (find_squares_ceil _ Hqh (Hmax _ Hqh ltac:(lia)))
    as (E2 & B2 & I2).
  rewrite E1, E2, I1, I2, !Hdiv. repeat split; tauto || lia.
Qed.

Lemma find_squares_round_up_witness :
  21 / 2 > EPSILON /\ 1 > EPSILON /\ representable (21 / 2 / 1) /\
  exists m : map,
    new_map (21 / 2) (21 / 2) 1 = Some m /\
    let wide := find_width_in_squares (21 / 2) (21 / 2) 1 in
    let high := find_height_in_squares (21 / 2) (21 / 2) 1 in
    wide = ceil (21 / 2 / 1) /\
    high = ceil (21 / 2 / 1) /\
    (squares_wide m <= wide <= squares_wide m + 1)%Z /\
    (squares_high m <= high <= squares_high m + 1)%Z /\
    (wide = squares_wide m <-> 21 / 2 = IZR (squares_wide m) * 1) /\
    (high = squares_high m <-> 21 / 2 = IZR (squares_high m) * 1).
Proof.
  assert (21 / 2 > EPSILON) as H10 by (unfold EPSILON; lra).
  assert (1 > EPSILON) as H1 by (unfold EPSILON; lra).
  assert (representable (21 / 2 / 1)) as Hq by (apply representable_half; lia).
  split; [exact H10|]. split; [exact H1|]. split; [exact Hq|].
  assert (truncate (21 / 2 / 1) = 10%Z) as Ht by (apply truncate_spec; lra).
  apply (find_squares_round_up (21 / 2) (21 / 2) 1 H10 H10 H1 Hq Hq);
    rewrite Ht; lia.
Defined.

(** ** Named bearings *)

Lemma truncate_small (r : R) : -1 < r < 1 -> truncate r = 0%Z.
Proof.
  intros Hr. unfold truncate. case_decide.
  - symmetry. apply Int_part_spec. lra.
  - assert (Int_part (- r) = 0%Z) as ->; [|reflexivity].
    symmetry. apply Int_part_spec. lra.
Qed.

Lemma fmod_small (b : R) : -360 < b < 360 -> map_tools.fmod b 360 = b.
Proof.
  intros Hb. unfold map_tools.fmod.
  rewrite truncate_small; [lra|].
  split.
  - apply Rmult_lt_reg_r with 360; [lra|].
    replace (b / 360 * 360) with b by field. lra.
  - apply quotient_below; lra.
Qed.

Lemma fmod_turns (b : R) (k : Z) :
  0 <= b -> (0 <= k)%Z ->
  map_tools.fmod (b + 360 * IZR k) 360 = map_tools.fmod b 360.
Proof.
  intros Hb Hk. unfold map_tools.fmod.
  assert (0 <= b / 360) as Hq by (apply quotient_nonneg; lra).
  destruct (truncate_bounds _ Hq) as [Hlo Hhi].
  apply IZR_le in Hk.
  rewrite (truncate_spec ((b + 360 * IZR k) / 360)
             (truncate (b / 360) + k)).
  - rewrite plus_IZR. lra.
  - rewrite plus_IZR.
    replace ((b + 360 * IZR k) / 360) with (b / 360 + IZR k) by field. lra.
  - replace ((b + 360 * IZR k) / 360) with (b / 360 + IZR k) by field. lra.
Qed.

Lemma fmod_range (b : R) : 0 <= b -> 0 <= map_tools.fmod b 360 < 360.
Proof.
  intros Hb. unfold map_tools.fmod.
  assert (0 <= b / 360) as Hq by (apply quotient_nonneg; lra).
  destruct (truncate_bounds _ Hq) as [Hlo Hhi].
  replace b with (b / 360 * 360) at 1 3 by field. lra.
Qed.

Ltac band_cases :=
  repeat case_decide; try reflexivity; try discriminate; try (exfalso; lra).

(** X6.  Half a turn reverses the name: for a bearing from -180 up to 180
    degrees, [name_bearing] of the bearing plus 180 is [reverse_bearing] of
    its name, and the other way round. *)
Theorem name_bearing_half_turn (the_bearing : R) :
  -180 <= the_bearing < 180 ->
  map_tools.name_bearing (the_bearing + 180) =
    map_tools.reverse_bearing (map_tools.name_bearing the_bearing) /\
  map_tools.name_bearing the_bearing =
    map_tools.reverse_bearing (map_tools.name_bearing (the_bearing + 180)).
Proof.
  intros Hb.
  assert (map_tools.name_bearing (the_bearing + 180) =
          map_tools.reverse_bearing (map_tools.name_bearing the_bearing))
    as E.
  { unfold map_tools.name_bearing. cbv zeta. rewrite !fmod_small by lra.
    band_cases. }
  rewrite E. split; [reflexivity|].
  destruct (map_tools.name_bearing the_bearing); reflexivity.
Qed.

Lemma name_bearing_half_turn_witness :
  map_tools.name_bearing (-90 + 180) =
    map_tools.reverse_bearing (map_tools.name_bearing (-90)) /\
  map_tools.name_bearing (-90) =
    map_tools.reverse_bearing (map_tools.name_bearing (-90 + 180)).
Proof. apply name_bearing_half_turn. lra. Defined.

(** X7.  A negative bearing and the same bearing plus a full turn have the
    same name, except in the band from -337.5 to -292.5 degrees: there the
    negative bearing is named NW and its positive counterpart NE. *)
Theorem name_bearing_full_turn (the_bearing : R) :
  -360 < the_bearing < 0 ->
  (map_tools.name_bearing the_bearing =
     map_tools.name_bearing (the_bearing + 360) <->
   ~ (- (3375 / 10) < the_bearing <= - (2925 / 10))) /\
  (- (3375 / 10) < the_bearing <= - (2925 / 10) ->
   map_tools.name_bearing the_bearing = map_tools.NW /\
   map_tools.name_bearing (the_bearing + 360) = map_tools.NE).
Proof.
  intros Hb. unfold map_tools.name_bearing. cbv zeta.
  rewrite !fmod_small by lra.
  split; [split|].
  - intros E Hband. revert E. band_cases.
  - intros Hband. band_cases.
  - intros Hband. split; band_cases.
Qed.

Lemma name_bearing_full_turn_witness :
  (map_tools.name_bearing (-300) = map_tools.name_bearing (-300 + 360) <->
   ~ (- (3375 / 10) < -300 <= - (2925 / 10))) /\
  (- (3375 / 10) < -300 <= - (2925 / 10) ->
   map_tools.name_bearing (-300) = map_tools.NW /\
   map_tools.name_bearing (-300 + 360) = map_tools.NE).
Proof. apply name_bearing_full_turn. lra. Defined.

(** X8.  Whole turns added to a bearing that is not negative do not change
    its name. *)
Theorem name_bearing_whole_turns (the_bearing : R) (turns : Z) :
  0 <= the_bearing -> (0 <= turns)%Z ->
  map_tools.name_bearing (the_bearing + 360 * IZR turns) =
  map_tools.name_bearing the_bearing.
Proof.
  intros Hb Hk. unfold map_tools.name_bearing. cbv zeta.
  rewrite fmod_turns by assumption. reflexivity.
Qed.

Lemma name_bearing_whole_turns_witness :
  map_tools.name_bearing (100 + 360 * IZR 3) = map_tools.name_bearing 100.
Proof. apply name_bearing_whole_turns; [lra|lia]. Defined.

(** X9.  The earlier [name_bearing] has the bands of the positive bearings
    only: it agrees with the later one on every bearing above -22.5 degrees
    and names every bearing from -360 to -22.5 degrees N. *)
Theorem earlier_name_bearing_negative (the_bearing : R) :
  (- (225 / 10) < the_bearing ->
   earlier.name_bearing the_bearing = map_tools.name_bearing the_bearing) /\
  (-360 < the_bearing <= - (225 / 10) ->
   earlier.name_bearing the_bearing = map_tools.N).
Proof.
  split.
  - intros Hb. unfold earlier.name_bearing, map_tools.name_bearing. cbv zeta.
    assert (- (225 / 10) < map_tools.fmod the_bearing 360) as Hf.
    { destruct (Rle_dec 0 the_bearing) as [H0|H0].
      - destruct (fmod_range _ H0). lra.
      - rewrite fmod_small by lra. exact Hb. }
    band_cases.
  - intros Hb. unfold earlier.name_bearing. cbv zeta.
    rewrite fmod_small by lra. band_cases.
Qed.

Lemma earlier_name_bearing_negative_witness :
  earlier.name_bearing (-90) = map_tools.N /\
  map_tools.name_bearing (-90) = map_tools.W.
Proof.
  split.
  - apply (proj2 (earlier_name_bearing_negative (-90))). lra.
  - unfold map_tools.name_bearing. cbv zeta. rewrite fmod_small by lra.
    band_cases.
Defined.

(** ** Distances and bearings of map_tools.h *)

Lemma sqrt_sum_squares_bounds (a b : R) :
  Rabs a <= sqrt (a * a + b * b) <= Rabs a + Rabs b.
Proof.
  pose proof (Rabs_pos a) as Ha. pose proof (Rabs_pos b) as Hb.
  assert (a * a = Rabs a * Rabs a) as Ea.
  { unfold Rabs. destruct (Rcase_abs a); lra. }
  assert (b * b = Rabs b * Rabs b) as Eb.
  { unfold Rabs. destruct (Rcase_abs b); lra. }
  rewrite Ea, Eb. split.
  - rewrite <- (sqrt_square (Rabs a)) at 1 by exact Ha.
    apply sqrt_le_1_alt. nra.
  - rewrite <- (sqrt_square (Rabs a + Rabs b)) by lra.
    apply sqrt_le_1_alt. nra.
Qed.

Lemma int_value_fits (z : Z) :
  (- 2 ^ 31 <= z < 2 ^ 31)%Z -> map_tools.int_value z = Some z.
Proof. intros Hz. unfold map_tools.int_value. apply decide_True, Hz. Qed.

Lemma int_value_overflow (z : Z) :
  (2 ^ 31 <= z)%Z -> map_tools.int_value z = None.
Proof. intros Hz. unfold map_tools.int_value. apply decide_False. lia. Qed.

Lemma square_root_bound (a : Z) : (a * a < 2 ^ 31)%Z -> (- 2 ^ 31 < a < 2 ^ 31)%Z.
Proof. intros Ha. nia. Qed.

Lemma get_euclidean_dist_between_fits (x_1 y_1 x_2 y_2 : Z) :
  let sum := ((x_2 - x_1) * (x_2 - x_1) + (y_2 - y_1) * (y_2 - y_1))%Z in
  (sum < 2 ^ 31)%Z ->
  map_tools.get_euclidean_dist_between x_1 y_1 x_2 y_2 = Some (sqrt (IZR sum)).
Proof.
  cbv zeta. intros Hsum.
  pose proof (Z.square_nonneg (x_2 - x_1)) as Hx.
  pose proof (Z.square_nonneg (y_2 - y_1)) as Hy.
  pose proof (square_root_bound (x_2 - x_1) ltac:(lia)) as Hdx.
  pose proof (square_root_bound (y_2 - y_1) ltac:(lia)) as Hdy.
  unfold map_tools.get_euclidean_dist_between.
  rewrite (int_value_fits (x_2 - x_1)) by lia. cbn [mbind option_bind].
  rewrite (int_value_fits (y_2 - y_1)) by lia. cbn [mbind option_bind].
  rewrite (int_value_fits ((x_2 - x_1) * (x_2 - x_1))) by lia.
  cbn [mbind option_bind].
  rewrite (int_value_fits ((y_2 - y_1) * (y_2 - y_1))) by lia.
  cbn [mbind option_bind].
  rewrite int_value_fits by lia. reflexivity.
Qed.

Lemma int_value_Some (z z' : Z) :
  map_tools.int_value z = Some z' -> z' = z /\ (- 2 ^ 31 <= z < 2 ^ 31)%Z.
Proof.
  unfold map_tools.int_value. intros E.
  destruct (decide (- 2 ^ 31 <= z < 2 ^ 31)%Z) as [Hz|Hz]; [|discriminate].
  injection E as <-. split; [reflexivity|exact Hz].
Qed.

Lemma get_euclidean_dist_between_overflow (x_1 y_1 x_2 y_2 : Z) :
  (2 ^ 31 <= (x_2 - x_1) * (x_2 - x_1) + (y_2 - y_1) * (y_2 - y_1))%Z ->
  map_tools.get_euclidean_dist_between x_1 y_1 x_2 y_2 = None.
Proof.
  intros Hsum. unfold map_tools.get_euclidean_dist_between.
  destruct (map_tools.int_value (x_2 - x_1)) as [d_x|] eqn:Ex;
    [|reflexivity].
  apply int_value_Some in Ex as [-> _]. cbn [mbind option_bind].
  destruct (map_tools.int_value (y_2 - y_1)) as [d_y|] eqn:Ey;
    [|reflexivity].
  apply int_value_Some in Ey as [-> _]. cbn [mbind option_bind].
  destruct (map_tools.int_value ((x_2 - x_1) * (x_2 - x_1)))
    as [x_square|] eqn:Exx; [|reflexivity].
  apply int_value_Some in Exx as [-> _]. cbn [mbind option_bind].
  destruct (map_tools.int_value ((y_2 - y_1) * (y_2 - y_1)))
    as [y_square|] eqn:Eyy; [|reflexivity].
  apply int_value_Some in Eyy as [-> _]. cbn [mbind option_bind].
  rewrite int_value_overflow by exact Hsum. reflexivity.
Qed.

(** X10.  The Euclidean distance between two squares is computed on
    [int]s: it has a value exactly when the sum of the squares of the two
    coordinate differences is below 2^31, so not from a difference of 46341
    on.  Where it has a value it is symmetric, is zero between a square and
    itself only, and lies between the larger coordinate difference and the
    sum of the two. *)
Theorem get_euclidean_dist_between_metric (x_1 y_1 x_2 y_2 : Z) :
  let sum := ((x_2 - x_1) * (x_2 - x_1) + (y_2 - y_1) * (y_2 - y_1))%Z in
  ((2 ^ 31 <= sum)%Z ->
   map_tools.get_euclidean_dist_between x_1 y_1 x_2 y_2 = None) /\
  ((sum < 2 ^ 31)%Z ->
   exists d : R,
     map_tools.get_euclidean_dist_between x_1 y_1 x_2 y_2 = Some d /\
     map_tools.get_euclidean_dist_between x_2 y_2 x_1 y_1 = Some d /\
     (d = 0 <-> x_1 = x_2 /\ y_1 = y_2) /\
     IZR (Z.max (Z.abs (x_2 - x_1)) (Z.abs (y_2 - y_1))) <= d /\
     d <= IZR (Z.abs (x_2 - x_1) + Z.abs (y_2 - y_1))).
Proof.
  cbv zeta. split; [apply get_euclidean_dist_between_overflow|].
  intros Hfits.
  rewrite (get_euclidean_dist_between_fits x_1 y_1 x_2 y_2 Hfits).
  rewrite (get_euclidean_dist_between_fits x_2 y_2 x_1 y_1) by lia.
  eexists. split; [reflexivity|].
  rewrite !plus_IZR, !mult_IZR.
  pose proof (sqrt_sum_squares_bounds (IZR (x_2 - x_1)) (IZR (y_2 - y_1)))
    as [Hx Hsum].
  pose proof (sqrt_sum_squares_bounds (IZR (y_2 - y_1)) (IZR (x_2 - x_1)))
    as [Hy _].
  rewrite (Rplus_comm (IZR (y_2 - y_1) * IZR (y_2 - y_1))) in Hy.
  rewrite <- (abs_IZR (x_2 - x_1)) in Hx, Hsum.
  rewrite <- (abs_IZR (y_2 - y_1)) in Hy, Hsum.
  split; [|split; [|split]].
  - f_equal. f_equal. rewrite !minus_IZR. ring.
  - split.
    + intros E. rewrite E in Hx, Hy.
      pose proof (Z.abs_nonneg (x_2 - x_1)) as Hax.
      pose proof (Z.abs_nonneg (y_2 - y_1)) as Hay.
      apply le_IZR in Hx. apply le_IZR in Hy. lia.
    + intros [-> ->]. rewrite !Z.sub_diag.
      replace (0 * 0 + 0 * 0) with 0 by ring. apply sqrt_0.
  - apply Z.max_case_strong; intros _; assumption.
  - exact Hsum.
Qed.

Lemma get_euclidean_dist_between_metric_witness :
  map_tools.get_euclidean_dist_between 0 0 46341 0 = None /\
  exists d : R,
    map_tools.get_euclidean_dist_between 4 3 1 7 = Some d /\
    map_tools.get_euclidean_dist_between 1 7 4 3 = Some d /\
    (d = 0 <-> 4%Z = 1%Z /\ 3%Z = 7%Z) /\
    IZR (Z.max (Z.abs (1 - 4)) (Z.abs (7 - 3))) <= d /\
    d <= IZR (Z.abs (1 - 4) + Z.abs (7 - 3)).
Proof.
  split.
  - apply (proj1 (get_euclidean_dist_between_metric 0 0 46341 0)). lia.
  - apply (proj2 (get_euclidean_dist_between_metric 4 3 1 7)). lia.
Defined.



Lemma degrees_of_atan (v : R) : -90 < atan v * RADtoDEGREES < 90.
Proof.
  unfold RADtoDEGREES. rewrite PI_const_eq.
  pose proof (atan_bound v) as [Hlo Hhi]. pose proof PI_RGT_0 as Hpi.
  replace (atan v * (180 / PI)) with (atan v / PI * 180) by (field; lra).
  assert (- (1 / 2) < atan v / PI < 1 / 2) as [H1 H2]; [|lra].
  split.
  - apply Rmult_lt_reg_r with PI; [lra|].
    replace (atan v / PI * PI) with (atan v) by (field; lra). lra.
  - apply quotient_below; lra.
Qed.

Lemma degrees_of_PI : PI * RADtoDEGREES = 180.
Proof.
  unfold RADtoDEGREES. rewrite PI_const_eq. pose proof PI_RGT_0. field. lra.
Qed.

Lemma atan_sign (v : R) : (0 <= v -> 0 <= atan v) /\ (v <= 0 -> atan v <= 0).
Proof.
  split; intros Hv.
  - destruct Hv as [Hv| <-]; [|rewrite atan_0; lra].
    rewrite <- atan_0. left. apply atan_increasing, Hv.
  - destruct Hv as [Hv| ->]; [|rewrite atan_0; lra].
    rewrite <- atan_0. left. apply atan_increasing, Hv.
Qed.

(** X12.  The Euclidean bearing lies above -90 and at most at 270 degrees;
    it is 0 to the north (smaller y), 90 to the east, 180 to the south and
    270 to the west, and 90 from a square to itself. *)
Theorem calculate_euclidean_bearing_range (x_1 y_1 x_2 y_2 : Z) :
  let bearing := map_tools.calculate_euclidean_bearing x_1 y_1 x_2 y_2 in
  -90 < bearing <= 270 /\
  (x_2 = x_1 -> (y_2 < y_1)%Z -> bearing = 0) /\
  (y_2 = y_1 -> (x_1 < x_2)%Z -> bearing = 90) /\
  (x_2 = x_1 -> (y_1 < y_2)%Z -> bearing = 180) /\
  (y_2 = y_1 -> (x_2 < x_1)%Z -> bearing = 270) /\
  (x_2 = x_1 -> y_2 = y_1 -> bearing = 90).
Proof.
  cbv zeta. unfold map_tools.calculate_euclidean_bearing. cbv zeta.
  pose proof degrees_of_PI as Hpi.
  split; [|repeat split].
  - unfold map_tools.atan2.
    pose proof (degrees_of_atan (IZR (y_2 - y_1) / IZR (x_2 - x_1)))
      as [Hlo Hhi].
    pose proof (atan_sign (IZR (y_2 - y_1) / IZR (x_2 - x_1))) as [Hp Hn].
    assert (0 < RADtoDEGREES) as Hdeg by apply RADtoDEGREES_pos.
    repeat case_decide.
    + lra.
    + assert (IZR (y_2 - y_1) / IZR (x_2 - x_1) <= 0) as Hq.
      { unfold Rdiv.
        replace (IZR (y_2 - y_1) * / IZR (x_2 - x_1))
          with (- (IZR (y_2 - y_1) * / - IZR (x_2 - x_1))).
        - assert (0 <= IZR (y_2 - y_1) * / - IZR (x_2 - x_1)); [|lra].
          apply Rmult_le_pos; [lra|]. left. apply Rinv_0_lt_compat. lra.
        - field. lra. }
      specialize (Hn Hq).
      rewrite Rmult_plus_distr_r, Hpi.
      assert (atan (IZR (y_2 - y_1) / IZR (x_2 - x_1)) * RADtoDEGREES <= 0);
        [|lra].
      replace 0 with (0 * RADtoDEGREES) by ring.
      apply Rmult_le_compat_r; lra.
    + assert (0 < IZR (y_2 - y_1) / IZR (x_2 - x_1)) as Hq.
      { unfold Rdiv.
        replace (IZR (y_2 - y_1) * / IZR (x_2 - x_1))
          with (- IZR (y_2 - y_1) * / - IZR (x_2 - x_1)) by (field; lra).
        apply Rmult_lt_0_compat; [lra|]. apply Rinv_0_lt_compat. lra. }
      apply atan_increasing in Hq. rewrite atan_0 in Hq.
      unfold Rminus. rewrite Rmult_plus_distr_r.
      replace (- PI * RADtoDEGREES) with (- (PI * RADtoDEGREES)) by ring.
      rewrite Hpi.
      assert (0 < atan (IZR (y_2 - y_1) / IZR (x_2 - x_1)) * RADtoDEGREES);
        [|lra].
      apply Rmult_lt_0_compat; lra.
    + replace (PI / 2 * RADtoDEGREES) with (PI * RADtoDEGREES / 2) by field.
      lra.
    + replace (- (PI / 2) * RADtoDEGREES) with (- (PI * RADtoDEGREES / 2))
        by field.
      lra.
    + lra.
  - intros -> Hy. rewrite Z.sub_diag. unfold map_tools.atan2.
    apply IZR_lt in Hy. rewrite minus_IZR.
    rewrite decide_False by lra. rewrite decide_False by lra.
    rewrite decide_False by lra. rewrite decide_True by lra.
    replace (- (PI / 2) * RADtoDEGREES) with (- (PI * RADtoDEGREES / 2))
      by field.
    lra.
  - intros -> Hx. rewrite Z.sub_diag. unfold map_tools.atan2.
    apply IZR_lt in Hx. rewrite minus_IZR.
    rewrite decide_True by lra.
    replace (0 / (IZR x_2 - IZR x_1)) with 0 by (field; lra).
    rewrite atan_0. lra.
  - intros -> Hy. rewrite Z.sub_diag. unfold map_tools.atan2.
    apply IZR_lt in Hy. rewrite minus_IZR.
    rewrite decide_False by lra. rewrite decide_False by lra.
    rewrite decide_True by lra.
    replace (PI / 2 * RADtoDEGREES) with (PI * RADtoDEGREES / 2) by field.
    lra.
  - intros -> Hx. rewrite Z.sub_diag. unfold map_tools.atan2.
    apply IZR_lt in Hx. rewrite minus_IZR.
    rewrite decide_False by lra. rewrite decide_True by lra.
    rewrite decide_True by lra.
    replace (0 / (IZR x_2 - IZR x_1)) with 0 by (field; lra).
    rewrite atan_0, Rplus_0_l, Hpi. lra.
  - intros -> ->. rewrite !Z.sub_diag. unfold map_tools.atan2.
    rewrite decide_False by lra. rewrite decide_False by lra.
    rewrite decide_False by lra. rewrite decide_False by lra. lra.
Qed.

Lemma calculate_euclidean_bearing_range_witness :
  let bearing := map_tools.calculate_euclidean_bearing 3 3 3 1 in
  -90 < bearing <= 270 /\ bearing = 0.
Proof.
  cbv zeta.
  destruct (calculate_euclidean_bearing_range 3 3 3 1) as (Hr & Hn & _).
  split; [exact Hr|]. apply Hn; [reflexivity|lia].
Defined.

(** ** The accessors of the danger grid *)

Lemma on_slice_add_cells (W H : Z) (space : list map) (time x y : Z) (d : R) :
  space_shape W H space ->
  (0 <= time < Z.of_nat (length space))%Z ->
  (0 <= x < W)%Z -> (0 <= y < H)%Z ->
  exists space' : list map,
    on_slice space time (fun m => map_add_danger_at m x y d) = Some space' /\
    length space' = length space /\
    space_shape W H space' /\
    (forall t i j : Z, (0 <= t)%Z -> (0 <= i < W)%Z -> (0 <= j < H)%Z ->
       cell space' t i j =
       (fun v => if decide (t = time /\ i = x /\ j = y) then v + d else v)
         <$> cell space t i j).
Proof.
  intros Hs Ht Hx Hy.
  destruct (on_slice_add W H space time x y d Hs Ht Hx Hy)
    as (space' & E & Hl & Hs' & Hcells & _).
  exists space'. auto.
Qed.

(** X13.  [set_danger_at] overwrites and [add_danger_at] accumulates the
    danger of one square at one second; [get_danger_at] reads the new value
    there and the old value at every other square and second. *)
Theorem set_and_add_danger_at (W H : Z) (dg : danger_grid)
    (x_pos y_pos seconds : Z) (d : R) :
  length (danger_space dg) = Z.to_nat (look_ahead + look_behind + 1) ->
  space_shape W H (danger_space dg) ->
  (0 <= x_pos < W)%Z -> (0 <= y_pos < H)%Z ->
  (- look_behind <= seconds <= look_ahead)%Z ->
  exists (dg_set dg_add : danger_grid) (before : R),
    set_danger_at dg x_pos y_pos seconds d = Some dg_set /\
    add_danger_at dg x_pos y_pos seconds d = Some dg_add /\
    get_danger_at dg x_pos y_pos seconds = Some before /\
    get_danger_at dg_set x_pos y_pos seconds = Some d /\
    get_danger_at dg_add x_pos y_pos seconds = Some (before + d) /\
    forall i j s : Z,
      (0 <= i < W)%Z -> (0 <= j < H)%Z ->
      (- look_behind <= s <= look_ahead)%Z ->
      ~ (i = x_pos /\ j = y_pos /\ s = seconds) ->
      get_danger_at dg_set i j s = get_danger_at dg i j s /\
      get_danger_at dg_add i j s = get_danger_at dg i j s.
Proof.
  intros Hl Hs Hx Hy Hsec.
  assert (0 <= seconds + look_behind < Z.of_nat (length (danger_space dg)))%Z
    as Ht by (rewrite Hl; unfold look_ahead, look_behind in *; lia).
  destruct (on_slice_set W H (danger_space dg) (seconds + look_behind)
              x_pos y_pos d (fun m => map_set_danger_at m x_pos y_pos d)
              Hs Ht Hx Hy ltac:(reflexivity))
    as (space1 & E1 & _ & _ & Hcell1 & _).
  destruct (on_slice_add_cells W H (danger_space dg) (seconds + look_behind)
              x_pos y_pos d Hs Ht Hx Hy)
    as (space2 & E2 & _ & _ & Hcell2).
  destruct (cell_in_range W H (danger_space dg) (seconds + look_behind)
              x_pos y_pos Hs Ht Hx Hy) as [before Hbefore].
  unfold set_danger_at, add_danger_at.
  rewrite wrap32_small by (unfold look_ahead, look_behind in *; lia).
  rewrite E1, E2. cbn [mbind option_bind].
  eexists. eexists. exists before.
  split; [reflexivity|]. split; [reflexivity|].
  rewrite !get_danger_at_cell by assumption. cbn [danger_space].
  rewrite Hcell1, Hcell2 by lia. rewrite Hbefore.
  cbn [fmap option_fmap option_map]. rewrite !decide_True by auto.
  split; [reflexivity|]. split; [reflexivity|]. split; [reflexivity|].
  intros i j s Hi Hj Hsec' Hne.
  rewrite !get_danger_at_cell by assumption. cbn [danger_space].
  rewrite Hcell1, Hcell2 by (unfold look_behind in *; lia).
  assert (~ ((s + look_behind)%Z = (seconds + look_behind)%Z /\
             i = x_pos /\ j = y_pos)) as Hne'.
  { intros (E & -> & ->). apply Hne. repeat split; lia. }
  destruct (cell (danger_space dg) (s + look_behind) i j);
    cbn [fmap option_fmap option_map]; rewrite !decide_False by exact Hne';
    split; reflexivity.
Qed.

Lemma set_and_add_danger_at_witness :
  let set_up := mkMap (replicate 3 (replicate 3 new_square)) 3 3 1 3 3 in
  let dg := mkGrid 1 [] [] (replicate 23 set_up) 1 None false in
  exists (dg_set dg_add : danger_grid) (before : R),
    set_danger_at dg 1 2 5 7 = Some dg_set /\
    add_danger_at dg 1 2 5 7 = Some dg_add /\
    get_danger_at dg 1 2 5 = Some before /\
    get_danger_at dg_set 1 2 5 = Some 7 /\
    get_danger_at dg_add 1 2 5 = Some (before + 7) /\
    forall i j s : Z,
      (0 <= i < 3)%Z -> (0 <= j < 3)%Z ->
      (- look_behind <= s <= look_ahead)%Z ->
      ~ (i = 1%Z /\ j = 2%Z /\ s = 5%Z) ->
      get_danger_at dg_set i j s = get_danger_at dg i j s /\
      get_danger_at dg_add i j s = get_danger_at dg i j s.
Proof.
  intros set_up dg.
  apply (set_and_add_danger_at 3 3 dg 1 2 5 7);
    try reflexivity; try lia; try (unfold look_ahead, look_behind; lia).
  apply Forall_replicate. repeat split.
  apply Forall_replicate. reflexivity.
Defined.

(** X14.  The danger grid holds the seconds from [-look_behind] to
    [look_ahead] and no others: outside them [get_danger_at] indexes past
    the end of the danger space. *)
Theorem get_danger_at_outside_window (dg : danger_grid)
    (x_pos y_pos seconds : Z) :
  length (danger_space dg) = Z.to_nat (look_ahead + look_behind + 1) ->
  (- 2 ^ 31 <= seconds < 2 ^ 31)%Z ->
  (seconds < - look_behind \/ look_ahead < seconds)%Z ->
  get_danger_at dg x_pos y_pos seconds = None.
Proof.
  intros Hl Hint Hout. unfold get_danger_at.
  assert (vec_at (danger_space dg) (wrap32 (seconds + look_behind)) = None)
    as ->; [|reflexivity].
  unfold vec_at. case_decide; [|reflexivity].
  apply lookup_ge_None_2. rewrite Hl.
  unfold wrap32, look_ahead, look_behind in *.
  destruct Hout as [Hlow|Hhigh].
  - replace ((seconds + 2) mod 2 ^ 32)%Z with (seconds + 2 + 2 ^ 32)%Z.
    + lia.
    + apply Z.mod_unique with (-1)%Z; lia.
  - rewrite Z.mod_small by lia. lia.
Qed.

Lemma get_danger_at_outside_window_witness :
  let set_up := mkMap (replicate 3 (replicate 3 new_square)) 3 3 1 3 3 in
  let dg := mkGrid 1 [] [] (replicate 23 set_up) 1 None false in
  get_danger_at dg 0 0 (-3) = None /\ get_danger_at dg 0 0 21 = None.
Proof.
  intros set_up dg.
  split; apply get_danger_at_outside_window;
    try reflexivity; unfold look_ahead, look_behind; lia.
Defined.

(** ** The distance map *)

Lemma wrap32_square (a : Z) : umul (wrap32 a) (wrap32 a) = wrap32 (a * a).
Proof.
  unfold umul, wrap32. rewrite <- Z.mul_mod by lia. reflexivity.
Qed.

(** X15.  The distance that [calculate_distance_costs] writes is the
    Euclidean distance to the goal, although the differences are taken in
    [unsigned int]: the wrap-around of a negative difference disappears in
    the square, as long as the sum of the squares is below 2^32.  It is the
    distance of [get_euclidean_dist_between] wherever that has a value, for
    sums below 2^31. *)
Theorem goal_distance_euclidean (crnt_x crnt_y goal_x goal_y : Z) :
  (0 <= crnt_x < 2 ^ 31)%Z -> (0 <= crnt_y < 2 ^ 31)%Z ->
  (0 <= goal_x < 2 ^ 31)%Z -> (0 <= goal_y < 2 ^ 31)%Z ->
  let sum := ((crnt_x - goal_x) * (crnt_x - goal_x) +
              (crnt_y - goal_y) * (crnt_y - goal_y))%Z in
  ((sum < 2 ^ 32)%Z ->
   goal_distance crnt_x crnt_y goal_x goal_y = sqrt (IZR sum)) /\
  ((sum < 2 ^ 31)%Z ->
   map_tools.get_euclidean_dist_between goal_x goal_y crnt_x crnt_y =
   Some (goal_distance crnt_x crnt_y goal_x goal_y)) /\
  ((2 ^ 31 <= sum)%Z ->
   map_tools.get_euclidean_dist_between goal_x goal_y crnt_x crnt_y = None).
Proof.
  intros _ _ _ _. cbv zeta.
  assert (((crnt_x - goal_x) * (crnt_x - goal_x) +
           (crnt_y - goal_y) * (crnt_y - goal_y) < 2 ^ 32)%Z ->
          goal_distance crnt_x crnt_y goal_x goal_y =
          sqrt (IZR ((crnt_x - goal_x) * (crnt_x - goal_x) +
                     (crnt_y - goal_y) * (crnt_y - goal_y)))) as Hgrid.
  { intros Hfit. unfold goal_distance.
    unfold usub. rewrite !wrap32_square. unfold uadd, wrap32.
    rewrite <- Z.add_mod by lia.
    rewrite Z.mod_small; [reflexivity|].
    pose proof (Z.square_nonneg (crnt_x - goal_x)).
    pose proof (Z.square_nonneg (crnt_y - goal_y)). lia. }
  split; [exact Hgrid|]. split.
  - intros Hfit. rewrite Hgrid by lia.
    apply get_euclidean_dist_between_fits. exact Hfit.
  - apply get_euclidean_dist_between_overflow.
Qed.

Lemma goal_distance_euclidean_witness :
  goal_distance 1 7 4 3 = sqrt (IZR 25) /\
  map_tools.get_euclidean_dist_between 4 3 1 7 = Some (goal_distance 1 7 4 3) /\
  goal_distance 0 0 50000 0 = sqrt (IZR 2500000000) /\
  map_tools.get_euclidean_dist_between 50000 0 0 0 = None.
Proof.
  pose proof (goal_distance_euclidean 1 7 4 3
                ltac:(lia) ltac:(lia) ltac:(lia) ltac:(lia)) as (H1 & H2 & _).
  pose proof (goal_distance_euclidean 0 0 50000 0
                ltac:(lia) ltac:(lia) ltac:(lia) ltac:(lia)) as (H3 & _ & H4).
  cbv zeta in H1, H2, H3, H4.
  split; [apply H1; lia|]. split; [apply H2; lia|].
  split; [apply H3; lia|apply H4; lia].
Defined.

Lemma update_square_resolution (m : map) (x y : Z)
    (f : grid_square -> grid_square) (m' : map) :
  update_square m x y f = Some m' -> resolution m' = resolution m.
Proof.
  unfold update_square. destruct (square_at m x y); [|discriminate].
  cbn [mbind option_bind]. intros E. inversion E. reflexivity.
Qed.

Lemma for_each_preserves {A St : Type} (body : St -> A -> option St)
    (P : St -> Prop) (l : list A) :
  (forall s a s', P s -> body s a = Some s' -> P s') ->
  forall s s', P s -> for_each body l s = Some s' -> P s'.
Proof.
  intros Hbody. induction l as [|a l IH]; intros s s' Hs E.
  - inversion E. subst. exact Hs.
  - cbn [for_each] in E. destruct (body s a) as [s1|] eqn:E1; [|discriminate].
    cbn [mbind option_bind] in E. exact (IH s1 s' (Hbody s a s1 Hs E1) E).
Qed.

Lemma on_slice_preserves (P : map -> Prop) (space : list map) (time : Z)
    (f : map -> option map) (space' : list map) :
  (forall m m', P m -> f m = Some m' -> P m') ->
  Forall P space -> on_slice space time f = Some space' -> Forall P space'.
Proof.
  intros Hf Hall. unfold on_slice.
  destruct (vec_at space time) as [m|] eqn:Em; [|discriminate].
  cbn [mbind option_bind].
  destruct (f m) as [m'|] eqn:Ef; [|discriminate].
  cbn [mbind option_bind]. intros E. inversion E.
  apply Forall_insert; [exact Hall|].
  apply (Hf m m'); [|exact Ef].
  apply vec_at_Some in Em as [_ Em]. exact (Forall_lookup_1 _ _ _ _ Hall Em).
Qed.

Lemma blend_square_preserves (P : map -> Prop) (old : list map) (dist : map)
    (adj : R) (x y t : Z) (space space' : list map) :
  (forall m i j v m', P m -> map_set_danger_at m i j v = Some m' -> P m') ->
  Forall P space -> blend_square old dist adj x y space t = Some space' ->
  Forall P space'.
Proof.
  intros Hset Hall. unfold blend_square.
  destruct (vec_at old t) as [o|]; [|discriminate].
  cbn [mbind option_bind].
  destruct (map_get_danger_at o x y) as [c|]; [|discriminate].
  cbn [mbind option_bind].
  case_decide; [|intros E; inversion E; subst; exact Hall].
  apply on_slice_preserves; [|exact Hall].
  intros m m' Hm. destruct (map_get_danger_at dist x y); [|discriminate].
  cbn [mbind option_bind]. apply Hset, Hm.
Qed.

(** What [calculate_distance_costs] leaves in the danger grid. *)
Lemma calculate_distance_costs_full (W H : Z) (dg : danger_grid)
    (first : map) (goal_x goal_y : Z) (danger_adjust : R) :
  (1 < W < 2 ^ 32)%Z -> (1 <= H < 2 ^ 32)%Z ->
  length (danger_space dg) = Z.to_nat (look_ahead + look_behind + 1) ->
  space_shape W H (danger_space dg) ->
  vec_at (danger_space dg) 0 = Some first ->
  (1 <= get_resolution first)%Z ->
  exists (dg' : danger_grid) (dist first' : map),
    calculate_distance_costs dg goal_x goal_y danger_adjust = Some dg' /\
    distance_costs_initialized dg' = true /\
    dist_map dg' = Some dist /\
    (forall i j : Z, (0 <= i < W)%Z -> (0 <= j < H)%Z ->
       map_get_danger_at dist i j = Some (goal_distance i j goal_x goal_y)) /\
    length (danger_space dg') = Z.to_nat (look_ahead + look_behind + 1) /\
    space_shape W H (danger_space dg') /\
    vec_at (danger_space dg') 0 = Some first' /\
    get_resolution first' = get_resolution first /\
    forall t i j : Z,
      (0 <= t < look_ahead + look_behind + 1)%Z ->
      (0 <= i < W)%Z -> (0 <= j < H)%Z ->
      exists c : R,
        cell (danger_space dg) t i j = Some c /\
        cell (danger_space dg') t i j =
          Some (if decide ((t < look_ahead)%Z /\ c > EPSILON)
                then danger_adjust * c + goal_distance i j goal_x goal_y
                else goal_distance i j goal_x goal_y).
Proof.
  intros HW HH Hl Hs Hfirst Hres. unfold calculate_distance_costs.
  assert (map_shape W H first) as Hshape.
  { apply vec_at_Some in Hfirst as [_ Hf]. exact (Forall_lookup_1 _ _ _ _ Hs Hf). }
  unfold get_width_in_squares, get_height_in_squares, get_res.
  rewrite Hfirst. cbn [fmap option_fmap option_map mbind option_bind].
  destruct Hshape as (Hw & Hh & _). rewrite Hw, Hh.
  set (res := IZR (get_resolution first)).
  assert (1 <= res) as Hres' by (apply IZR_le in Hres; exact Hres).
  assert (1 <= IZR W) as HW' by (apply (IZR_le 1); lia).
  assert (1 <= IZR H) as HH' by (apply (IZR_le 1); lia).
  assert (truncate (IZR W * res / res) = W) as HtW.
  { replace (IZR W * res / res) with (IZR W) by (field; lra).
    apply truncate_IZR. lia. }
  assert (truncate (IZR H * res / res) = H) as HtH.
  { replace (IZR H * res / res) with (IZR H) by (field; lra).
    apply truncate_IZR. lia. }
  destruct (new_map_spec (IZR W * res) (IZR H * res) res)
    as (dist0 & -> & Hshape0 & _ & Hres0 & _); try (unfold EPSILON; nra);
    try (rewrite ?HtW, ?HtH; lia).
  rewrite HtW, HtH in Hshape0.
  cbn [mbind option_bind].
  assert (forall m i j v m', resolution m = res ->
            map_set_danger_at m i j v = Some m' -> resolution m' = res)
    as Hkeep.
  { intros m i j v m' Hm E. apply update_square_resolution in E. congruence. }
  destruct (distance_map_loops W H dist0 goal_x goal_y ltac:(lia) ltac:(lia)
              Hshape0) as (dist & Hrun & Hdshape & Hdget).
  assert (resolution dist = res) as Hresd.
  { revert Hrun.
    apply (for_each_preserves _ (fun m => resolution m = res));
      [|exact Hres0].
    intros m i m'. apply (for_each_preserves _ (fun m => resolution m = res)).
    intros m1 j m1'. apply Hkeep. }
  rewrite Hrun. cbn [mbind option_bind].
  set (space1 := replicate (Z.to_nat (look_ahead + look_behind + 1)) dist).
  assert (vec_at space1 0 = Some dist) as Hfirst1.
  { unfold vec_at. case_decide; [|lia]. apply lookup_replicate_2.
    unfold look_ahead, look_behind. lia. }
  rewrite Hfirst1. cbn [fmap option_fmap option_map mbind option_bind].
  destruct Hdshape as (HdW & HdH & Hdrest).
  rewrite HdW, HdH.
  assert (map_shape W H dist) as Hdshape by (repeat split; tauto).
  destruct (blend_loops W H (danger_space dg) dist danger_adjust space1)
    as (space' & Hrun' & Hl' & Hs' & Hcells); try lia; try assumption.
  { split; [apply length_replicate|].
    split; [apply Forall_replicate, Hdshape|].
    intros t i j Ht Hi Hj.
    destruct (cell_in_range W H (danger_space dg) t i j Hs) as [c Hc];
      try assumption.
    { rewrite Hl. exact Ht. }
    exists c, (goal_distance i j goal_x goal_y).
    split; [exact Hc|]. split; [apply Hdget; assumption|].
    split; [contradiction|]. intros _.
    unfold cell, space1, vec_at. case_decide; [|lia].
    rewrite lookup_replicate_2 by lia.
    cbn [mbind option_bind]. apply Hdget; assumption. }
  assert (Forall (fun m => resolution m = res) space') as Hres'all.
  { revert Hrun'.
    apply (for_each_preserves _ (Forall (fun m => resolution m = res)));
      [|apply Forall_replicate, Hresd].
    intros s i s'.
    apply (for_each_preserves _ (Forall (fun m => resolution m = res))).
    intros s1 j s1'.
    apply (for_each_preserves _ (Forall (fun m => resolution m = res))).
    intros s2 t s2' Hs2.
    apply (blend_square_preserves (fun m => resolution m = res));
      [exact Hkeep|exact Hs2]. }
  rewrite Hrun'. cbn [mbind option_bind].
  destruct (vec_at_in_range space' 0) as [first' Hfirst'].
  { rewrite Hl'. unfold look_ahead, look_behind. lia. }
  eexists. exists dist, first'. split; [reflexivity|].
  cbn [distance_costs_initialized dist_map danger_space].
  split; [reflexivity|]. split; [reflexivity|]. split; [exact Hdget|].
  split; [exact Hl'|]. split; [exact Hs'|]. split; [exact Hfirst'|].
  split.
  { apply vec_at_Some in Hfirst' as [_ Hf'].
    pose proof (Forall_lookup_1 _ _ _ _ Hres'all Hf') as Hr.
    unfold get_resolution at 1. cbn beta in Hr. rewrite Hr. unfold res.
    apply truncate_IZR. lia. }
  intros t i j Ht Hi Hj.
  destruct (Hcells t i j Ht Hi Hj) as (c & dv & Hc & Hdv & Hyes & Hno).
  exists c. split; [exact Hc|].
  rewrite Hdget in Hdv by assumption. inversion Hdv; subst dv.
  case_decide as E.
  - destruct E as [Hlt Hgt]. apply Hyes; auto.
  - apply Hno.
    destruct (decide (t < look_ahead)%Z); [|right; left; assumption].
    right. right. intros Hgt. apply E. split; assumption.
Qed.

(** X16.  Before [calculate_distance_costs] has run there is no distance
    cost to read; after it, [get_dist_cost_at] gives the distance of a
    square to the goal. *)
Theorem get_dist_cost_at_after_costs (W H : Z) (dg : danger_grid)
    (first : map) (goal_x goal_y : Z) (danger_adjust : R) :
  (1 < W < 2 ^ 32)%Z -> (1 <= H < 2 ^ 32)%Z ->
  length (danger_space dg) = Z.to_nat (look_ahead + look_behind + 1) ->
  space_shape W H (danger_space dg) ->
  vec_at (danger_space dg) 0 = Some first ->
  (1 <= get_resolution first)%Z ->
  distance_costs_initialized dg = false ->
  (forall x_pos y_pos : Z, get_dist_cost_at dg x_pos y_pos = None) /\
  exists dg' : danger_grid,
    calculate_distance_costs dg goal_x goal_y danger_adjust = Some dg' /\
    forall x_pos y_pos : Z,
      (0 <= x_pos < W)%Z -> (0 <= y_pos < H)%Z ->
      get_dist_cost_at dg' x_pos y_pos =
      Some (goal_distance x_pos y_pos goal_x goal_y).
Proof.
  intros HW HH Hl Hs Hfirst Hres Hinit.
  split.
  - intros x_pos y_pos. unfold get_dist_cost_at. rewrite Hinit. reflexivity.
  - destruct (calculate_distance_costs_full W H dg first goal_x goal_y
                danger_adjust HW HH Hl Hs Hfirst Hres)
      as (dg' & dist & _ & E & Hinit' & Hdist & Hget & _).
    exists dg'. split; [exact E|].
    intros x_pos y_pos Hx Hy. unfold get_dist_cost_at.
    rewrite Hinit', Hdist. cbn [mbind option_bind]. apply Hget; assumption.
Qed.

Lemma get_dist_cost_at_after_costs_witness :
  let set_up := mkMap (replicate 3 (replicate 3 new_square)) 3 3 1 3 3 in
  let dg := mkGrid 1 [] [] (replicate 23 set_up) 1 None false in
  (forall x_pos y_pos : Z, get_dist_cost_at dg x_pos y_pos = None) /\
  exists dg' : danger_grid,
    calculate_distance_costs dg 2 1 1 = Some dg' /\
    forall x_pos y_pos : Z,
      (0 <= x_pos < 3)%Z -> (0 <= y_pos < 3)%Z ->
      get_dist_cost_at dg' x_pos y_pos = Some (goal_distance x_pos y_pos 2 1).
Proof.
  intros set_up dg.
  apply (get_dist_cost_at_after_costs 3 3 dg set_up 2 1 1);
    try reflexivity; try lia.
  - apply Forall_replicate. repeat split.
    apply Forall_replicate. reflexivity.
  - unfold get_resolution. cbn [resolution set_up].
    rewrite (truncate_IZR 1) by lia. lia.
Defined.

(** X17.  A second run of [calculate_distance_costs] does not start from
    the dangers again: it takes the costs of the first run for dangers, so
    that the distance to the first goal stays in the cost of every square
    where it is above [EPSILON]. *)
Theorem calculate_distance_costs_twice (W H : Z) (dg : danger_grid)
    (first : map) (goal_x goal_y : Z) (danger_adjust : R)
    (goal_x' goal_y' : Z) (danger_adjust' : R) :
  (1 < W < 2 ^ 32)%Z -> (1 <= H < 2 ^ 32)%Z ->
  length (danger_space dg) = Z.to_nat (look_ahead + look_behind + 1) ->
  space_shape W H (danger_space dg) ->
  vec_at (danger_space dg) 0 = Some first ->
  (1 <= get_resolution first)%Z ->
  exists dg1 dg2 : danger_grid,
    calculate_distance_costs dg goal_x goal_y danger_adjust = Some dg1 /\
    calculate_distance_costs dg1 goal_x' goal_y' danger_adjust' = Some dg2 /\
    forall t i j : Z,
      (0 <= t < look_ahead)%Z -> (0 <= i < W)%Z -> (0 <= j < H)%Z ->
      exists c : R,
        cell (danger_space dg) t i j = Some c /\
        let d := goal_distance i j goal_x goal_y in
        let d' := goal_distance i j goal_x' goal_y' in
        let cost := if decide (c > EPSILON) then danger_adjust * c + d
                    else d in
        cell (danger_space dg1) t i j = Some cost /\
        cell (danger_space dg2) t i j =
          Some (if decide (cost > EPSILON) then danger_adjust' * cost + d'
                else d').
Proof.
  intros HW HH Hl Hs Hfirst Hres.
  destruct (calculate_distance_costs_full W H dg first goal_x goal_y
              danger_adjust HW HH Hl Hs Hfirst Hres)
    as (dg1 & dist & first1 & E1 & _ & _ & _ & Hl1 & Hs1 & Hfirst1 & Hres1
        & Hcells1).
  destruct (calculate_distance_costs_full W H dg1 first1 goal_x' goal_y'
              danger_adjust' HW HH Hl1 Hs1 Hfirst1 ltac:(lia))
    as (dg2 & _ & _ & E2 & _ & _ & _ & _ & _ & _ & _ & Hcells2).
  exists dg1, dg2. split; [exact E1|]. split; [exact E2|].
  intros t i j Ht Hi Hj.
  destruct (Hcells1 t i j ltac:(unfold look_behind; lia) Hi Hj)
    as (c & Hc & Hc1).
  destruct (Hcells2 t i j ltac:(unfold look_behind; lia) Hi Hj)
    as (c1 & Hc1' & Hc2).
  exists c. split; [exact Hc|]. cbv zeta.
  rewrite Hc1 in Hc1'. injection Hc1' as <-.
  rewrite Hc1, Hc2.
  assert (forall (P : Prop) `{Decision P} (u v : R),
            (if decide ((t < look_ahead)%Z /\ P) then u else v) =
            (if decide P then u else v)) as Hdrop.
  { intros P HP u v. destruct (decide P).
    - rewrite decide_True by (split; [lia|assumption]). reflexivity.
    - rewrite decide_False by tauto. reflexivity. }
  rewrite !Hdrop. split; reflexivity.
Qed.

Lemma calculate_distance_costs_twice_witness :
  let set_up := mkMap (replicate 3 (replicate 3 new_square)) 3 3 1 3 3 in
  let dg := mkGrid 1 [] [] (replicate 23 set_up) 1 None false in
  exists dg1 dg2 : danger_grid,
    calculate_distance_costs dg 2 1 1 = Some dg1 /\
    calculate_distance_costs dg1 0 0 1 = Some dg2 /\
    forall t i j : Z,
      (0 <= t < look_ahead)%Z -> (0 <= i < 3)%Z -> (0 <= j < 3)%Z ->
      exists c : R,
        cell (danger_space dg) t i j = Some c /\
        let d := goal_distance i j 2 1 in
        let d' := goal_distance i j 0 0 in
        let cost := if decide (c > EPSILON) then 1 * c + d else d in
        cell (danger_space dg1) t i j = Some cost /\
        cell (danger_space dg2) t i j =
          Some (if decide (cost > EPSILON) then 1 * cost + d' else d').
Proof.
  intros set_up dg.
  apply (calculate_distance_costs_twice 3 3 dg set_up 2 1 1 0 0 1);
    try reflexivity; try lia.
  - apply Forall_replicate. repeat split.
    apply Forall_replicate. reflexivity.
  - unfold get_resolution. cbn [resolution set_up].
    rewrite (truncate_IZR 1) by lia. lia.
Defined.

Lemma calculate_distance_costs_fine (dg : danger_grid) (first : map)
    (goal_x goal_y : Z) (danger_adjust : R) :
  vec_at (danger_space dg) 0 = Some first ->
  0 <= resolution first < 1 ->
  calculate_distance_costs dg goal_x goal_y danger_adjust = None.
Proof.
  intros Hfirst Hres. unfold calculate_distance_costs.
  unfold get_width_in_squares, get_height_in_squares, get_res.
  rewrite Hfirst. cbn [fmap option_fmap option_map mbind option_bind].
  unfold get_resolution. rewrite truncate_small by lra.
  unfold new_map. rewrite decide_False; [reflexivity|].
  unfold EPSILON. lra.
Qed.

(** X18.  A danger grid with a resolution below 1 has no distance costs:
    [get_res] passes the resolution through an [unsigned int], and the map
    of the distances cannot be built with a resolution of 0. *)
Theorem fine_grid_has_no_distance_costs (set_of_aircraft : list Plane)
    (width height resolution : R) (plane_id goal_x goal_y : Z)
    (danger_adjust : R) :
  width > EPSILON -> height > EPSILON -> resolution > EPSILON ->
  resolution < 1 ->
  (1 < truncate (width / resolution) < 2 ^ 32)%Z ->
  (truncate (height / resolution) < 2 ^ 32)%Z ->
  Forall (on_grid (truncate (width / resolution))
                  (truncate (height / resolution)) plane_id)
    set_of_aircraft ->
  exists dg : danger_grid,
    new_danger_grid set_of_aircraft width height resolution plane_id =
      Some dg /\
    calculate_distance_costs dg goal_x goal_y danger_adjust = None.
Proof.
  intros Hw Hh Hr Hfine HW HH Hplanes.
  destruct (new_danger_grid_good set_of_aircraft width height resolution
              plane_id Hw Hh Hr HW HH Hplanes)
    as (dg & set_up & E & Emap & _ & _ & _ & Hpast).
  destruct (new_map_spec width height resolution Hw Hh Hr HW HH)
    as (set_up' & Emap' & _ & _ & Hres & _).
  rewrite Emap in Emap'. inversion Emap'; subst set_up'.
  exists dg. split; [exact E|].
  apply (calculate_distance_costs_fine dg set_up).
  - apply Hpast. unfold look_behind. lia.
  - rewrite Hres. unfold EPSILON in Hr. lra.
Qed.

Lemma fine_grid_has_no_distance_costs_witness :
  5 > EPSILON /\ 1 / 2 > EPSILON /\
  exists dg : danger_grid,
    new_danger_grid [] 5 5 (1 / 2) 0 = Some dg /\
    calculate_distance_costs dg 0 0 1 = None.
Proof.
  assert (5 > EPSILON) as H5 by (unfold EPSILON; lra).
  assert (1 / 2 > EPSILON) as H1 by (unfold EPSILON; lra).
  split; [exact H5|]. split; [exact H1|].
  assert (truncate (5 / (1 / 2)) = 10%Z) as Ht by (apply truncate_spec; lra).
  apply (fine_grid_has_no_distance_costs [] 5 5 (1 / 2) 0 0 0 1 H5 H5 H1);
    rewrite ?Ht; try lia; try lra.
  constructor.
Defined.

(** ** The maps that [fill_danger_space] leaves alone *)

Lemma on_slice_other (space : list map) (time : Z) (f : map -> option map)
    (space' : list map) :
  on_slice space time f = Some space' ->
  forall t : Z, t <> time -> vec_at space' t = vec_at space t.
Proof.
  unfold on_slice.
  destruct (vec_at space time) as [m|] eqn:Em; [|discriminate].
  cbn [mbind option_bind]. destruct (f m) as [m'|]; [|discriminate].
  cbn [mbind option_bind]. intros E t Hne. inversion E.
  apply vec_at_Some in Em as [Ht Em]. apply lookup_lt_Some in Em.
  rewrite vec_at_insert by lia. rewrite decide_False by exact Hne.
  reflexivity.
Qed.

(** One statement on a map of the danger space, in a run that returned. *)
Ltac step_on_slice H :=
  match type of H with
  | (on_slice ?s ?t ?f ≫= _) = Some _ =>
      let E := fresh "E" in
      let K := fresh "K" in
      destruct (on_slice s t f) eqn:E; [|discriminate H];
      pose proof (on_slice_other _ _ _ _ E) as K; clear E;
      cbn [mbind option_bind] in H
  end.

(** The maps that the steps of a run left alone. *)
Ltac other_maps :=
  repeat match goal with
         | K : forall t : Z, t <> _ -> vec_at _ t = vec_at _ t |- _ =>
             rewrite K by lia; clear K
         end.

Lemma set_danger_field_other (bearing d : R) (x y time : Z)
    (space space' : list map) :
  set_danger_field bearing d x y time space = Some space' ->
  forall t : Z, t <> time -> vec_at space' t = vec_at space t.
Proof.
  unfold set_danger_field. intros E t Hne.
  do 7 step_on_slice E. rewrite (on_slice_other _ _ _ _ E) by exact Hne.
  repeat match goal with
         | K : forall t : Z, t <> _ -> vec_at _ t = vec_at _ t |- _ =>
             rewrite K by exact Hne; clear K
         end.
  reflexivity.
Qed.

Lemma fill_estimate_keeps (ratings : list R) (bearing : R) (t : Z)
    (space : list map) (e : estimate) (t' : Z) (space' : list map) :
  fill_estimate ratings bearing (t, space) e = Some (t', space') ->
  (1 <= t)%Z ->
  (1 <= t')%Z /\
  forall k : Z, (k <= look_behind)%Z -> vec_at space' k = vec_at space k.
Proof.
  unfold fill_estimate. intros E Ht.
  rewrite (to_int_small look_ahead) in E by (unfold look_ahead; lia).
  case_decide as Hahead; [|inversion E; subst; auto].
  destruct (vec_at space 0) as [first|]; [|discriminate].
  cbn [mbind option_bind] in E.
  case_decide as Hin; [|inversion E; subst; split; [lia|auto]].
  destruct (adjust_danger ratings t) as [rating|]; [|discriminate].
  cbn [mbind option_bind] in E.
  unfold look_ahead, look_behind in *.
  rewrite (wrap32_small (t + 2)) in E by lia.
  rewrite (to_int_small (t + 2)) in E by lia.
  step_on_slice E.
  destruct (set_danger_field bearing (edanger e * rating)
              (wrap32 (ex e)) (wrap32 (ey e)) (t + 2) l) eqn:E1;
    [|discriminate].
  cbn [mbind option_bind] in E. inversion E. subst.
  split; [lia|]. intros k Hk.
  rewrite (set_danger_field_other _ _ _ _ _ _ _ E1) by lia.
  other_maps. reflexivity.
Qed.

Lemma fill_walk_keeps (ratings : list R) (bearing : R)
    (estimates : list estimate) (t : Z) (space : list map) (t' : Z)
    (space' : list map) :
  for_each (fill_estimate ratings bearing) estimates (t, space) =
    Some (t', space') ->
  (1 <= t)%Z ->
  forall k : Z, (k <= look_behind)%Z -> vec_at space' k = vec_at space k.
Proof.
  intros E Ht.
  apply (for_each_preserves (fill_estimate ratings bearing)
           (fun st => (1 <= st.1)%Z /\
              forall k : Z, (k <= look_behind)%Z ->
                vec_at st.2 k = vec_at space k)
           estimates) with (s := (t, space)) (s' := (t', space')).
  - intros [t0 space0] e [t1 space1] [Ht0 Hk0] E0. cbn [fst snd] in *.
    destruct (fill_estimate_keeps _ _ _ _ _ _ _ E0 Ht0) as [Ht1 Hk1].
    split; [exact Ht1|]. intros k Hk. rewrite Hk1 by exact Hk. auto.
  - cbn [fst snd]. auto.
  - exact E.
Qed.

(** What the loop body of [fill_danger_space] does to the map of the
    present second. *)
Lemma fill_plane_marks (W H : Z) (set_up : map) (plane_id : Z) (pd : R)
    (space : list map) (current_plane : Plane) :
  (W < 2 ^ 32)%Z -> (H < 2 ^ 32)%Z -> 0 <= pd ->
  good_space W H set_up space ->
  on_grid W H plane_id current_plane ->
  exists space' : list map,
    fill_plane plane_id pd (set_danger_scale pd) space current_plane =
      Some space' /\
    good_space W H set_up space' /\
    forall i j : Z, (0 <= i < W)%Z -> (0 <= j < H)%Z ->
      cell space' look_behind i j =
      (fun v => v + pd * INR (occupants plane_id [current_plane] i j))
        <$> cell space look_behind i j.
Proof.
  intros HW HH Hpd G Hloc.
  destruct (fill_plane_good W H set_up plane_id pd space current_plane
              HW HH Hpd G Hloc) as (space' & E & G').
  exists space'. split; [exact E|]. split; [exact G'|].
  intros i j Hi Hj. unfold occupants. cbn [filter list_filter].
  unfold fill_plane in E. case_decide as Hid.
  - destruct (Hloc Hid) as [Hx Hy].
    destruct (on_slice_add W H space (uadd 0 look_behind)
                (wrap32 (getX (getLocation current_plane)))
                (wrap32 (getY (getLocation current_plane))) pd)
      as (space1 & E1 & _ & _ & Hcell1 & _); try assumption.
    { apply G. }
    { destruct G as (Gl & _). rewrite Gl. vm_compute.
      split; [discriminate|reflexivity]. }
    rewrite E1 in E. cbn [mbind option_bind] in E.
    destruct (calculate_future_pos current_plane 0)
      as [[est_to_avoid est_break]|] eqn:Eavoid; [|discriminate].
    cbn [mbind option_bind] in E.
    destruct (calculate_future_pos current_plane est_break)
      as [[est_to_goal dummy]|]; [|discriminate].
    cbn [mbind option_bind] in E.
    destruct (for_each (fill_estimate (set_danger_scale pd)
                          (getBearing current_plane)) est_to_avoid
                (1%Z, space1)) as [[t1 space2]|] eqn:Ewalk1; [|discriminate].
    cbn [mbind option_bind] in E.
    destruct (for_each (fill_estimate (set_danger_scale pd)
                          (getBearing current_plane)) est_to_goal
                ((est_break + 1)%Z, space2)) as [[t2 space3]|] eqn:Ewalk2;
      [|discriminate].
    cbn [mbind option_bind] in E. inversion E. subst space3.
    destruct (calculate_future_pos_ok current_plane 0 ltac:(lia))
      as (a & b & Eok & _ & Hbreak).
    rewrite Eavoid in Eok. inversion Eok. subst a b.
    unfold cell.
    rewrite (fill_walk_keeps _ _ _ _ _ _ _ Ewalk2) by lia.
    rewrite (fill_walk_keeps _ _ _ _ _ _ _ Ewalk1) by lia.
    fold (cell space1 look_behind i j). fold (cell space look_behind i j).
    rewrite Hcell1 by (unfold look_behind; lia).
    change (uadd 0 look_behind) with look_behind.
    destruct (cell space look_behind i j) as [v|]; [|reflexivity].
    cbn [fmap option_fmap option_map]. f_equal.
    destruct (decide (wrap32 (getX (getLocation current_plane)) = i /\
                      wrap32 (getY (getLocation current_plane)) = j))
      as [[Ex Ey]|Hne].
    + rewrite decide_True by auto. rewrite decide_True by auto.
      cbn [length INR]. lra.
    + rewrite decide_False by (intros (_ & Ex & Ey); auto).
      rewrite decide_False by (intros (_ & Ex & Ey); auto).
      cbn [length INR]. lra.
  - inversion E. subst space'.
    rewrite decide_False by (intros (Hid' & _); contradiction).
    cbn [length INR]. destruct (cell space look_behind i j); [|reflexivity].
    cbn [fmap option_fmap option_map]. f_equal. lra.
Qed.

Lemma occupants_cons (plane_id : Z) (p : Plane) (rest : list Plane) (i j : Z) :
  INR (occupants plane_id (p :: rest) i j) =
  INR (occupants plane_id [p] i j) + INR (occupants plane_id rest i j).
Proof.
  unfold occupants. cbn [filter list_filter].
  case_decide; cbn [length].
  - rewrite S_INR. change (INR 1) with 1. apply Rplus_comm.
  - change (INR 0) with 0. symmetry. apply Rplus_0_l.
Qed.

Lemma fill_danger_space_marks (W H : Z) (set_up : map) (plane_id : Z)
    (pd : R) (set_of_aircraft : list Plane) :
  (W < 2 ^ 32)%Z -> (H < 2 ^ 32)%Z -> 0 <= pd ->
  Forall (on_grid W H plane_id) set_of_aircraft ->
  forall space : list map,
    good_space W H set_up space ->
    exists space' : list map,
      fill_danger_space plane_id pd (set_danger_scale pd) set_of_aircraft
        space = Some space' /\
      good_space W H set_up space' /\
      forall i j : Z, (0 <= i < W)%Z -> (0 <= j < H)%Z ->
        cell space' look_behind i j =
        (fun v => v + pd * INR (occupants plane_id set_of_aircraft i j))
          <$> cell space look_behind i j.
Proof.
  intros HW HH Hpd Hplanes. unfold fill_danger_space.
  induction Hplanes as [|p rest Hp Hrest IH]; intros space G.
  - exists space. split; [reflexivity|]. split; [exact G|].
    intros i j Hi Hj. unfold occupants. cbn [filter list_filter length INR].
    destruct (cell space look_behind i j); [|reflexivity].
    cbn [fmap option_fmap option_map]. f_equal. lra.
  - destruct (fill_plane_marks W H set_up plane_id pd space p HW HH Hpd G Hp)
      as (space1 & E1 & G1 & Hcell1).
    destruct (IH space1 G1) as (space' & E & G' & Hcell).
    exists space'. cbn [for_each]. rewrite E1. cbn [mbind option_bind].
    split; [exact E|]. split; [exact G'|].
    intros i j Hi Hj. rewrite Hcell, Hcell1 by assumption.
    destruct (cell space look_behind i j); [|reflexivity].
    cbn [fmap option_fmap option_map]. f_equal.
    rewrite (occupants_cons plane_id p rest). lra.
Qed.

(** X19.  At the present second a fresh danger grid holds, at every square,
    [plane_danger] once for each aircraft other than the owner that is in
    the square, and nothing else: no estimate is written to second 0. *)
Theorem present_second_counts_aircraft (set_of_aircraft : list Plane)
    (width height resolution : R) (plane_id x_pos y_pos : Z) :
  width > EPSILON -> height > EPSILON -> resolution > EPSILON ->
  (1 < truncate (width / resolution) < 2 ^ 32)%Z ->
  (truncate (height / resolution) < 2 ^ 32)%Z ->
  Forall (on_grid (truncate (width / resolution))
                  (truncate (height / resolution)) plane_id)
    set_of_aircraft ->
  (0 <= x_pos < truncate (width / resolution))%Z ->
  (0 <= y_pos < truncate (height / resolution))%Z ->
  exists dg : danger_grid,
    new_danger_grid set_of_aircraft width height resolution plane_id =
      Some dg /\
    get_danger_at dg x_pos y_pos 0 =
      Some (plane_danger dg *
            INR (occupants plane_id set_of_aircraft x_pos y_pos)).
Proof.
  intros Hw Hh Hr HW HH Hplanes Hx Hy. unfold new_danger_grid.
  destruct (new_map_spec width height resolution Hw Hh Hr HW HH)
    as (set_up & -> & Hshape & Hnn & _ & Hzero).
  cbn [mbind option_bind].
  set (W := truncate (width / resolution)) in *.
  set (H := truncate (height / resolution)) in *.
  set (pd := sqrt _ * _).
  assert (0 <= pd) as Hpd by apply plane_danger_nonneg.
  set (space := replicate (Z.to_nat (look_ahead + look_behind + 1)) set_up).
  assert (forall t : Z, (0 <= t < look_ahead + look_behind + 1)%Z ->
            vec_at space t = Some set_up) as Hspace.
  { intros t Ht. unfold vec_at. case_decide; [|lia].
    apply lookup_replicate_2. lia. }
  destruct (fill_danger_space_marks W H set_up plane_id pd set_of_aircraft
              ltac:(lia) HH Hpd Hplanes space)
    as (space' & -> & _ & Hcell).
  { split; [apply length_replicate|].
    split; [apply Forall_replicate, Hshape|].
    split; [apply Forall_replicate, Hnn|].
    intros t Ht. apply Hspace. unfold look_ahead, look_behind in *. lia. }
  cbn [mbind option_bind]. eexists. split; [reflexivity|].
  rewrite get_danger_at_cell by (unfold look_ahead, look_behind; lia).
  cbn [danger_space plane_danger].
  change (0 + look_behind)%Z with look_behind.
  rewrite Hcell by assumption. unfold cell at 1.
  rewrite Hspace by (unfold look_ahead, look_behind; lia).
  cbn [mbind option_bind]. rewrite Hzero by assumption.
  cbn [fmap option_fmap option_map]. f_equal. lra.
Qed.

Lemma present_second_counts_aircraft_witness :
  let plane := mkPlane 1 (mkPosition 9 9) (mkPosition 0 0) (mkPosition 0 0)
                 (-45) (-45) in
  10 > EPSILON /\ 1 > EPSILON /\
  exists dg : danger_grid,
    new_danger_grid [plane; plane] 10 10 1 0 = Some dg /\
    get_danger_at dg 9 9 0 =
      Some (plane_danger dg * INR (occupants 0 [plane; plane] 9 9)).
Proof.
  intros plane.
  assert (10 > EPSILON) as H10 by (unfold EPSILON; lra).
  assert (1 > EPSILON) as H1 by (unfold EPSILON; lra).
  split; [exact H10|]. split; [exact H1|].
  pose proof (truncate_whole 10 ltac:(lia)) as Ht.
  apply (present_second_counts_aircraft [plane; plane] 10 10 1 0 9 9
           H10 H10 H1);
    rewrite ?Ht; try lia.
  constructor; [|constructor; [|constructor]]; intros _; vm_compute;
    repeat split; discriminate || reflexivity.
Defined.

(** X20.  The aircraft with the identifier of the owner are left out: the
    danger space is filled as if they were not in the set. *)
Theorem fill_danger_space_skips_owner (plane_id : Z) (plane_danger : R)
    (ratings : list R) (set_of_aircraft : list Plane) (space : list map) :
  fill_danger_space plane_id plane_danger ratings set_of_aircraft space =
  fill_danger_space plane_id plane_danger ratings
    (filter (fun p => getId p <> to_int plane_id) set_of_aircraft) space.
Proof.
  unfold fill_danger_space. revert space.
  induction set_of_aircraft as [|p rest IH]; intros space; [reflexivity|].
  cbn [filter list_filter for_each].
  destruct (decide (getId p <> to_int plane_id)) as [Hid|Hid].
  - cbn [for_each].
    destruct (fill_plane plane_id plane_danger ratings space p);
      cbn [mbind option_bind]; [apply IH|reflexivity].
  - assert (fill_plane plane_id plane_danger ratings space p = Some space)
      as ->.
    { unfold fill_plane. rewrite decide_False by exact Hid. reflexivity. }
    cbn [mbind option_bind]. apply IH.
Qed.

(** ** More aircraft, more danger *)

Lemma below_refl (W H : Z) (space : list map) : below W H space space.
Proof. intros t i j v _ _ _ Hv. exists v. split; [exact Hv|lra]. Qed.

Lemma below_trans (W H : Z) (s1 s2 s3 : list map) :
  below W H s1 s2 -> below W H s2 s3 -> below W H s1 s3.
Proof.
  intros H12 H23 t i j v Ht Hi Hj Hv.
  destruct (H12 t i j v Ht Hi Hj Hv) as (v2 & Hv2 & Hle2).
  destruct (H23 t i j v2 Ht Hi Hj Hv2) as (v3 & Hv3 & Hle3).
  exists v3. split; [exact Hv3|lra].
Qed.

Lemma adds_below (W H : Z) (space space' : list map) (time x y : Z) (d : R) :
  adds W H space space' time x y d -> 0 <= d -> below W H space space'.
Proof.
  intros (_ & _ & Hcell & _) Hd t i j v Ht Hi Hj Hv.
  rewrite Hcell, Hv by assumption. cbn [fmap option_fmap option_map].
  eexists. split; [reflexivity|]. case_decide; lra.
Qed.

Lemma set_danger_field_raises (W H : Z) (set_up : map)
    (space0 space : list map) (bearing d : R) (x y time : Z) :
  good_space W H set_up space -> below W H space0 space ->
  0 <= d ->
  (look_behind <= time < look_ahead + look_behind + 1)%Z ->
  exists space' : list map,
    set_danger_field bearing d x y time space = Some space' /\
    good_space W H set_up space' /\ below W H space0 space'.
Proof.
  intros G B Hd Ht. unfold set_danger_field.
  assert (0 <= d * field_weight) as Hd'.
  { unfold field_weight. apply Rmult_le_pos; lra. }
  assert (forall sp a b,
            good_space W H set_up sp /\ below W H space0 sp ->
            exists sp', on_slice sp time
                          (fun m => safely_add_danger_at m a b (d * field_weight))
                        = Some sp' /\
                        (good_space W H set_up sp' /\ below W H space0 sp'))
    as Hstep.
  { intros sp a b [Gsp Bsp].
    destruct (on_slice_safely_add W H sp time a b (d * field_weight))
      as (sp' & Hon & Hadds).
    - apply Gsp.
    - destruct Gsp as (Gl & _). rewrite Gl.
      unfold look_behind, look_ahead in *. lia.
    - exists sp'. split; [exact Hon|]. split.
      + eapply adds_good; eauto. lia.
      + apply (below_trans _ _ _ _ _ Bsp), (adds_below _ _ _ _ _ _ _ _ Hadds Hd'). }
  destruct (Hstep space (usub x 1) (uadd y 1) (conj G B)) as (s1 & -> & G1).
  cbn [mbind option_bind].
  destruct (Hstep s1 (usub x 1) y G1) as (s2 & -> & G2).
  cbn [mbind option_bind].
  destruct (Hstep s2 (usub x 1) (usub y 1) G2) as (s3 & -> & G3).
  cbn [mbind option_bind].
  destruct (Hstep s3 x (usub y 1) G3) as (s4 & -> & G4).
  cbn [mbind option_bind].
  destruct (Hstep s4 (uadd x 1) (usub y 1) G4) as (s5 & -> & G5).
  cbn [mbind option_bind].
  destruct (Hstep s5 (uadd x 1) y G5) as (s6 & -> & G6).
  cbn [mbind option_bind].
  destruct (Hstep s6 (uadd x 1) (uadd y 1) G6) as (s7 & -> & G7).
  cbn [mbind option_bind].
  destruct (Hstep s7 x (uadd y 1) G7) as (s8 & -> & G8 & B8).
  exists s8. auto.
Qed.

Lemma fill_estimate_raises (W H : Z) (set_up : map) (pd bearing : R)
    (space0 : list map) (t : Z) (space : list map) (e : estimate) :
  (W < 2 ^ 32)%Z -> (H < 2 ^ 32)%Z -> 0 <= pd ->
  (1 <= t)%Z -> good_space W H set_up space -> below W H space0 space ->
  est_ok e ->
  exists (t' : Z) (space' : list map),
    fill_estimate (set_danger_scale pd) bearing (t, space) e =
      Some (t', space') /\
    (1 <= t')%Z /\ good_space W H set_up space' /\ below W H space0 space'.
Proof.
  intros HW HH Hpd Ht G B He.
  destruct (decide (t <= look_ahead)%Z) as [Hahead|Hahead].
  - destruct (good_space_first W H set_up space G)
      as (first & Hfirst & (Hw & Hh & _)).
    destruct (decide ((ex e >= 0)%Z /\
                      (ex e < to_int (squares_wide first))%Z /\
                      (ey e >= 0)%Z /\
                      (ey e < to_int (squares_high first))%Z /\
                      edanger e > - EPSILON)) as [Hin|Hout].
    + destruct Hin as (Hx0 & Hx1 & Hy0 & Hy1 & Hd).
      assert (0 <= edanger e) as Hd0.
      { destruct He as [He|He]; [unfold EPSILON in Hd; lra|lra]. }
      unfold fill_estimate.
      rewrite (to_int_small look_ahead) by (unfold look_ahead; lia).
      rewrite decide_True by exact Hahead.
      rewrite Hfirst. cbn [mbind option_bind].
      rewrite decide_True by (repeat split; assumption).
      rewrite Hw in Hx1. rewrite Hh in Hy1.
      assert (0 <= W)%Z as HW0 by (unfold to_int in Hx1; case_decide; lia).
      assert (0 <= H)%Z as HH0 by (unfold to_int in Hy1; case_decide; lia).
      pose proof (to_int_le W ltac:(lia)) as HWle.
      pose proof (to_int_le H ltac:(lia)) as HHle.
      unfold look_ahead, look_behind in *.
      rewrite (wrap32_small (t + 2)) by lia.
      rewrite (wrap32_small (ex e)) by lia.
      rewrite (wrap32_small (ey e)) by lia.
      rewrite (to_int_small (t + 2)) by lia.
      rewrite adjust_danger_scale by (unfold look_ahead, look_behind; lia).
      cbn [mbind option_bind].
      assert (0 <= edanger e * pd) as Hdpd by (apply Rmult_le_pos; assumption).
      destruct (on_slice_add W H space (t + 2) (ex e) (ey e) (edanger e * pd))
        as (space1 & -> & Hadds).
      * apply G.
      * destruct G as (Gl & _). rewrite Gl.
        unfold look_ahead, look_behind. lia.
      * lia.
      * lia.
      * cbn [mbind option_bind].
        assert (good_space W H set_up space1) as G1.
        { eapply adds_good; eauto. unfold look_behind. lia. }
        assert (below W H space0 space1) as B1.
        { apply (below_trans _ _ _ _ _ B),
            (adds_below _ _ _ _ _ _ _ _ Hadds Hdpd). }
        destruct (set_danger_field_raises W H set_up space0 space1 bearing
                    (edanger e * pd) (ex e) (ey e) (t + 2) G1 B1 Hdpd)
          as (space2 & -> & G2 & B2).
        { unfold look_ahead, look_behind. lia. }
        cbn [mbind option_bind]. exists t, space2. auto.
    + exists (t + 1)%Z, space.
      split; [|split; [lia|split; assumption]].
      apply (fill_estimate_marker_branch _ _ _ _ first); assumption.
  - exists t, space. split; [|auto].
    unfold fill_estimate.
    rewrite (to_int_small look_ahead) by (unfold look_ahead; lia).
    case_decide; [lia|reflexivity].
Qed.

Lemma fill_walk_raises (W H : Z) (set_up : map) (pd bearing : R)
    (space0 : list map) (t : Z) (space : list map)
    (estimates : list estimate) :
  (W < 2 ^ 32)%Z -> (H < 2 ^ 32)%Z -> 0 <= pd ->
  (1 <= t)%Z -> good_space W H set_up space -> below W H space0 space ->
  Forall est_ok estimates ->
  exists (t' : Z) (space' : list map),
    for_each (fill_estimate (set_danger_scale pd) bearing) estimates
      (t, space) = Some (t', space') /\
    good_space W H set_up space' /\ below W H space0 space'.
Proof.
  intros HW HH Hpd Ht G B He.
  destruct (for_each_inv (fill_estimate (set_danger_scale pd) bearing)
              (fun st => (1 <= st.1)%Z /\ good_space W H set_up st.2 /\
                         below W H space0 st.2)
              est_ok estimates (t, space))
    as ([t' space'] & Hrun & _ & G' & B').
  - intros [t0 sp0] e (Ht0 & G0 & B0) Hok. cbn [fst snd] in *.
    destruct (fill_estimate_raises W H set_up pd bearing space0 t0 sp0 e)
      as (t1 & sp1 & Hs & Ht1 & G1 & B1); try assumption.
    exists (t1, sp1). auto.
  - cbn [fst snd]. auto.
  - exact He.
  - exists t', space'. auto.
Qed.

Lemma fill_plane_raises (W H : Z) (set_up : map) (plane_id : Z) (pd : R)
    (space0 space : list map) (current_plane : Plane) :
  (W < 2 ^ 32)%Z -> (H < 2 ^ 32)%Z -> 0 <= pd ->
  good_space W H set_up space /\ below W H space0 space ->
  on_grid W H plane_id current_plane ->
  exists space' : list map,
    fill_plane plane_id pd (set_danger_scale pd) space current_plane =
      Some space' /\
    (good_space W H set_up space' /\ below W H space0 space').
Proof.
  intros HW HH Hpd [G B] Hloc. unfold fill_plane.
  case_decide as Hid; [|exists space; auto].
  destruct (Hloc Hid) as [Hx Hy].
  destruct (on_slice_add W H space (uadd 0 look_behind)
              (wrap32 (getX (getLocation current_plane)))
              (wrap32 (getY (getLocation current_plane))) pd)
    as (space1 & -> & Hadds); try assumption.
  { apply G. }
  { destruct G as (Gl & _). rewrite Gl. vm_compute.
    split; [discriminate|reflexivity]. }
  cbn [mbind option_bind].
  assert (good_space W H set_up space1) as G1.
  { eapply adds_good; eauto. vm_compute. discriminate. }
  assert (below W H space0 space1) as B1.
  { apply (below_trans _ _ _ _ _ B), (adds_below _ _ _ _ _ _ _ _ Hadds Hpd). }
  destruct (calculate_future_pos_ok current_plane 0 ltac:(lia))
    as (est_to_avoid & est_break & -> & Hok1 & Hbreak).
  cbn [mbind option_bind].
  destruct (calculate_future_pos_ok current_plane est_break Hbreak)
    as (est_to_goal & dummy & -> & Hok2 & _).
  cbn [mbind option_bind].
  destruct (fill_walk_raises W H set_up pd (getBearing current_plane) space0
              1 space1 est_to_avoid) as (t1 & space2 & -> & G2 & B2);
    try assumption; [lia|].
  cbn [mbind option_bind].
  destruct (fill_walk_raises W H set_up pd (getBearing current_plane) space0
              (est_break + 1) space2 est_to_goal)
    as (t2 & space3 & -> & G3 & B3);
    try assumption; [lia|].
  cbn [mbind option_bind]. exists space3. auto.
Qed.

Lemma for_each_app {A St : Type} (body : St -> A -> option St)
    (l l' : list A) (s : St) :
  for_each body (l ++ l') s = s1 ← for_each body l s; for_each body l' s1.
Proof.
  revert s. induction l as [|a l IH]; intros s; [reflexivity|].
  cbn [app for_each]. destruct (body s a); [apply IH|reflexivity].
Qed.

(** X21.  More aircraft never make a square safer: a danger grid built for
    a set of aircraft and more has, at every square and second, at least the
    danger of the grid built for the set alone. *)
Theorem more_aircraft_more_danger (set_of_aircraft more : list Plane)
    (width height resolution : R) (plane_id x_pos y_pos seconds : Z) :
  width > EPSILON -> height > EPSILON -> resolution > EPSILON ->
  (1 < truncate (width / resolution) < 2 ^ 32)%Z ->
  (truncate (height / resolution) < 2 ^ 32)%Z ->
  Forall (on_grid (truncate (width / resolution))
                  (truncate (height / resolution)) plane_id)
    (set_of_aircraft ++ more) ->
  (0 <= x_pos < truncate (width / resolution))%Z ->
  (0 <= y_pos < truncate (height / resolution))%Z ->
  (- look_behind <= seconds <= look_ahead)%Z ->
  exists (dg dg' : danger_grid) (v v' : R),
    new_danger_grid set_of_aircraft width height resolution plane_id =
      Some dg /\
    new_danger_grid (set_of_aircraft ++ more) width height resolution
      plane_id = Some dg' /\
    get_danger_at dg x_pos y_pos seconds = Some v /\
    get_danger_at dg' x_pos y_pos seconds = Some v' /\
    v <= v'.
Proof.
  intros Hw Hh Hr HW HH Hplanes Hx Hy Hsec.
  apply Forall_app in Hplanes as [Hset Hmore].
  unfold new_danger_grid.
  destruct (new_map_spec width height resolution Hw Hh Hr HW HH)
    as (set_up & -> & Hshape & Hnn & _ & Hzero).
  cbn [mbind option_bind]. unfold fill_danger_space.
  set (W := truncate (width / resolution)) in *.
  set (H := truncate (height / resolution)) in *.
  set (pd := sqrt _ * _).
  assert (0 <= pd) as Hpd by apply plane_danger_nonneg.
  set (space0 := replicate (Z.to_nat (look_ahead + look_behind + 1)) set_up).
  assert (good_space W H set_up space0) as G0.
  { split; [apply length_replicate|].
    split; [apply Forall_replicate, Hshape|].
    split; [apply Forall_replicate, Hnn|].
    intros t Ht. unfold space0, vec_at. case_decide; [|lia].
    apply lookup_replicate_2. unfold look_ahead, look_behind in *. lia. }
  destruct (for_each_inv (fill_plane plane_id pd (set_danger_scale pd))
              (good_space W H set_up) (on_grid W H plane_id)
              set_of_aircraft space0) as (space1 & Hrun1 & G1).
  { intros s p Gs Hp. apply fill_plane_good; try assumption. lia. }
  { exact G0. }
  { exact Hset. }
  destruct (for_each_inv (fill_plane plane_id pd (set_danger_scale pd))
              (fun sp => good_space W H set_up sp /\ below W H space1 sp)
              (on_grid W H plane_id) more space1)
    as (space2 & Hrun2 & G2 & B2).
  { intros s p Gs Hp. apply fill_plane_raises; try assumption. lia. }
  { split; [exact G1|apply below_refl]. }
  { exact Hmore. }
  rewrite for_each_app, Hrun1. cbn [mbind option_bind]. rewrite Hrun2.
  cbn [mbind option_bind].
  assert (0 <= seconds + look_behind < look_ahead + look_behind + 1)%Z
    as Ht by (unfold look_ahead, look_behind in *; lia).
  destruct (good_space_cell W H set_up space1 (seconds + look_behind)
              x_pos y_pos G1 Ht Hx Hy) as (v & Hv & _).
  destruct (B2 (seconds + look_behind)%Z x_pos y_pos v ltac:(lia) Hx Hy Hv)
    as (v' & Hv' & Hle).
  eexists _, _, v, v'. split; [reflexivity|]. split; [reflexivity|].
  rewrite !get_danger_at_cell by assumption. cbn [danger_space].
  auto.
Qed.

Lemma more_aircraft_more_danger_witness :
  let plane := mkPlane 1 (mkPosition 9 9) (mkPosition 0 0) (mkPosition 0 0)
                 (-45) (-45) in
  let other := mkPlane 2 (mkPosition 3 9) (mkPosition 0 0) (mkPosition 0 0)
                 (-45) (-45) in
  10 > EPSILON /\ 1 > EPSILON /\
  exists (dg dg' : danger_grid) (v v' : R),
    new_danger_grid [plane] 10 10 1 0 = Some dg /\
    new_danger_grid ([plane] ++ [other]) 10 10 1 0 = Some dg' /\
    get_danger_at dg 3 8 1 = Some v /\
    get_danger_at dg' 3 8 1 = Some v' /\
    v <= v'.
Proof.
  intros plane other.
  assert (10 > EPSILON) as H10 by (unfold EPSILON; lra).
  assert (1 > EPSILON) as H1 by (unfold EPSILON; lra).
  split; [exact H10|]. split; [exact H1|].
  pose proof (truncate_whole 10 ltac:(lia)) as Ht.
  apply (more_aircraft_more_danger [plane] [other] 10 10 1 0 3 8 1
           H10 H10 H1);
    rewrite ?Ht; try lia; try (unfold look_ahead, look_behind; lia).
  constructor; [|constructor; [|constructor]]; intros _; vm_compute;
    repeat split; discriminate || reflexivity.
Defined.

(** ** The steps of the projector *)

Lemma sqrt2_facts : 0 < sqrt 2 /\ sqrt 2 * sqrt 2 = 2.
Proof.
  split; [apply sqrt_lt_R0; lra|apply sqrt_sqrt; lra].
Qed.

(** The sine of a bearing against the sine of 45 degrees. *)
Lemma sine_of_bearing_octant (xd yd : R) :
  0 <= xd -> 0 <= yd -> ~ (xd = 0 /\ yd = 0) ->
  (yd <= xd -> 1 / sqrt 2 <= xd / sqrt (xd * xd + yd * yd)) /\
  (xd <= yd -> xd / sqrt (xd * xd + yd * yd) <= 1 / sqrt 2).
Proof.
  intros Hx Hy Hne.
  destruct (sine_of_bearing_range xd yd Hx Hy Hne) as [HD _].
  destruct sqrt2_facts as [Hs Hss].
  set (D := sqrt (xd * xd + yd * yd)) in *.
  assert (D * D = xd * xd + yd * yd) as HDD.
  { apply sqrt_sqrt. nra. }
  split; intros Hle.
  - assert (D <= xd * sqrt 2) as HDle.
    { destruct (Rle_lt_dec D (xd * sqrt 2)) as [H|H]; [exact H|]. exfalso.
      assert (0 <= xd * sqrt 2) as H0 by (apply Rmult_le_pos; lra).
      assert (xd * sqrt 2 * (xd * sqrt 2) < D * D) as Hsq by nra.
      replace (xd * sqrt 2 * (xd * sqrt 2)) with (xd * xd * (sqrt 2 * sqrt 2))
        in Hsq by ring.
      rewrite Hss, HDD in Hsq. nra. }
    apply Rmult_le_reg_r with (D * sqrt 2); [apply Rmult_lt_0_compat; lra|].
    replace (1 / sqrt 2 * (D * sqrt 2)) with D by (field; lra).
    replace (xd / D * (D * sqrt 2)) with (xd * sqrt 2) by (field; lra).
    exact HDle.
  - assert (xd * sqrt 2 <= D) as HDle.
    { destruct (Rle_lt_dec (xd * sqrt 2) D) as [H|H]; [exact H|]. exfalso.
      assert (D * D < xd * sqrt 2 * (xd * sqrt 2)) as Hsq by nra.
      replace (xd * sqrt 2 * (xd * sqrt 2)) with (xd * xd * (sqrt 2 * sqrt 2))
        in Hsq by ring.
      rewrite Hss, HDD in Hsq. nra. }
    apply Rmult_le_reg_r with (D * sqrt 2); [apply Rmult_lt_0_compat; lra|].
    replace (1 / sqrt 2 * (D * sqrt 2)) with D by (field; lra).
    replace (xd / D * (D * sqrt 2)) with (xd * sqrt 2) by (field; lra).
    exact HDle.
Qed.

Lemma asin_octant (v : R) :
  0 <= v <= 1 ->
  (1 / sqrt 2 <= v -> 45 <= RADtoDEGREES * asin v) /\
  (v <= 1 / sqrt 2 -> RADtoDEGREES * asin v <= 45).
Proof.
  intros Hv.
  pose proof (asin_bound v) as [Hlo Hhi].
  pose proof PI_RGT_0 as Hpi.
  assert (forall r : R, RADtoDEGREES * r = r / PI * 180) as Hdeg.
  { intros r. unfold RADtoDEGREES. rewrite PI_const_eq. field. lra. }
  assert (forall r : R, r / PI * PI = r) as Hcancel.
  { intros r. field. lra. }
  rewrite Hdeg. split; intros Hle.
  - assert (PI / 4 <= asin v) as H.
    { destruct (Rle_lt_dec (PI / 4) (asin v)) as [H|H]; [exact H|]. exfalso.
      assert (sin (asin v) < sin (PI / 4)) as Hs.
      { apply sin_increasing_1; lra. }
      rewrite sin_PI4, sin_asin in Hs by lra. lra. }
    assert (1 / 4 <= asin v / PI); [|lra].
    apply Rmult_le_reg_r with PI; [lra|]. rewrite Hcancel. lra.
  - assert (asin v <= PI / 4) as H.
    { destruct (Rle_lt_dec (asin v) (PI / 4)) as [H|H]; [exact H|]. exfalso.
      assert (sin (PI / 4) < sin (asin v)) as Hs.
      { apply sin_increasing_1; lra. }
      rewrite sin_PI4, sin_asin in Hs by lra. lra. }
    assert (asin v / PI <= 1 / 4); [|lra].
    apply Rmult_le_reg_r with PI; [lra|]. rewrite Hcancel. lra.
Qed.

(** The bearing of a step, with the octant that it lies in. *)
Lemma angle_to_octant (x1 y1 x2 y2 : Z) :
  ~ (x1 = x2 /\ y1 = y2) ->
  exists a : R,
    0 <= a <= 90 /\ (x1 = x2 -> a = 0) /\ (y1 = y2 -> a = 90) /\
    (a < 45 -> (Z.abs (x2 - x1) < Z.abs (y2 - y1))%Z) /\
    (45 < a -> (Z.abs (y2 - y1) < Z.abs (x2 - x1))%Z) /\
    angle_to x1 y1 x2 y2 =
      (if decide (x2 - x1 < 0)%Z then -1 else 1) *
      (if decide (y2 < y1)%Z then a else 180 - a).
Proof.
  intros Hne.
  set (xd := Rabs (IZR x2 - IZR x1)).
  set (yd := Rabs (IZR y2 - IZR y1)).
  assert (xd = IZR (Z.abs (x2 - x1))) as Exd.
  { unfold xd. rewrite abs_IZR, minus_IZR. reflexivity. }
  assert (yd = IZR (Z.abs (y2 - y1))) as Eyd.
  { unfold yd. rewrite abs_IZR, minus_IZR. reflexivity. }
  assert (~ (xd = 0 /\ yd = 0)) as Hne'.
  { intros H. apply Hne. apply at_destination_iff. exact H. }
  destruct (sine_of_bearing_range xd yd (Rabs_pos _) (Rabs_pos _) Hne')
    as [Hs Hv].
  destruct (sine_of_bearing_octant xd yd (Rabs_pos _) (Rabs_pos _) Hne')
    as [Hge Hle].
  destruct (asin_octant _ Hv) as [Hge' Hle'].
  exists (RADtoDEGREES * asin (xd / sqrt (xd * xd + yd * yd))).
  split; [apply asin_degrees_range; exact Hv|].
  split; [|split; [|split; [|split]]].
  - intros ->. subst xd. rewrite Rminus_diag, Rabs_R0.
    unfold Rdiv. rewrite Rmult_0_l, asin_0. lra.
  - intros ->. subst yd. rewrite Rminus_diag, Rabs_R0.
    replace (xd * xd + 0 * 0) with (xd * xd) by lra.
    rewrite sqrt_square by apply Rabs_pos.
    assert (xd <> 0) as Hx0.
    { intros E. apply Hne'. split; [exact E|].
      rewrite Rminus_diag, Rabs_R0. reflexivity. }
    unfold Rdiv. rewrite Rinv_r by exact Hx0. rewrite asin_1.
    unfold RADtoDEGREES. rewrite PI_const_eq.
    pose proof PI_RGT_0. field. lra.
  - intros Ha. apply lt_IZR. rewrite <- Exd, <- Eyd.
    destruct (Rle_lt_dec yd xd) as [H|H]; [|exact H].
    specialize (Hge' (Hge H)). lra.
  - intros Ha. apply lt_IZR. rewrite <- Exd, <- Eyd.
    destruct (Rle_lt_dec xd yd) as [H|H]; [|exact H].
    specialize (Hle' (Hle H)). lra.
  - unfold angle_to. fold xd yd.
    repeat case_decide; lra.
Qed.

(** A step towards the bearing of the destination takes one off the larger
    coordinate difference. *)
Lemma toward_chebyshev (x1 y1 x2 y2 dx dy : Z) :
  ~ (x1 = x2 /\ y1 = y2) ->
  toward (angle_to x1 y1 x2 y2) dx dy ->
  chebyshev (x1 + dx) (y1 + dy) x2 y2 = (chebyshev x1 y1 x2 y2 - 1)%Z.
Proof.
  intros Hne Ht. unfold chebyshev.
  destruct (angle_to_octant x1 y1 x2 y2 Hne)
    as (a & Ha & Hx & Hy & Hlt & Hgt & Heq).
  rewrite Heq in Ht. clear Heq. unfold toward in Ht.
  destruct Ht as [Hdy Hdx].
  destruct (decide (x1 = x2)) as [Ex|Ex]; [specialize (Hx Ex)|clear Hx];
  destruct (decide (y1 = y2)) as [Ey|Ey];
    [tauto|clear Hy|specialize (Hy Ey)|clear Hy];
  repeat case_decide;
  destruct Hdy as [[-> Hdy]|[[-> Hdy]|[-> Hdy]]];
  destruct Hdx as [[-> [Hdx|Hdx]]|[[-> Hdx]|[-> Hdx]]];
  try (exfalso; abs_cases; lra);
  try (assert (a < 45) as Hlt' by (abs_cases; lra); specialize (Hlt Hlt'));
  try (assert (45 < a) as Hgt' by (abs_cases; lra); specialize (Hgt Hgt'));
  clear Hdy Hdx; lia.
Qed.

Lemma recursion_steps_unique (x2 y2 : Z) (e : estimate)
    (steps steps' : list estimate) :
  recursion_steps x2 y2 e steps -> recursion_steps x2 y2 e steps' ->
  steps' = steps.
Proof.
  intros Hsteps. revert steps'.
  induction Hsteps as [e Hx Hy|e a b rest Hne Hp Hrest IH];
    intros steps' Hsteps'.
  - inversion Hsteps'; subst; [reflexivity|tauto].
  - inversion Hsteps' as [|e' a' b' rest' Hne' Hp' Hrest']; subst; [tauto|].
    rewrite Hp in Hp'. inversion Hp'; subst.
    f_equal. f_equal. f_equal. apply IH. exact Hrest'.
Qed.

(** The first estimate of a step: its risk is the ceiling, and its square
    is one nearer to the destination. *)
Lemma step_pair_first (x1 y1 x2 y2 : Z) :
  ~ (x1 = x2 /\ y1 = y2) ->
  exists a b : estimate,
    step_pair x1 y1 x2 y2 = [a; b] /\
    edanger a = 4 / 10 /\ 0 <= edanger b <= 4 / 10 /\
    chebyshev (ex a) (ey a) x2 y2 = (chebyshev x1 y1 x2 y2 - 1)%Z.
Proof.
  intros Hne. unfold step_pair.
  pose proof (closest_other_sector (angle_to x1 y1 x2 y2) 0 0
                (angle_to_range _ _ _ _ Hne)) as Hs.
  destruct (neighoboringAngles _ 0 0) as [n0 n1].
  destruct (closest_other _ n0 n1) as [c o].
  pose proof (displacement_sector _ _ _ Hs) as Hd.
  destruct (placeDanger_sector _ [] _ _ x1 y1
              (displacement (angle_to x1 y1 x2 y2) c o) Hs)
    as (x' & y' & q & Heq & Ht).
  rewrite Heq. cbn [app].
  eexists _, _. split; [reflexivity|]. cbn [edanger ex ey].
  split; [apply clamp_half; lra|]. split; [apply clamp_range; lra|].
  pose proof (toward_chebyshev x1 y1 x2 y2 _ _ Hne Ht) as Hc.
  replace (x1 + (x' - x1))%Z with x' in Hc by lia.
  replace (y1 + (y' - y1))%Z with y' in Hc by lia.
  exact Hc.
Qed.

Lemma chebyshev_zero (x1 y1 x2 y2 : Z) :
  chebyshev x1 y1 x2 y2 = 0%Z <-> x1 = x2 /\ y1 = y2.
Proof. unfold chebyshev. lia. Qed.

Lemma recursion_steps_chebyshev (x2 y2 : Z) (e : estimate)
    (steps : list estimate) :
  recursion_steps x2 y2 e steps ->
  seconds_of steps = chebyshev (ex e) (ey e) x2 y2 /\
  Z.of_nat (length steps) = (3 * chebyshev (ex e) (ey e) x2 y2)%Z.
Proof.
  induction 1 as [e Hx Hy|e a b rest Hne Hp Hrest [IH1 IH2]].
  - assert (chebyshev (ex e) (ey e) x2 y2 = 0%Z) as ->
      by (apply chebyshev_zero; auto).
    split; reflexivity.
  - destruct (step_pair_first _ _ _ _ Hne) as (a' & b' & Hp' & _ & _ & Hc).
    rewrite Hp in Hp'. inversion Hp'; subst a' b'.
    rewrite seconds_of_cons, IH1, Hc. cbn [length].
    split; lia.
Qed.

(** X22.  [dangerRecurse] takes one second for each square of the larger
    coordinate difference between its start and the destination, and
    appends three estimates, the marker last, for every second. *)
Theorem dangerRecurse_takes_chebyshev (e : estimate) (destination : Z * Z)
    (theFuture : list estimate) (time : Z) :
  let seconds :=
    chebyshev (ex e) (ey e) (fst destination) (snd destination) in
  exists steps : list estimate,
    (forall extra : nat,
       dangerRecurse (dangerRecurse_budget e destination + extra) e
         destination theFuture time =
       Some (theFuture ++ steps, (time + seconds)%Z)) /\
    Z.of_nat (length steps) = (3 * seconds)%Z /\
    forall k : Z, (0 <= k < seconds)%Z -> vec_at steps (3 * k + 2) = Some marker.
Proof.
  cbv zeta. destruct destination as [x2 y2]. cbn [fst snd].
  destruct (dangerRecurse_runs (dangerRecurse_budget e (x2, y2)) e x2 y2
              theFuture time) as (steps & Hsteps & _).
  { unfold dangerRecurse_budget, manhattan. simpl. lia. }
  destruct (recursion_steps_chebyshev _ _ _ _ Hsteps) as [Hsec Hlen].
  exists steps. split; [|split; [exact Hlen|]].
  - intros extra.
    destruct (dangerRecurse_runs (dangerRecurse_budget e (x2, y2) + extra)
                e x2 y2 theFuture time) as (steps' & Hsteps' & Hrun).
    { unfold dangerRecurse_budget, manhattan. simpl. lia. }
    rewrite Hrun, (recursion_steps_unique _ _ _ _ _ Hsteps Hsteps'), Hsec.
    reflexivity.
  - clear Hsec Hlen.
    induction Hsteps as [e Hx Hy|e a b rest Hne Hp Hrest IH]; intros k Hk.
    + assert (chebyshev (ex e) (ey e) x2 y2 = 0%Z)
        by (apply chebyshev_zero; auto). lia.
    + destruct (step_pair_first _ _ _ _ Hne) as (a' & b' & Hp' & _ & _ & Hc).
      rewrite Hp in Hp'. inversion Hp'; subst a' b'.
      destruct (decide (k = 0%Z)) as [->|Hk0]; [reflexivity|].
      replace (3 * k + 2)%Z with (Z.of_nat (length [a; b; marker]) +
                                  (3 * (k - 1) + 2))%Z
        by (cbn [length]; lia).
      change (a :: b :: marker :: rest) with ([a; b; marker] ++ rest).
      rewrite vec_at_app_r by lia. apply IH. lia.
Qed.

(** X23.  After the ceiling the two estimates of a step do not share a
    probability of 1: the risk of the first is the ceiling 0.4 exactly, at
    every bearing, and the two risks sum to 0.8 at most. *)
Theorem placeDanger_risks_capped (x1 y1 x2 y2 : Z) (e : list estimate) :
  ~ (x1 = x2 /\ y1 = y2) ->
  let angle := angle_to x1 y1 x2 y2 in
  let neighbors := neighoboringAngles angle 0 0 in
  let closestAngle := fst (closest_other angle neighbors.1 neighbors.2) in
  let otherAngle := snd (closest_other angle neighbors.1 neighbors.2) in
  let danger := displacement angle closestAngle otherAngle in
  exists a b : estimate,
    placeDanger angle e closestAngle otherAngle x1 y1 danger = e ++ [a; b] /\
    edanger a = dangerCeiling /\
    edanger b = Rmin (1 - danger) dangerCeiling /\
    edanger a + edanger b <= 8 / 10.
Proof.
  intros Hne. cbv zeta.
  pose proof (closest_other_sector (angle_to x1 y1 x2 y2) 0 0
                (angle_to_range _ _ _ _ Hne)) as Hs.
  destruct (neighoboringAngles _ 0 0) as [n0 n1]. cbn [fst snd].
  destruct (closest_other _ n0 n1) as [c o]. cbn [fst snd].
  pose proof (displacement_sector _ _ _ Hs) as Hd.
  destruct (placeDanger_shape (angle_to x1 y1 x2 y2) e c o x1 y1
              (displacement (angle_to x1 y1 x2 y2) c o)) as (p & q & ->).
  eexists _, _. split; [reflexivity|]. cbn [edanger].
  rewrite clamp_half by lra. unfold dangerCeiling.
  split; [reflexivity|].
  unfold clamp, dangerCeiling, Rmin.
  case_decide; destruct (Rle_dec _ _); split; lra.
Qed.

Lemma placeDanger_risks_capped_witness :
  ~ (5 = 5 /\ 5 = 1)%Z /\
  let angle := angle_to 5 5 5 1 in
  let neighbors := neighoboringAngles angle 0 0 in
  let closestAngle := fst (closest_other angle neighbors.1 neighbors.2) in
  let otherAngle := snd (closest_other angle neighbors.1 neighbors.2) in
  let danger := displacement angle closestAngle otherAngle in
  exists a b : estimate,
    placeDanger angle [] closestAngle otherAngle 5 5 danger = [] ++ [a; b] /\
    edanger a = dangerCeiling /\
    edanger b = Rmin (1 - danger) dangerCeiling /\
    edanger a + edanger b <= 8 / 10.
Proof.
  split; [lia|].
  apply (placeDanger_risks_capped 5 5 5 1 []). lia.
Defined.

(** ** The seconds of a projection *)

Lemma displacement_at_closest (angle closestAngle otherAngle : R) :
  sector angle closestAngle otherAngle -> angle = closestAngle ->
  displacement angle closestAngle otherAngle = 1.
Proof.
  intros Hs ->. unfold displacement.
  destruct Hs; repeat case_decide; try lra;
    try (exfalso; tauto); try (field; lra).
Qed.

(** The second estimate of a step, off the eight bearings of the compass:
    its square is one nearer to the destination, too. *)
Lemma placeDanger_second (x1 y1 x2 y2 : Z) (c o d : R) (e : list estimate) :
  ~ (x1 = x2 /\ y1 = y2) ->
  sector (angle_to x1 y1 x2 y2) c o ->
  angle_to x1 y1 x2 y2 <> c ->
  exists a b : estimate,
    placeDanger (angle_to x1 y1 x2 y2) e c o x1 y1 d = e ++ [a; b] /\
    chebyshev (ex b) (ey b) x2 y2 = (chebyshev x1 y1 x2 y2 - 1)%Z.
Proof.
  intros Hne Hs Hoff. unfold chebyshev.
  destruct (angle_to_octant x1 y1 x2 y2 Hne)
    as (a & Ha & Hx & Hy & Hlt & Hgt & Heq).
  set (A := angle_to x1 y1 x2 y2) in *. clearbody A.
  unfold placeDanger.
  destruct Hs; repeat case_decide;
    repeat match goal with H : _ /\ _ |- _ => destruct H end;
    try lra;
    try (exfalso; match goal with H : ~ (_ /\ _) |- _ => apply H; split; lra end);
    (eexists _, _; split; [reflexivity|]); cbn [ex ey];
    (destruct (decide (x1 = x2)) as [Ex|Ex]; [specialize (Hx Ex)|clear Hx]);
    (destruct (decide (y1 = y2)) as [Ey|Ey];
       [try tauto; specialize (Hy Ey)|clear Hy]);
    try (exfalso; lra);
    try (assert (a < 45) as Hlt' by lra; specialize (Hlt Hlt'));
    try (assert (45 < a) as Hgt' by lra; specialize (Hgt Hgt'));
    lia.
Qed.

(** The estimate that [calculate_future_pos] goes on from after its own
    step is one square nearer to the destination, whichever it is. *)
Lemma step_pair_start (x1 y1 x2 y2 : Z) :
  ~ (x1 = x2 /\ y1 = y2) ->
  exists a b : estimate,
    step_pair x1 y1 x2 y2 = [a; b] /\
    0 <= edanger a /\ 0 <= edanger b /\
    let start := if decide (edanger b > 3 / 10) then b else a in
    chebyshev (ex start) (ey start) x2 y2 = (chebyshev x1 y1 x2 y2 - 1)%Z.
Proof.
  intros Hne.
  destruct (step_pair_first x1 y1 x2 y2 Hne)
    as (a & b & Hp & Ha & Hb & Hc).
  exists a, b. split; [exact Hp|]. split; [lra|]. split; [lra|].
  cbv zeta. case_decide as Hrisk; [|exact Hc].
  unfold step_pair in Hp.
  pose proof (closest_other_sector (angle_to x1 y1 x2 y2) 0 0
                (angle_to_range _ _ _ _ Hne)) as Hs.
  destruct (neighoboringAngles _ 0 0) as [n0 n1].
  destruct (closest_other _ n0 n1) as [c o].
  destruct (placeDanger_shape (angle_to x1 y1 x2 y2) [] c o x1 y1
              (displacement (angle_to x1 y1 x2 y2) c o)) as (p & q & Hshape).
  assert (angle_to x1 y1 x2 y2 <> c) as Hoff.
  { intros E. pose proof (displacement_at_closest _ _ _ Hs E) as Hd.
    rewrite Hshape, Hd in Hp. cbn [app] in Hp. inversion Hp. subst b.
    cbn [edanger] in Hrisk. rewrite clamp_zero in Hrisk. lra. }
  destruct (placeDanger_second x1 y1 x2 y2 c o
              (displacement (angle_to x1 y1 x2 y2) c o) [] Hne Hs Hoff)
    as (a' & b' & Hp' & Hc').
  rewrite Hp in Hp'. cbn [app] in Hp'. inversion Hp'. subst a' b'.
  exact Hc'.
Qed.

Lemma seconds_stream_length (l : list estimate) (n : Z) :
  seconds_stream l n -> Z.of_nat (length l) = (3 * n + 2)%Z.
Proof.
  induction 1 as [a b Ha Hb|a b rest n Ha Hb Hrest IH]; [reflexivity|].
  cbn [length]. lia.
Qed.

Lemma recursion_steps_stream (x2 y2 : Z) (e : estimate)
    (steps : list estimate) :
  recursion_steps x2 y2 e steps ->
  forall (rest : list estimate) (n : Z),
    seconds_stream rest n ->
    seconds_stream (steps ++ rest) (n + seconds_of steps).
Proof.
  induction 1 as [e Hx Hy|e a b steps Hne Hp Hsteps IH]; intros rest n Hrest.
  - change (seconds_of []) with 0%Z. rewrite Z.add_0_r. exact Hrest.
  - destruct (step_pair_first _ _ _ _ Hne) as (a' & b' & Hp' & Ha & Hb & _).
    rewrite Hp in Hp'. inversion Hp'; subst a' b'.
    rewrite seconds_of_cons.
    replace (n + (1 + seconds_of steps))%Z with (n + seconds_of steps + 1)%Z
      by lia.
    cbn [app]. constructor; [lra|lra|]. apply IH, Hrest.
Qed.

Lemma ahead_of_goal_stream (angle n0 n1 : R) (x2 y2 : Z)
    (theFuture : list estimate) :
  exists tail : list estimate,
    ahead_of_goal angle n0 n1 x2 y2 theFuture = Some (theFuture ++ tail) /\
    seconds_stream tail 2.
Proof.
  unfold ahead_of_goal.
  destruct (neighoboringAngles angle n0 n1) as [m0 m1].
  destruct (closest_other angle m0 m1) as [c o].
  destruct (placeDanger_shape angle theFuture c o x2 y2 1) as (p1 & q1 & ->).
  rewrite <- (assoc_L (++)). cbn [app].
  rewrite vec_at_third_last. cbn [mbind option_bind ex ey].
  destruct (placeDanger_shape angle
              (theFuture ++ [Estimate p1.1 p1.2 (clamp 1);
                             Estimate q1.1 q1.2 (clamp (1 - 1)); marker])
              c o p1.1 p1.2 1) as (p2 & q2 & ->).
  rewrite <- (assoc_L (++) _ [_; _] [marker]). cbn [app].
  rewrite vec_at_third_last. cbn [mbind option_bind ex ey].
  destruct (placeDanger_shape angle
              ((theFuture ++ [Estimate p1.1 p1.2 (clamp 1);
                              Estimate q1.1 q1.2 (clamp (1 - 1)); marker]) ++
               [Estimate p2.1 p2.2 (clamp 1);
                Estimate q2.1 q2.2 (clamp (1 - 1)); marker])
              c o p2.1 p2.2 1) as (p3 & q3 & ->).
  rewrite <- !(assoc_L (++)). cbn [app].
  eexists. split; [reflexivity|].
  rewrite clamp_one, clamp_zero.
  apply (stream_more _ _ _ 1); cbn [edanger]; try lra.
  apply (stream_more _ _ _ 0); cbn [edanger]; try lra.
  apply stream_last; cbn [edanger]; lra.
Qed.

(** X24.  On the way to a destination that the plane is not at,
    [calculate_future_pos] counts one second for each square of the larger
    coordinate difference.  Its estimates come in pairs, one pair for each
    of these seconds and three pairs more, past the destination, with a
    marker after every pair but the last. *)
Theorem calculate_future_pos_seconds (plane : Plane) (time : Z) :
  let leg :=
    if decide (time = 0)%Z then (getLocation plane, getDestination plane)
    else (getDestination plane, getFinalDestination plane) in
  let seconds :=
    chebyshev (getX leg.1) (getY leg.1) (getX leg.2) (getY leg.2) in
  (0 < seconds)%Z ->
  exists theFuture : list estimate,
    calculate_future_pos plane time = Some (theFuture, (time + seconds)%Z) /\
    seconds_stream theFuture (seconds + 2) /\
    Z.of_nat (length theFuture) = (3 * seconds + 8)%Z.
Proof.
  cbv zeta. unfold calculate_future_pos.
  destruct (if decide (time = 0)%Z
            then (getLocation plane, getDestination plane)
            else (getDestination plane, getFinalDestination plane))
    as [current destination]. cbn [fst snd].
  set (x1 := getX current). set (y1 := getY current).
  set (x2 := getX destination). set (y2 := getY destination).
  intros Hfar.
  assert (~ (x1 = x2 /\ y1 = y2)) as Hne.
  { intros E. apply chebyshev_zero in E. lia. }
  case_decide as Hat; [exfalso; apply Hne, at_destination_iff, Hat|].
  destruct (step_pair_start x1 y1 x2 y2 Hne)
    as (a & b & Hp & Ha & Hb & Hc).
  cbv zeta in Hc. unfold step_pair in Hp.
  destruct (neighoboringAngles (angle_to x1 y1 x2 y2) 0 0) as [n0 n1].
  destruct (closest_other _ n0 n1) as [c o].
  rewrite Hp. change ([a; b] ++ [marker]) with [a; b; marker].
  rewrite choose_branch_first. cbn [mbind option_bind].
  set (start := if decide (edanger b > 3 / 10) then b else a) in *.
  destruct (dangerRecurse_runs (dangerRecurse_budget start (x2, y2)) start
              x2 y2 [a; b; marker] (time + 1))
    as (steps & Hsteps & Hrun).
  { unfold dangerRecurse_budget, manhattan. simpl. lia. }
  rewrite Hrun. cbn [mbind option_bind].
  destruct (recursion_steps_chebyshev _ _ _ _ Hsteps) as [Hsec Hlen].
  destruct (ahead_of_goal_stream (getBearingToDest plane) n0 n1 x2 y2
              ([a; b; marker] ++ steps)) as (tail & -> & Htail).
  cbn [mbind option_bind]. eexists. split; [|split].
  - f_equal. f_equal. lia.
  - rewrite <- (assoc_L (++)). cbn [app].
    replace (chebyshev x1 y1 x2 y2 + 2)%Z
      with (2 + seconds_of steps + 1)%Z by lia.
    constructor; [exact Ha|exact Hb|].
    apply (recursion_steps_stream _ _ _ _ Hsteps), Htail.
  - rewrite !length_app. cbn [length].
    pose proof (seconds_stream_length _ _ Htail). lia.
Qed.

Lemma calculate_future_pos_seconds_witness :
  let plane := mkPlane 1 (mkPosition 9 9) (mkPosition 2 5) (mkPosition 0 0)
                 (-45) (-45) in
  exists theFuture : list estimate,
    calculate_future_pos plane 0 = Some (theFuture, (0 + 7)%Z) /\
    seconds_stream theFuture (7 + 2) /\
    Z.of_nat (length theFuture) = (3 * 7 + 8)%Z.
Proof.
  intros plane. apply (calculate_future_pos_seconds plane 0). vm_compute.
  reflexivity.
Defined.

(** ** The two bearings of the compass next to a bearing *)

(** X25.  Of the two multiples of 45 degrees that [neighoboringAngles] finds
    around a bearing, the one taken for the closest is the nearer one: it is
    within 22.5 degrees of the bearing, the other one is 45 degrees from it,
    on the other side of the bearing. *)
Theorem closest_angle_is_nearest (angle first second : R) :
  -180 <= angle <= 180 ->
  let neighbors := neighoboringAngles angle first second in
  let closestAngle := fst (closest_other angle neighbors.1 neighbors.2) in
  let otherAngle := snd (closest_other angle neighbors.1 neighbors.2) in
  Rabs (angle - closestAngle) <= 45 / 2 /\
  Rabs (angle - closestAngle) <= Rabs (angle - otherAngle) /\
  Rabs (angle - closestAngle) + Rabs (angle - otherAngle) = 45 /\
  Rabs (closestAngle - otherAngle) = 45.
Proof.
  intros Hrange. cbv zeta.
  pose proof (closest_other_sector angle first second Hrange) as Hs.
  destruct (neighoboringAngles angle first second) as [n0 n1].
  cbn [fst snd].
  destruct (closest_other angle n0 n1) as [c o]. cbn [fst snd].
  destruct Hs; abs_cases; lra.
Qed.

Lemma closest_angle_is_nearest_witness :
  let neighbors := neighoboringAngles 30 0 0 in
  let closestAngle := fst (closest_other 30 neighbors.1 neighbors.2) in
  let otherAngle := snd (closest_other 30 neighbors.1 neighbors.2) in
  Rabs (30 - closestAngle) <= 45 / 2 /\
  Rabs (30 - closestAngle) <= Rabs (30 - otherAngle) /\
  Rabs (30 - closestAngle) + Rabs (30 - otherAngle) = 45 /\
  Rabs (closestAngle - otherAngle) = 45.
Proof. apply (closest_angle_is_nearest 30 0 0). lra. Defined.

(** ** The course generator *)

Lemma write_line_inside (rand : nat -> Z) (num_planes min_alt max_alt : Z)
    (id : Z) (calls : nat) :
  (forall n : nat, 0 <= rand n < 2 ^ 31)%Z ->
  (0 <= min_alt < max_alt)%Z -> (max_alt < 2 ^ 32)%Z ->
  (0 <= id < num_planes)%Z ->
  exists l : course.line,
    course.write_line rand min_alt max_alt id calls = Some (l, (calls + 3)%nat) /\
    inside_field num_planes min_alt max_alt l.
Proof.
  intros Hrand Halt Hmax Hid. unfold course.write_line.
  assert (usub max_alt min_alt = (max_alt - min_alt)%Z) as Esub.
  { unfold usub. apply wrap32_small. lia. }
  rewrite Esub. rewrite decide_False by lia.
  replace (S (S (S calls))) with (calls + 3)%nat by lia.
  eexists. split; [reflexivity|].
  pose proof (Hrand calls) as H1. pose proof (Hrand (S calls)) as H2.
  pose proof (Hrand (S (S calls))) as H3.
  pose proof (Z.rem_bound_pos (rand calls) 5652999 ltac:(lia) ltac:(lia))
    as [Hlo1 Hhi1].
  pose proof (Z.rem_bound_pos (rand (S calls)) 4515999 ltac:(lia) ltac:(lia))
    as [Hlo2 Hhi2].
  apply IZR_le in Hlo1, Hlo2. apply IZR_lt in Hhi1, Hhi2.
  unfold inside_field. cbn [course.id course.latitude course.longitude
                            course.altitude].
  unfold course.upper_left_latitude, course.height_in_degrees_latitude,
    course.upper_left_longitude, course.width_in_degrees_longitude.
  split; [exact Hid|]. split; [lra|]. split; [lra|].
  eexists. split; [reflexivity|].
  rewrite (wrap32_small (rand (S (S calls)))) by lia.
  pose proof (Z.mod_pos_bound (rand (S (S calls))) (max_alt - min_alt)
                ltac:(lia)) as Hmod.
  unfold uadd. rewrite wrap32_small by lia. lia.
Qed.

Lemma write_inside (rand : nat -> Z) (num_planes min_alt max_alt : Z)
    (id : Z) (lines : list course.line) (calls : nat) :
  (forall n : nat, 0 <= rand n < 2 ^ 31)%Z ->
  (0 <= min_alt < max_alt)%Z -> (max_alt < 2 ^ 32)%Z ->
  (0 <= id < num_planes)%Z ->
  Forall (inside_field num_planes min_alt max_alt) lines ->
  exists (lines' : list course.line) (calls' : nat),
    course.write rand min_alt max_alt (lines, calls) id =
      Some (lines', calls') /\
    Forall (inside_field num_planes min_alt max_alt) lines' /\
    length lines' = S (length lines).
Proof.
  intros Hrand Halt Hmax Hid Hlines. unfold course.write. cbn [fst snd].
  destruct (write_line_inside rand num_planes min_alt max_alt id calls
              Hrand Halt Hmax Hid) as (l & -> & Hl).
  cbn [mbind option_bind]. eexists _, _. split; [reflexivity|].
  split.
  - apply Forall_app. split; [exact Hlines|]. constructor; [exact Hl|].
    constructor.
  - rewrite length_app. cbn [length]. lia.
Qed.

(** X26.  With an altitude range that is not empty the generator writes one
    line for the start of every plane and one for each of its waypoints;
    every line lies inside the airfield, at a whole altitude from the
    minimum up to the maximum, which it does not reach. *)
Theorem courses_inside_field (rand : nat -> Z)
    (num_planes num_waypts min_alt max_alt : Z) :
  (forall n : nat, 0 <= rand n < 2 ^ 31)%Z ->
  (0 <= num_planes)%Z -> (0 <= num_waypts)%Z ->
  (0 <= min_alt < max_alt)%Z -> (max_alt < 2 ^ 32)%Z ->
  exists lines : list course.line,
    course.courses rand num_planes num_waypts min_alt max_alt = Some lines /\
    Z.of_nat (length lines) = (num_planes * (1 + num_waypts))%Z /\
    Forall (inside_field num_planes min_alt max_alt) lines.
Proof.
  intros Hrand Hplanes Hwaypts Halt Hmax. unfold course.courses.
  replace (seqZ 0 num_planes)
    with (seqZ 0 (Z.of_nat (Z.to_nat num_planes)))
    by (rewrite Z2Nat.id; auto).
  replace (seqZ 0 num_waypts)
    with (seqZ 0 (Z.of_nat (Z.to_nat num_waypts)))
    by (rewrite Z2Nat.id; auto).
  destruct (for_each_seqZ (course.write rand min_alt max_alt)
    (fun k st => Forall (inside_field num_planes min_alt max_alt) st.1 /\
                 Z.of_nat (length st.1) = k)
    (Z.to_nat num_planes) 0%Z ([], O)) as ([lines1 calls1] & -> & H1 & Hl1).
  { split; [constructor|reflexivity]. }
  { intros k [lines calls] Hk [Hin Hlen]. cbn [fst] in *.
    destruct (write_inside rand num_planes min_alt max_alt k lines calls
                Hrand Halt Hmax ltac:(lia) Hin)
      as (lines' & calls' & -> & Hin' & Hlen').
    eexists. split; [reflexivity|]. cbn [fst]. split; [exact Hin'|lia]. }
  cbn [fst] in H1, Hl1. cbn [mbind option_bind].
  destruct (for_each_seqZ
    (fun st id =>
       for_each (fun st crnt_waypt => course.write rand min_alt max_alt st id)
         (seqZ 0 (Z.of_nat (Z.to_nat num_waypts))) st)
    (fun k st => Forall (inside_field num_planes min_alt max_alt) st.1 /\
                 Z.of_nat (length st.1) = (num_planes + k * num_waypts)%Z)
    (Z.to_nat num_planes) 0%Z (lines1, calls1))
    as ([lines2 calls2] & -> & H2 & Hl2).
  { cbn [fst]. split; [exact H1|lia]. }
  { intros k st Hk [Hin Hlen].
    destruct (for_each_seqZ
      (fun st crnt_waypt => course.write rand min_alt max_alt st k)
      (fun w st => Forall (inside_field num_planes min_alt max_alt) st.1 /\
                   Z.of_nat (length st.1) =
                   (num_planes + k * num_waypts + w)%Z)
      (Z.to_nat num_waypts) 0%Z st) as (st' & -> & Hin' & Hlen').
    { split; [exact Hin|lia]. }
    { intros w [lines calls] Hw [Hinw Hlenw]. cbn [fst] in *.
      destruct (write_inside rand num_planes min_alt max_alt k lines calls
                  Hrand Halt Hmax ltac:(lia) Hinw)
        as (lines' & calls' & -> & Hinw' & Hlenw').
      eexists. split; [reflexivity|]. cbn [fst]. split; [exact Hinw'|lia]. }
    exists st'. split; [reflexivity|]. split; [exact Hin'|]. lia. }
  cbn [fst] in H2, Hl2. cbn [mbind option_bind fst].
  exists lines2. split; [reflexivity|]. split; [lia|exact H2].
Qed.

Lemma courses_inside_field_witness :
  exists lines : list course.line,
    course.courses (fun n => Z.of_nat n mod 32768)%Z 32 20 1400 1401 =
      Some lines /\
    Z.of_nat (length lines) = (32 * (1 + 20))%Z /\
    Forall (inside_field 32 1400 1401) lines.
Proof.
  apply (courses_inside_field (fun n => Z.of_nat n mod 32768)%Z 32 20
           1400 1401); try lia.
  intros n. pose proof (Z.mod_pos_bound (Z.of_nat n) 32768 ltac:(lia)). lia.
Defined.

(** X27.  A minimum and a maximum altitude that are equal pass the checks
    of the dialogue, but no course is written: the altitude of the first
    line is a remainder by zero. *)
Theorem courses_need_altitude_range (rand : nat -> Z)
    (num_planes num_waypts alt : Z) :
  course.settings_accepted num_planes num_waypts alt alt ->
  course.courses rand num_planes num_waypts alt alt = None.
Proof.
  intros (_ & Hplanes & _). unfold course.courses.
  rewrite (seqZ_cons 0 num_planes) by lia. cbn [for_each].
  assert (course.write rand alt alt ([], O) 0 = None) as ->; [|reflexivity].
  unfold course.write, course.write_line. cbn [snd].
  unfold usub. rewrite Z.sub_diag. change (wrap32 0) with 0%Z.
  rewrite decide_True by reflexivity. reflexivity.
Qed.

Lemma courses_need_altitude_range_witness :
  course.courses (fun n => Z.of_nat n) 32 20 1400 1400 = None.
Proof.
  apply courses_need_altitude_range. unfold course.settings_accepted. lia.
Defined.

(** ** The earlier danger grid *)

(** One [safely_add_danger_at] of the field of the earlier version. *)
Ltac field_step W H :=
  match goal with
  | Hs : space_shape W H ?sp, Hl : (0 <= ?time < Z.of_nat (length ?sp))%Z
    |- context [on_slice ?sp ?time
                  (fun m => safely_add_danger_at m ?a ?b ?d)] =>
      let s := fresh "s" in
      let Hl' := fresh "Hl" in
      let Hs' := fresh "Hs" in
      let Hc := fresh "Hc" in
      destruct (on_slice_safely_add W H sp time a b d Hs Hl)
        as (s & -> & Hl' & Hs' & Hc & _);
      cbn [mbind option_bind];
      rewrite <- Hl' in Hl; clear Hl' Hs
  end.

(** X28.  In the earlier version the field of a predicted square lies on the
    side that the aircraft flies to: of the 8 squares around (x, y), the 5
    that are not behind it for the named bearing of the aircraft receive
    the danger, the 3 behind it receive nothing. *)
Theorem earlier_field_lies_ahead (W H : Z) (space : list map)
    (bearing : map_tools.bearing_t) (d : R) (x y time : Z) :
  space_shape W H space ->
  (W < 2 ^ 32)%Z -> (H < 2 ^ 32)%Z ->
  (0 <= x < W)%Z -> (0 <= y < H)%Z ->
  (0 <= time < Z.of_nat (length space))%Z ->
  exists space' : list map,
    earlier.danger_field bearing d x y time space = Some space' /\
    forall t i j : Z,
      (0 <= t)%Z -> (0 <= i < W)%Z -> (0 <= j < H)%Z ->
      cell space' t i j =
      (fun v => if decide (t = time /\ neighbour x y i j /\
                           not_behind bearing x y i j)
                then v + d else v) <$> cell space t i j.
Proof.
  intros Hs HW HH Hx Hy Ht. unfold earlier.danger_field.
  pose proof (usub_one x ltac:(lia)) as Hxm.
  pose proof (usub_one y ltac:(lia)) as Hym.
  pose proof (uadd_one x ltac:(lia) ltac:(lia)) as Hxp.
  pose proof (uadd_one y ltac:(lia) ltac:(lia)) as Hyp.
  revert Hxm Hym Hxp Hyp.
  generalize (usub x 1) (usub y 1) (uadd x 1) (uadd y 1).
  intros xm ym xp yp Hxm Hym Hxp Hyp.
  destruct bearing; cbv zeta beta;
    do 5 field_step W H;
    (eexists; split; [reflexivity|]);
    intros t i j Ht0 Hi Hj;
    repeat match goal with
           | Hc : forall t i j : Z, _ -> _ -> _ -> cell _ t i j = _ |- _ =>
               rewrite Hc by assumption; clear Hc
           end;
    (destruct (cell space t i j) as [v|];
       cbn [fmap option_fmap option_map]; [|reflexivity]);
    f_equal; unfold neighbour, not_behind; cbn [heading fst snd];
    repeat match goal with
           | Hs : space_shape _ _ _ |- _ => clear Hs
           | Hl : (0 <= _ < Z.of_nat (length _))%Z |- _ => clear Hl
           end;
    (destruct (decide (t = time)) as [Et|Et];
     [ (destruct (decide (i = x - 1)%Z);
          [|destruct (decide (i = x)); [|destruct (decide (i = x + 1)%Z)]]);
       (destruct (decide (j = y - 1)%Z);
          [|destruct (decide (j = y)); [|destruct (decide (j = y + 1)%Z)]]);
       decide_by_lia; lra
     | decide_by_lia; lra ]).
Qed.

Lemma earlier_field_lies_ahead_witness :
  let set_up := mkMap (replicate 3 (replicate 3 new_square)) 3 3 1 3 3 in
  let space := replicate 23 set_up in
  exists space' : list map,
    earlier.danger_field map_tools.NE 1 1 1 3 space = Some space' /\
    forall t i j : Z,
      (0 <= t)%Z -> (0 <= i < 3)%Z -> (0 <= j < 3)%Z ->
      cell space' t i j =
      (fun v => if decide (t = 3%Z /\ neighbour 1 1 i j /\
                           not_behind map_tools.NE 1 1 i j)
                then v + 1 else v) <$> cell space t i j.
Proof.
  intros set_up space.
  apply (earlier_field_lies_ahead 3 3 space map_tools.NE 1 1 1 3);
    try lia; [|cbn; lia].
  apply Forall_replicate. repeat split.
  apply Forall_replicate. reflexivity.
Defined.

(** ** The costs of the earlier danger grid *)

Lemma costed_change (W H : Z) (old : list map) (adj : R) (goal_x goal_y : Z)
    (P P' : Z -> Z -> Z -> Prop) (space : list map) :
  costed W H old adj goal_x goal_y P space ->
  (forall t i j : Z, (0 <= t < look_ahead)%Z -> (0 <= i < W)%Z ->
     (0 <= j < H)%Z -> P t i j <-> P' t i j) ->
  costed W H old adj goal_x goal_y P' space.
Proof.
  intros (Hl & Hs & Hc) Heq. split; [exact Hl|]. split; [exact Hs|].
  intros t i j Ht Hi Hj.
  destruct (Hc t i j Ht Hi Hj) as (c & Hold & Hyes & Hno).
  exists c. split; [exact Hold|]. split.
  - intros HP Hlt. apply Hyes; [|exact Hlt]. apply Heq; try assumption. lia.
  - intros Hn. apply Hno.
    destruct (decide (t < look_ahead)%Z) as [Hlt|Hlt]; [|right; exact Hlt].
    destruct Hn as [Hn|Hn]; [|right; exact Hn].
    left. intros HP. apply Hn. apply Heq; try assumption. lia.
Qed.

Lemma earlier_cost_step (W H : Z) (old : list map) (adj : R)
    (goal_x goal_y x y k : Z) (space : list map) :
  (0 <= x < W)%Z -> (0 <= y < H)%Z -> (0 <= k < look_ahead)%Z ->
  (look_ahead <= Z.of_nat (length old))%Z ->
  costed W H old adj goal_x goal_y
    (fun t i j => i < x \/ i = x /\ j < y \/ i = x /\ j = y /\ t < k)%Z
    space ->
  exists space' : list map,
    (m ← vec_at space k;
     crnt_danger ← map_get_danger_at m x y;
     on_slice space k (fun m =>
       map_set_danger_at m x y
         (adj * crnt_danger + goal_distance x y goal_x goal_y))) =
      Some space' /\
    costed W H old adj goal_x goal_y
      (fun t i j => i < x \/ i = x /\ j < y \/ i = x /\ j = y /\ t < k + 1)%Z
      space'.
Proof.
  intros Hx Hy Hk Hlold (Hl & Hs & Hc).
  assert (0 <= k < Z.of_nat (length old))%Z as Hk' by lia.
  destruct (Hc k x y Hk' Hx Hy) as (c & Hold & _ & Hno).
  pose proof (Hno ltac:(left; lia)) as Hcur. unfold cell in Hcur.
  destruct (vec_at space k) as [m|]; [|discriminate].
  cbn [mbind option_bind] in *. rewrite Hcur. cbn [mbind option_bind].
  destruct (on_slice_set W H space k x y
              (adj * c + goal_distance x y goal_x goal_y)
              (fun m => map_set_danger_at m x y
                          (adj * c + goal_distance x y goal_x goal_y)))
    as (space' & -> & Hl' & Hs' & Hcell & _); try assumption;
    try reflexivity.
  { rewrite Hl. exact Hk'. }
  exists space'. split; [reflexivity|].
  split; [congruence|]. split; [exact Hs'|].
  intros t i j Ht Hi Hj.
  destruct (Hc t i j Ht Hi Hj) as (c' & Hold' & Hyes' & Hno').
  exists c'. split; [exact Hold'|].
  rewrite Hcell by lia.
  case_decide as E.
  - destruct E as (-> & -> & ->).
    assert (c' = c) as -> by congruence.
    split; [reflexivity|]. intros [Hn|Hn]; exfalso; [apply Hn|]; lia.
  - split.
    + intros HP Hlt. apply Hyes'; [|exact Hlt]. clear - HP E. lia.
    + intros Hn. apply Hno'.
      destruct Hn as [Hn|Hn]; [|right; exact Hn].
      left. clear - Hn. lia.
Qed.

(** X29.  The earlier [calculate_distance_costs] weighs the danger with a
    factor that it takes from the size of the grid by a division of integers,
    a quarter of width plus height rounded down.  It replaces the danger of
    every square of the first [look_ahead] maps, safe squares too, by the
    weighted danger plus the distance to the goal, and leaves the later maps
    as they are. *)
Theorem earlier_costs_weigh_by_grid_size (W H : Z) (space : list map)
    (goal_x goal_y : Z) :
  (0 <= W)%Z -> (0 <= H)%Z -> (W + H < 2 ^ 32)%Z ->
  (look_ahead <= Z.of_nat (length space))%Z ->
  space_shape W H space ->
  exists space' : list map,
    earlier.calculate_distance_costs space goal_x goal_y = Some space' /\
    forall t i j : Z,
      (0 <= t < Z.of_nat (length space))%Z ->
      (0 <= i < W)%Z -> (0 <= j < H)%Z ->
      exists c : R,
        cell space t i j = Some c /\
        cell space' t i j =
          Some (if decide (t < look_ahead)%Z
                then IZR ((W + H) / 4) * c + goal_distance i j goal_x goal_y
                else c).
Proof.
  intros HW HH Hfit Hlen Hs. unfold earlier.calculate_distance_costs.
  destruct (vec_at_in_range space 0) as [first Hfirst].
  { unfold look_ahead in Hlen. lia. }
  assert (map_shape W H first) as (Hw & Hh & _).
  { apply vec_at_Some in Hfirst as [_ Hf].
    exact (Forall_lookup_1 _ _ _ _ Hs Hf). }
  unfold get_width_in_squares, get_height_in_squares.
  rewrite Hfirst. cbn [fmap option_fmap option_map mbind option_bind].
  rewrite Hw, Hh. unfold uadd. rewrite wrap32_small by lia.
  set (adj := IZR ((W + H) / 4)).
  replace (seqZ 0 W) with (seqZ 0 (Z.of_nat (Z.to_nat W)))
    by (rewrite Z2Nat.id; auto).
  replace (seqZ 0 H) with (seqZ 0 (Z.of_nat (Z.to_nat H)))
    by (rewrite Z2Nat.id; auto).
  change (seqZ 0 look_ahead) with (seqZ 0 (Z.of_nat 20)).
  assert (costed W H space adj goal_x goal_y (fun _ _ _ => False) space)
    as Hstart.
  { split; [reflexivity|]. split; [exact Hs|].
    intros t i j Ht Hi Hj.
    destruct (cell_in_range W H space t i j Hs Ht Hi Hj) as [c Hc].
    exists c. split; [exact Hc|]. split; [contradiction|auto]. }
  destruct (for_each_seqZ
    (fun space crnt_x =>
      for_each (fun space crnt_y =>
        for_each (fun space crnt_t =>
          m ← vec_at space crnt_t;
          crnt_danger ← map_get_danger_at m crnt_x crnt_y;
          on_slice space crnt_t (fun m =>
            map_set_danger_at m crnt_x crnt_y
              (adj * crnt_danger +
               goal_distance crnt_x crnt_y goal_x goal_y)))
          (seqZ 0 (Z.of_nat 20)) space)
        (seqZ 0 (Z.of_nat (Z.to_nat H))) space)
    (fun k sp => costed W H space adj goal_x goal_y
                   (fun t i j => i < k)%Z sp)
    (Z.to_nat W) 0%Z space) as (space' & Hrun & Hend).
  - apply (costed_change _ _ _ _ _ _ _ _ _ Hstart). intros; lia.
  - intros x sp Hx Hsp.
    destruct (for_each_seqZ
      (fun space crnt_y =>
        for_each (fun space crnt_t =>
          m ← vec_at space crnt_t;
          crnt_danger ← map_get_danger_at m x crnt_y;
          on_slice space crnt_t (fun m =>
            map_set_danger_at m x crnt_y
              (adj * crnt_danger + goal_distance x crnt_y goal_x goal_y)))
          (seqZ 0 (Z.of_nat 20)) space)
      (fun k sp' => costed W H space adj goal_x goal_y
                      (fun t i j => i < x \/ i = x /\ j < k)%Z sp')
      (Z.to_nat H) 0%Z sp) as (sp' & Hrun' & Hend').
    + apply (costed_change _ _ _ _ _ _ _ _ _ Hsp). intros; lia.
    + intros y sp0 Hy Hsp0.
      destruct (for_each_seqZ
        (fun space crnt_t =>
          m ← vec_at space crnt_t;
          crnt_danger ← map_get_danger_at m x y;
          on_slice space crnt_t (fun m =>
            map_set_danger_at m x y
              (adj * crnt_danger + goal_distance x y goal_x goal_y)))
        (fun k sp1 => costed W H space adj goal_x goal_y
           (fun t i j => i < x \/ i = x /\ j < y \/ i = x /\ j = y /\ t < k)%Z
           sp1)
        20 0%Z sp0) as (sp1 & Hrun1 & Hend1).
      * apply (costed_change _ _ _ _ _ _ _ _ _ Hsp0). intros; lia.
      * intros k sp2 Hk Hsp2.
        apply earlier_cost_step; try assumption; try lia.
      * exists sp1. split; [exact Hrun1|].
        apply (costed_change _ _ _ _ _ _ _ _ _ Hend1).
        unfold look_ahead. intros; lia.
    + exists sp'. split; [exact Hrun'|].
      apply (costed_change _ _ _ _ _ _ _ _ _ Hend'). intros; lia.
  - exists space'. split; [exact Hrun|].
    destruct Hend as (_ & _ & Hcells).
    intros t i j Ht Hi Hj.
    destruct (Hcells t i j Ht Hi Hj) as (c & Hc & Hyes & Hno).
    exists c. split; [exact Hc|].
    case_decide as Hlt.
    + apply Hyes; [|exact Hlt]. lia.
    + apply Hno. right. exact Hlt.
Qed.

Lemma earlier_costs_weigh_by_grid_size_witness :
  let set_up := mkMap (replicate 3 (replicate 3 new_square)) 3 3 1 3 3 in
  let space := replicate 23 set_up in
  exists space' : list map,
    earlier.calculate_distance_costs space 2 1 = Some space' /\
    forall t i j : Z,
      (0 <= t < Z.of_nat (length space))%Z ->
      (0 <= i < 3)%Z -> (0 <= j < 3)%Z ->
      exists c : R,
        cell space t i j = Some c /\
        cell space' t i j =
          Some (if decide (t < look_ahead)%Z
                then IZR ((3 + 3) / 4) * c + goal_distance i j 2 1
                else c).
Proof.
  intros set_up space.
  apply (earlier_costs_weigh_by_grid_size 3 3 space 2 1); try lia.
  - unfold look_ahead. cbn. lia.
  - apply Forall_replicate. repeat split.
    apply Forall_replicate. reflexivity.
Defined.
